(** * EMS: event passes, gate scanning and invitation dispatch

    A shallow embedding of the event-management application's core:
    the code generator ([src/utils/qrGenerator.ts]), the scan handler
    ([pages/Scanner.tsx]), the invitation dispatcher
    ([pages/MailInvitations.tsx]), manual bulk import ([pages/Guests.tsx])
    and event deletion ([pages/Events.tsx]).

    Conventions.
    - A JavaScript string is a [string]: a sequence of code units below 256.
    - A Firestore collection is a finite map from document id to document
      data ([gmap string _]); the two log collections, which the pages only
      ever append to, are lists in insertion order.
    - Every awaited external call (store, mail, QR rendering) may reject;
      the verdict of the outside world is an explicit argument ("fault") of
      the handler, and the [try]/[catch] blocks are written out.
    - [serverTimestamp()] is the time supplied by the environment, and
      [Math.random()] a sequence of draws supplied by it.
    - What a handler only shows (activity log lines, alerts' wording,
      spinners) is left out unless a property below speaks of it. *)

From Stdlib Require Import Ascii QArith Qround.
From stdpp Require Import gmap strings list fin_maps.

(** ** JavaScript string primitives used by the pages *)

Module JsString.

(** [s.charAt(i)]: the one-character string at index [i], or the empty
    string when [i] is out of range. *)
Definition charAt (s : string) (i : Z) : string :=
  if (i <? 0)%Z then ""
  else match String.get (Z.to_nat i) s with
       | Some c => String c ""
       | None => ""
       end.

(** White space and line terminators removed by [trim], within the
    modelled code-unit range: TAB, LF, VT, FF, CR, SP and NBSP. *)
Definition is_whitespace (c : ascii) : bool :=
  let n := nat_of_ascii c in
  ((n =? 9) || (n =? 10) || (n =? 11) || (n =? 12) || (n =? 13)
   || (n =? 32) || (n =? 160))%nat.

Fixpoint trimStart (s : string) : string :=
  match s with
  | String c s' => if is_whitespace c then trimStart s' else s
  | "" => ""
  end.

Fixpoint trimEnd (s : string) : string :=
  match s with
  | String c s' =>
      match trimEnd s' with
      | "" => if is_whitespace c then "" else String c ""
      | t => String c t
      end
  | "" => ""
  end.

Definition trim (s : string) : string := trimEnd (trimStart s).

(** [toLowerCase] on one code unit: A-Z, and the Latin-1 capitals
    U+00C0-U+00DE except the multiplication sign U+00D7. *)
Definition lower_char (c : ascii) : ascii :=
  let n := nat_of_ascii c in
  if (((65 <=? n) && (n <=? 90))
      || ((192 <=? n) && (n <=? 222) && negb (n =? 215)))%nat
  then ascii_of_nat (n + 32) else c.

Fixpoint toLowerCase (s : string) : string :=
  match s with
  | String c s' => String (lower_char c) (toLowerCase s')
  | "" => ""
  end.

(** [s.includes(needle)] *)
Fixpoint includes (s needle : string) : bool :=
  String.prefix needle s
  || match s with
     | String _ s' => includes s' needle
     | "" => false
     end.

Fixpoint drop (n : nat) (s : string) : string :=
  match n, s with
  | S n', String _ s' => drop n' s'
  | _, _ => s
  end.

(** The first occurrence of [pat] in [s]: the text before it and the
    text after it. *)
Fixpoint split_first (pat s : string) : option (string * string) :=
  if String.prefix pat s then Some ("", drop (String.length pat) s)
  else match s with
       | String c s' =>
           match split_first pat s' with
           | Some (pre, post) => Some (String c pre, post)
           | None => None
           end
       | "" => None
       end.

(** ECMAScript [GetSubstitution] for a string pattern (no capture
    groups): in the replacement text, [$$] is a dollar sign, [$&] the
    matched text, [$`] the text before the match and [$'] the text after
    it; any other use of [$] is literal. *)
Fixpoint getSubstitution (matched pre post repl : string) : string :=
  match repl with
  | String "$" (String c r as rest) =>
      if Ascii.eqb c "$" then "$" +:+ getSubstitution matched pre post r
      else if Ascii.eqb c "&" then matched +:+ getSubstitution matched pre post r
      else if Ascii.eqb c "`" then pre +:+ getSubstitution matched pre post r
      else if Ascii.eqb c "'" then post +:+ getSubstitution matched pre post r
      else String "$" (getSubstitution matched pre post rest)
  | String c r => String c (getSubstitution matched pre post r)
  | "" => ""
  end.

(** [s.replace(pat, repl)] with a string pattern and a string
    replacement: the first occurrence only. *)
Definition replace (s pat repl : string) : string :=
  match split_first pat s with
  | Some (pre, post) => pre +:+ getSubstitution pat pre post repl +:+ post
  | None => s
  end.

(** [s.split(sep)] for a one-character separator. *)
Fixpoint split (sep : ascii) (s : string) : list string :=
  match s with
  | String c s' =>
      if Ascii.eqb c sep then "" :: split sep s'
      else match split sep s' with
           | h :: t => String c h :: t
           | [] => [String c ""]
           end
  | "" => [""]
  end.

(** Truthiness of a string: non-empty. *)
Definition truthy (s : string) : bool :=
  match s with "" => false | _ => true end.

End JsString.

(** ** Values shared by the pages *)

(** A Firestore [Timestamp], in milliseconds. *)
Abbreviation Timestamp := Z.

(** A thrown JavaScript value, as far as the handlers look at it: its
    [message], which may be absent. *)
Module JsError.
Record t := mk { message : option string }.
End JsError.

(** The outcome of an awaited call. *)
Inductive result (A : Type) : Type :=
| Ok (a : A)
| Throw (e : JsError.t).
Arguments Ok {A} a.
Arguments Throw {A} e.

(** Truthiness of an optional string field. *)
Definition truthy_opt (o : option string) : bool :=
  match o with Some s => JsString.truthy s | None => false end.

(** [o || dflt] on an optional string field. *)
Definition or_default (o : option string) (dflt : string) : string :=
  match o with
  | Some s => if JsString.truthy s then s else dflt
  | None => dflt
  end.

(** [s || null] *)
Definition or_null (s : string) : option string :=
  if JsString.truthy s then Some s else None.

(** ** The document types ([lib/types.ts]) *)

Module Event.
Record t := mk {
  admin_id : string;
  title : string;
  description : option string;
  bg_color : option string;
  accent_color : option string;
  qr_prefix : option string;
}.
End Event.

Module Pass.
Record t := mk {
  event_id : string;
  code : string;
  guest_name : string;
  guest_email : string;
  sheet_id : option string;
  sent_at : option Timestamp;
  used : option bool;
  scanned_at : option Timestamp;
  scanned_by : option string;
  created_at : option Timestamp;
}.

(** The field updates the pages write with [updateDoc]. *)
Definition mark_scanned (now : Timestamp) (uid : string) (p : t) : t :=
  mk (event_id p) (code p) (guest_name p) (guest_email p) (sheet_id p)
     (sent_at p) (Some true) (Some now) (Some uid) (created_at p).

Definition mark_sent (now : Timestamp) (p : t) : t :=
  mk (event_id p) (code p) (guest_name p) (guest_email p) (sheet_id p)
     (Some now) (used p) (scanned_at p) (scanned_by p) (created_at p).

(** [pass.used || pass.scanned_at] *)
Definition consumed (p : t) : bool :=
  match used p with
  | Some true => true
  | _ => match scanned_at p with Some _ => true | None => false end
  end.
End Pass.

Inductive ScanStatus := valid | already_used | invalid.

Module ScanLog.
Record t := mk {
  pass_id : option string;
  scanned_code : string;
  scanner_id : string;
  status : ScanStatus;
  event_id : option string;
  guest_name : option string;
  scanned_at : Timestamp;
}.
End ScanLog.

(** The [status] written to an email log entry. *)
Inductive EmailLogStatus := email_sent | email_failed | email_invalid.

Module EmailLog.
Record t := mk {
  pass_id : string;
  event_id : string;
  recipient_email : string;
  subject : string;
  status : EmailLogStatus;
  error_message : option string;
  sent_at : Timestamp;
}.
End EmailLog.

(** ** The document store *)

Module Firestore.

Record Store := mkStore {
  events : gmap string Event.t;
  passes : gmap string Pass.t;
  scan_logs : list ScanLog.t;
  email_logs : list EmailLog.t;
}.

Definition with_passes (ps : gmap string Pass.t) (st : Store) : Store :=
  mkStore (events st) ps (scan_logs st) (email_logs st).

Definition with_events (es : gmap string Event.t) (st : Store) : Store :=
  mkStore es (passes st) (scan_logs st) (email_logs st).

Definition not_found : JsError.t :=
  JsError.mk (Some "No document to update").

(** [getDocs(query(passes, where('code', '==', code), limit(1)))]: the
    first match in the collection's enumeration; which one that is only
    matters when two passes carry the same code. *)
Definition getDocs_by_code (fault : option JsError.t) (code : string)
    (st : Store) : result (list (string * Pass.t)) :=
  match fault with
  | Some e => Throw e
  | None =>
      Ok (take 1 (filter (λ d, Pass.code d.2 = code)
                         (map_to_list (passes st))))
  end.

(** [getDocs(query(passes, where('event_id', '==', eventId)))] *)
Definition getDocs_by_event (fault : option JsError.t) (eventId : string)
    (st : Store) : result (list (string * Pass.t)) :=
  match fault with
  | Some e => Throw e
  | None =>
      Ok (filter (λ d, Pass.event_id d.2 = eventId)
                 (map_to_list (passes st)))
  end.

(** [updateDoc(doc(db, 'passes', id), fields)]: rejects when the store
    does, and when no such document exists. *)
Definition updateDoc_pass (fault : option JsError.t) (id : string)
    (fields : Pass.t → Pass.t) (st : Store) : result Store :=
  match fault with
  | Some e => Throw e
  | None =>
      match passes st !! id with
      | Some p => Ok (with_passes (<[id := fields p]> (passes st)) st)
      | None => Throw not_found
      end
  end.

(** [addDoc(collection(db, 'passes'), data)]: the store either assigns
    the new document an id or rejects. *)
Definition addDoc_pass (outcome : result string) (data : Pass.t)
    (st : Store) : result Store :=
  match outcome with
  | Ok id => Ok (with_passes (<[id := data]> (passes st)) st)
  | Throw e => Throw e
  end.

(** [addDoc(collection(db, 'scan_logs'), entry)] *)
Definition addDoc_scan_log (fault : option JsError.t) (entry : ScanLog.t)
    (st : Store) : result Store :=
  match fault with
  | Some e => Throw e
  | None =>
      Ok (mkStore (events st) (passes st) (scan_logs st ++ [entry])
                  (email_logs st))
  end.

(** [addDoc(collection(db, 'email_logs'), entry)] *)
Definition addDoc_email_log (fault : option JsError.t) (entry : EmailLog.t)
    (st : Store) : result Store :=
  match fault with
  | Some e => Throw e
  | None =>
      Ok (mkStore (events st) (passes st) (scan_logs st)
                  (email_logs st ++ [entry]))
  end.

(** [deleteDoc(doc(db, 'events', id))]: deleting an absent document
    succeeds. *)
Definition deleteDoc_event (fault : option JsError.t) (id : string)
    (st : Store) : result Store :=
  match fault with
  | Some e => Throw e
  | None => Ok (with_events (delete id (events st)) st)
  end.

End Firestore.

(** ** [utils/qrGenerator.ts] *)

Module QrGenerator.

Definition chars : string := "ABCDEFGHIJKLMNOPQRSTUVWXYZ0123456789@#$%&*".

(** [Math.floor(Math.random() * chars.length)], for a draw [r] of
    [Math.random()]. The draw is a rational and the product is exact; in
    double arithmetic the product is rounded, which can turn a product
    just below an integer into that integer but never reaches 42 (the
    largest draw, 1 - 2^-53, gives 42 - 2^-47). *)
Definition random_index (r : Q) : Z :=
  Qfloor (r * inject_Z (Z.of_nat (String.length chars))).

(** The loop [for (let i = 0; i < 6; i++) code += chars.charAt(...)],
    with [n] iterations left; [rnd k] is the [k]-th draw of
    [Math.random()]. *)
Fixpoint code_loop (n : nat) (rnd : nat → Q) (k : nat) (code : string)
    : string :=
  match n with
  | O => code
  | S n' =>
      code_loop n' rnd (S k)
        (code +:+ JsString.charAt chars (random_index (rnd k)))
  end.

Definition generateUniqueCode (rnd : nat → Q) (k : nat) (prefix : string)
    : string :=
  prefix +:+ "-" +:+ code_loop 6 rnd k "".

End QrGenerator.

(** ** [lib/googleApi.ts] *)

Module GoogleApi.

Definition dq : string := String (ascii_of_nat 34) "".
Definition nl : string := String (ascii_of_nat 10) "".
Definition q (pieces : list string) : string := String.concat dq pieces.
Definition ln (lines : list string) : string := String.concat nl lines.

(** The constant pieces of the invitation template, between its
    interpolations. *)
Definition tpl0 : string :=
  ln [ "";
       "<!DOCTYPE html>";
       "<html>";
       "<head>";
       q ["  <meta charset="; "utf-8"; ">"];
       q ["  <meta name="; "viewport"; " content="; "width=device-width, initial-scale=1.0"; ">"];
       "  <title>" ].

Definition tpl1 : string :=
  ln [ " - Invitation</title>";
       "</head>";
       q ["<body style="; "margin: 0; padding: 0; font-family: -apple-system, BlinkMacSystemFont, 'Segoe UI', Roboto, 'Helvetica Neue', Arial, sans-serif; background-color: #f5f5f7;"; ">"];
       q ["  <table width="; "100%"; " cellpadding="; "0"; " cellspacing="; "0"; " style="; "background-color: #f5f5f7; padding: 40px 20px;"; ">"];
       "    <tr>";
       q ["      <td align="; "center"; ">"];
       q ["        <table width="; "600"; " cellpadding="; "0"; " cellspacing="; "0"; " style="; "background-color: "] ].

Definition tpl2 : string :=
  ln [ q ["; border-radius: 24px; overflow: hidden; box-shadow: 0 4px 6px rgba(0,0,0,0.1);"; ">"];
       "          <!-- Header -->";
       "          <tr>";
       q ["            <td style="; "background: linear-gradient(135deg, "] ].

Definition tpl3 : string :=
  ln [ " 0%, " ].

Definition tpl4 : string :=
  ln [ q ["dd 100%); padding: 40px 30px; text-align: center;"; ">"];
       q ["              <h1 style="; "margin: 0; color: #1a1a1a; font-size: 32px; font-weight: bold;"; ">"] ].

Definition tpl5 : string :=
  ln [ "</h1>";
       "              " ].

Definition tpl6 : string :=
  ln [ "";
       "            </td>";
       "          </tr>";
       "          ";
       "          <!-- Content -->";
       "          <tr>";
       q ["            <td style="; "padding: 40px 30px;"; ">"];
       q ["              <p style="; "margin: 0 0 20px; color: #333; font-size: 16px; line-height: 1.6; white-space: pre-wrap;"; ">"] ].

Definition tpl7 : string :=
  ln [ "</p>";
       "              ";
       "              <!-- QR Code -->";
       q ["              <table width="; "100%"; " cellpadding="; "0"; " cellspacing="; "0"; " style="; "margin: 30px 0;"; ">"];
       "                <tr>";
       q ["                  <td align="; "center"; " style="; "background-color: #f9f9f9; padding: 30px; border-radius: 16px;"; ">"];
       q ["                    <p style="; "margin: 0 0 20px; color: #666; font-size: 14px; font-weight: 600; text-transform: uppercase; letter-spacing: 1px;"; ">Your QR Pass</p>"];
       q ["                    <img src="; ""] ].

Definition tpl8 : string :=
  ln [ q [""; " alt="; "QR Code"; " style="; "width: 250px; height: 250px; display: block; margin: 0 auto;"; " />"];
       q ["                    <p style="; "margin: 20px 0 0; color: #999; font-size: 12px;"; ">Show this QR code at the entrance</p>"];
       "                  </td>";
       "                </tr>";
       "              </table>";
       "              ";
       q ["              <p style="; "margin: 30px 0 0; color: #666; font-size: 14px; line-height: 1.6;"; ">"];
       "                Please save this email or take a screenshot of the QR code. You'll need it to enter the event.";
       "              </p>";
       "            </td>";
       "          </tr>";
       "          ";
       "          <!-- Footer -->";
       "          <tr>";
       q ["            <td style="; "background-color: #f9f9f9; padding: 20px 30px; text-align: center; border-top: 1px solid #e5e5e5;"; ">"];
       q ["              <p style="; "margin: 0; color: #999; font-size: 12px;"; ">Powered by Mangrove Esports</p>"];
       "            </td>";
       "          </tr>";
       "        </table>";
       "      </td>";
       "    </tr>";
       "  </table>";
       "</body>";
       "</html>";
       "  " ].

Record InvitationParams := mkInvitation {
  guestName : string;
  eventTitle : string;
  eventDescription : option string;
  message : string;
  qrCodeDataUrl : string;
  bgColor : option string;
  accentColor : option string;
}.

(** Everything the template puts before the message paragraph's text. *)
Definition html_head (ps : InvitationParams) : string :=
  let bg := match bgColor ps with Some c => c | None => "#ffffff" end in
  let accent :=
    match accentColor ps with Some c => c | None => "#FFD43B" end in
  tpl0 +:+ eventTitle ps +:+ tpl1 +:+ bg +:+ tpl2 +:+ accent +:+ tpl3 +:+ accent
  +:+ tpl4 +:+ eventTitle ps +:+ tpl5
  +:+ (if truthy_opt (eventDescription ps)
      then q ["<p style="; "margin: 10px 0 0; color: #333; font-size: 16px;";
              ">"]
           +:+ or_default (eventDescription ps) "" +:+ "</p>"
      else "")
  +:+ tpl6.

(** Everything after it. *)
Definition html_tail (ps : InvitationParams) : string :=
  tpl7 +:+ qrCodeDataUrl ps +:+ tpl8.

Definition generateInvitationHTML (ps : InvitationParams) : string :=
  JsString.trim
    (html_head ps
     +:+ JsString.replace (message ps) "{NAME}" (guestName ps)
     +:+ html_tail ps).

(** The arguments of one [sendGmail] call. *)
Record MailParams := mkMail {
  to : string;
  subject : string;
  body : string;
  html : string;
}.

End GoogleApi.

(** ** [pages/Scanner.tsx] *)

Module Scanner.

(** A JavaScript [Date], as shown to the operator. *)
Inductive JsDate :=
| ValidDate (t : Timestamp)
| InvalidDate.

(** [ts?.toDate ? ts.toDate() : new Date(ts)] on the stored field: a
    stored timestamp converts to its date, an absent field gives
    [new Date(undefined)]. *)
Definition to_date (ts : option Timestamp) : JsDate :=
  match ts with
  | Some t => ValidDate t
  | None => InvalidDate
  end.

Record ScanResult := mkResult {
  status : ScanStatus;
  message : string;
  guestName : option string;
  scannedAt : option JsDate;
  code : option string;
}.

(** The component state the handler reads and writes; [user] is the
    signed-in operator's uid. *)
Record State := mkState {
  user : option string;
  isProcessing : bool;
  lastScannedCode : string;
  result : option ScanResult;
}.

(** What the outside world does to the three awaited store calls of one
    scan, and the server time of the two writes. *)
Record Env := mkEnv {
  query_fault : option JsError.t;
  update_fault : option JsError.t;
  update_time : Timestamp;
  log_fault : option JsError.t;
  log_time : Timestamp;
}.

(** [pass.guest_name || 'Guest'] *)
Definition guest_or_default (p : Pass.t) : string :=
  if JsString.truthy (Pass.guest_name p) then Pass.guest_name p else "Guest".

(** The handler from the classification to [setResult], given the
    snapshot the query returned. The event-title lookup between the two
    only decorates the local copy of the pass with a field that is not
    read again, and is left out. The check mark of the welcome message
    lies outside the modelled range of code units and stands here in its
    UTF-8 bytes. *)
Definition scan_body (env : Env) (uid code : string)
    (snapshot : list (string * Pass.t)) (st : Firestore.Store)
    : ScanResult * Firestore.Store :=
  let pass := head snapshot in
  let passDocId := fst <$> pass in
  let '(scanStatus, msg, guest, scanned, st1) :=
    match pass with
    | None =>
        (invalid, "Invalid QR Code - Pass Not Found", None, None, st)
    | Some (id, p) =>
        if Pass.consumed p then
          (already_used, "Already Scanned - " +:+ guest_or_default p,
           Some (Pass.guest_name p), Some (to_date (Pass.scanned_at p)), st)
        else
          (valid,
           "✓ Access Granted - Welcome " +:+ guest_or_default p +:+ "!",
           Some (Pass.guest_name p), None,
           match Firestore.updateDoc_pass (update_fault env) id
                   (Pass.mark_scanned (update_time env) uid) st with
           | Ok st' => st'
           | Throw _ => st
           end)
    end in
  let entry :=
    ScanLog.mk passDocId code uid scanStatus
      (match pass with Some (_, p) => or_null (Pass.event_id p) | None => None end)
      (match pass with Some (_, p) => or_null (Pass.guest_name p) | None => None end)
      (log_time env) in
  let st2 :=
    match Firestore.addDoc_scan_log (log_fault env) entry st1 with
    | Ok st' => st'
    | Throw _ => st1
    end in
  (mkResult scanStatus msg guest scanned (Some code), st2).

(** The result shown when the outer [try] catches. *)
Definition error_result (e : JsError.t) : ScanResult :=
  mkResult invalid
    ("Error processing scan: "
     +:+ match JsError.message e with Some m => m | None => "undefined" end)
    None None None.

Definition handleScan (env : Env) (code : string) (ui : State)
    (st : Firestore.Store) : State * Firestore.Store :=
  match user ui with
  | None => (ui, st)
  | Some uid =>
      if isProcessing ui || String.eqb (lastScannedCode ui) code then (ui, st)
      else
        match Firestore.getDocs_by_code (query_fault env) code st with
        | Ok snapshot =>
            let '(r, st') := scan_body env uid code snapshot st in
            (mkState (user ui) false code (Some r), st')
        | Throw e =>
            (mkState (user ui) false code (Some (error_result e)), st)
        end
  end.

(** The button under the result card. *)
Definition dismissResult (ui : State) : State :=
  mkState (user ui) false "" None.

(** *** Two gate devices

    [handleScan] is an [async] function: between its awaited calls other
    handlers run. A scan in flight is a task; one step of a task runs the
    handler up to the answer of the query, or from there to its end. *)
Inductive Task :=
| AwaitingQuery (uid code : string)
| AwaitingWrites (uid code : string) (snapshot : list (string * Pass.t))
| Finished (r : ScanResult).

Definition step (env : Env) (t : Task) (st : Firestore.Store)
    : Task * Firestore.Store :=
  match t with
  | AwaitingQuery uid code =>
      match Firestore.getDocs_by_code (query_fault env) code st with
      | Ok snapshot => (AwaitingWrites uid code snapshot, st)
      | Throw e => (Finished (error_result e), st)
      end
  | AwaitingWrites uid code snapshot =>
      let '(r, st') := scan_body env uid code snapshot st in
      (Finished r, st')
  | Finished r => (t, st)
  end.

(** A task run for its two steps. *)
Definition finish (env : Env) (t : Task) (st : Firestore.Store)
    : Task * Firestore.Store :=
  let '(t1, st1) := step env t st in step env t1 st1.

Inductive Device := DeviceA | DeviceB.

(** Two devices against one store, scheduled step by step. *)
Fixpoint run (envA envB : Env) (schedule : list Device) (tA tB : Task)
    (st : Firestore.Store) : Task * Task * Firestore.Store :=
  match schedule with
  | [] => (tA, tB, st)
  | DeviceA :: rest =>
      let '(tA', st') := step envA tA st in run envA envB rest tA' tB st'
  | DeviceB :: rest =>
      let '(tB', st') := step envB tB st in run envA envB rest tA tB' st'
  end.

Definition classification (t : Task) : option ScanStatus :=
  match t with
  | Finished r => Some (status r)
  | _ => None
  end.

End Scanner.

(** ** [pages/MailInvitations.tsx] *)

Module MailInvitations.

(** The component state the dispatcher reads and writes. *)
Record State := mkState {
  events : list (string * Event.t);
  selectedEventId : string;
  passes : list (string * Pass.t);
  subject : string;
  message : string;
  sheetId : string;
  inProgress : bool;
}.

Definition set_passes (ps : list (string * Pass.t)) (ui : State) : State :=
  mkState (events ui) (selectedEventId ui) ps (subject ui) (message ui)
          (sheetId ui) (inProgress ui).

Definition set_inProgress (b : bool) (ui : State) : State :=
  mkState (events ui) (selectedEventId ui) (passes ui) (subject ui)
          (message ui) (sheetId ui) b.

(** [.filter(pass => !pass.sent_at)] *)
Definition unsent (docs : list (string * Pass.t)) : list (string * Pass.t) :=
  filter (λ d, Pass.sent_at d.2 = None) docs.

Definition fetchPasses (fault : option JsError.t) (st : Firestore.Store)
    (ui : State) : State :=
  if negb (JsString.truthy (selectedEventId ui)) then ui
  else
    match Firestore.getDocs_by_event fault (selectedEventId ui) st with
    | Ok docs => set_passes (unsent docs) ui
    | Throw _ => ui
    end.

(** What the outside world does to the awaited calls of one loop
    iteration. *)
Record SendEnv := mkSendEnv {
  qr : result string;
  mail : option JsError.t;
  update_fault : option JsError.t;
  sent_time : Timestamp;
  log_fault : option JsError.t;
  failure_log_fault : option JsError.t;
  log_time : Timestamp;
}.

(** The progress of a run: the store, the [sendGmail] calls made so far
    (each with the id of the pass it was made for) and the two counters of
    the progress card. *)
Record Run := mkRun {
  store : Firestore.Store;
  attempts : list (string * GoogleApi.MailParams);
  sent : nat;
  failed : nat;
}.

(** [error.message?.toLowerCase().includes(needle)] *)
Definition message_includes (e : JsError.t) (needle : string) : bool :=
  match JsError.message e with
  | Some m => JsString.includes (JsString.toLowerCase m) needle
  | None => false
  end.

Definition failureStatus (e : JsError.t) : EmailLogStatus :=
  if message_includes e "address not found"
     || message_includes e "invalid"
     || message_includes e "recipient address rejected"
  then email_invalid else email_failed.

(** [error.message || 'Unknown error'] *)
Definition logged_message (e : JsError.t) : string :=
  or_default (JsError.message e) "Unknown error".

(** The [try] block of one iteration: the progress made, and the value
    thrown inside it, if any. The spreadsheet write-back after the pass
    update touches an external sheet only and swallows its own faults; it
    is left out. *)
Definition try_send (ui : State) (ev : Event.t) (env : SendEnv)
    (d : string * Pass.t) (w : Run) : Run * option JsError.t :=
  let '(id, pass) := d in
  match qr env with
  | Throw e => (w, Some e)
  | Ok qrCodeDataUrl =>
      let htmlBody :=
        GoogleApi.generateInvitationHTML
          (GoogleApi.mkInvitation (Pass.guest_name pass) (Event.title ev)
             (Event.description ev) (message ui) qrCodeDataUrl
             (Event.bg_color ev) (Event.accent_color ev)) in
      let call :=
        GoogleApi.mkMail (Pass.guest_email pass) (subject ui)
          (JsString.replace (message ui) "{NAME}" (Pass.guest_name pass))
          htmlBody in
      let w1 := mkRun (store w) (attempts w ++ [(id, call)]) (sent w)
                      (failed w) in
      match mail env with
      | Some e => (w1, Some e)
      | None =>
          match Firestore.updateDoc_pass (update_fault env) id
                  (Pass.mark_sent (sent_time env)) (store w1) with
          | Throw e => (w1, Some e)
          | Ok st1 =>
              let entry :=
                EmailLog.mk id (selectedEventId ui) (Pass.guest_email pass)
                  (subject ui) email_sent None (log_time env) in
              match Firestore.addDoc_email_log (log_fault env) entry st1 with
              | Throw e => (mkRun st1 (attempts w1) (sent w1) (failed w1), Some e)
              | Ok st2 => (mkRun st2 (attempts w1) (S (sent w1)) (failed w1), None)
              end
          end
      end
  end.

(** How a run, or one iteration of it, ends: not started, run to the end,
    or left by an exception that nothing catches. *)
Inductive Outcome :=
| Declined
| Completed (w : Run)
| Aborted (w : Run) (e : JsError.t).

(** One iteration: the [try] block and its [catch]. The log write in the
    handler is not itself guarded. *)
Definition send_one (ui : State) (ev : Event.t) (env : SendEnv)
    (d : string * Pass.t) (w : Run) : Outcome :=
  match try_send ui ev env d w with
  | (w1, None) => Completed w1
  | (w1, Some e) =>
      let entry :=
        EmailLog.mk d.1 (selectedEventId ui) (Pass.guest_email d.2)
          (subject ui) (failureStatus e) (Some (logged_message e))
          (log_time env) in
      match Firestore.addDoc_email_log (failure_log_fault env) entry
              (store w1) with
      | Throw e' => Aborted w1 e'
      | Ok st' => Completed (mkRun st' (attempts w1) (sent w1) (S (failed w1)))
      end
  end.

(** [for (let i = 0; i < passes.length; i++)], from iteration [i] on
    the passes still to visit; [env i] is the environment of iteration
    [i]. The one-second pause between iterations is not modelled. *)
Fixpoint send_from (ui : State) (ev : Event.t) (env : nat → SendEnv)
    (i : nat) (rest : list (string * Pass.t)) (w : Run) : Outcome :=
  match rest with
  | [] => Completed w
  | d :: rest' =>
      match send_one ui ev (env i) d w with
      | Completed w' => send_from ui ev env (S i) rest' w'
      | other => other
      end
  end.

Record Env := mkEnv {
  confirmed : bool;
  per_pass : nat → SendEnv;
  refetch_fault : option JsError.t;
}.

(** The handler up to its return. Its last statement, [fetchPasses()],
    is not awaited: a run that reaches its end returns with the Send
    button enabled again and the list of pending passes as it was when
    the run began. *)
Definition handleSendEmails (env : Env) (ui : State) (st : Firestore.Store)
    : State * Outcome :=
  if (length (passes ui) =? 0)%nat then (ui, Declined)
  else if negb (confirmed env) then (ui, Declined)
  else
    match find (λ e, String.eqb e.1 (selectedEventId ui)) (events ui) with
    | None => (ui, Declined)
    | Some (_, selectedEvent) =>
        match send_from (set_inProgress true ui) selectedEvent (per_pass env)
                0 (passes ui) (mkRun st [] 0 0) with
        | Completed w => (set_inProgress false ui, Completed w)
        | other => (set_inProgress true ui, other)
        end
    end.

(** The page once the query of the refresh that a completed run started
    has been answered, the store being as the run left it; a rejected
    query leaves the list as it was. No other run starts a refresh. *)
Definition refreshed (env : Env) (run : State * Outcome) : State :=
  match run.2 with
  | Completed w => fetchPasses (refetch_fault env) (store w) run.1
  | _ => run.1
  end.

(** The Send button: [disabled={status.inProgress || passes.length === 0}]. *)
Definition sendButton (env : Env) (ui : State) (st : Firestore.Store)
    : State * Outcome :=
  if inProgress ui || (length (passes ui) =? 0)%nat then (ui, Declined)
  else handleSendEmails env ui st.

(** The store a run leaves behind. *)
Definition store_after (o : Outcome) (st : Firestore.Store)
    : Firestore.Store :=
  match o with
  | Declined => st
  | Completed w | Aborted w _ => store w
  end.

(** The [sendGmail] calls of a run. *)
Definition attempts_of (o : Outcome) : list (string * GoogleApi.MailParams) :=
  match o with
  | Declined => []
  | Completed w | Aborted w _ => attempts w
  end.

End MailInvitations.

(** ** [pages/Guests.tsx] *)

Module Guests.

Record State := mkState {
  events : list (string * Event.t);
  selectedEventId : string;
  bulkText : string;
  showBulkImport : bool;
}.

Inductive Alert :=
| NoValidGuests
| ImportError
| Imported (n : nat).

(** The random source, the server time of the writes, and the store's
    answer to the [j]-th [addDoc]: a fresh document id, or a rejection. *)
Record Env := mkEnv {
  rnd : nat → Q;
  now : Timestamp;
  add_outcome : nat → result string;
}.

(** The callback of [lines.map]: the guest record of a line, or [null];
    [k] counts the draws of the random source made so far. *)
Definition parse_line (eventId prefix : string) (env : Env) (k : nat)
    (line : string) : option Pass.t * nat :=
  let fields := JsString.trim <$> JsString.split "," line in
  let name := fields !! 0 in
  let email := fields !! 1 in
  if truthy_opt name && truthy_opt email then
    (Some (Pass.mk eventId
             (QrGenerator.generateUniqueCode (rnd env) k prefix)
             (default "" name) (default "" email)
             None None (Some false) None None (Some (now env))),
     k + 6)
  else (None, k).

Fixpoint parse_lines (eventId prefix : string) (env : Env) (k : nat)
    (lines : list string) : list (option Pass.t) :=
  match lines with
  | [] => []
  | line :: rest =>
      let '(g, k') := parse_line eventId prefix env k line in
      g :: parse_lines eventId prefix env k' rest
  end.

(** [Promise.all(guests.map(guest => addDoc(passesRef, guest)))]: every
    write is issued; the flag tells whether one of them was rejected. *)
Fixpoint add_all (env : Env) (j : nat) (guests : list Pass.t)
    (st : Firestore.Store) : Firestore.Store * bool :=
  match guests with
  | [] => (st, false)
  | g :: rest =>
      match Firestore.addDoc_pass (add_outcome env j) g st with
      | Ok st' => add_all env (S j) rest st'
      | Throw _ => let '(st', _) := add_all env (S j) rest st in (st', true)
      end
  end.

(** The guest records built from the text area. *)
Definition guests_of (eventId prefix : string) (env : Env)
    (bulkText : string) : list Pass.t :=
  let lines := JsString.split (ascii_of_nat 10) (JsString.trim bulkText) in
  omap id (parse_lines eventId prefix env 0 lines).

(** The refresh of the displayed guest list at the end only reads the
    store, and is left out. *)
Definition handleBulkImport (env : Env) (ui : State) (st : Firestore.Store)
    : State * Firestore.Store * option Alert :=
  if negb (JsString.truthy (selectedEventId ui))
     || negb (JsString.truthy (JsString.trim (bulkText ui)))
  then (ui, st, None)
  else
    match find (λ e, String.eqb e.1 (selectedEventId ui)) (events ui) with
    | None => (ui, st, None)
    | Some (_, selectedEvent) =>
        let guests :=
          guests_of (selectedEventId ui)
            (or_default (Event.qr_prefix selectedEvent) "QRP") env
            (bulkText ui) in
        if (length guests =? 0)%nat then (ui, st, Some NoValidGuests)
        else
          match add_all env 0 guests st with
          | (st', false) =>
              (mkState (events ui) (selectedEventId ui) "" false, st',
               Some (Imported (length guests)))
          | (st', true) => (ui, st', Some ImportError)
          end
    end.

End Guests.

(** ** [pages/Events.tsx] *)

Module Events.

(** [confirmed] is the operator's answer to the confirmation dialog. The
    refresh of the displayed event list at the end only reads the store,
    and is left out. *)
Definition handleDeleteEvent (confirmed : bool) (fault : option JsError.t)
    (eventId : string) (st : Firestore.Store) : Firestore.Store :=
  if negb confirmed then st
  else
    match Firestore.deleteDoc_event fault eventId st with
    | Ok st' => st'
    | Throw _ => st
    end.

End Events.

(** ** Vocabulary of the specification *)

(** The data-model invariant: a code belongs to at most one pass. *)
Definition codes_unique (ps : gmap string Pass.t) : Prop :=
  map_Forall (λ i p,
    map_Forall (λ j q, Pass.code p = Pass.code q → i = j) ps) ps.

(** Exactly one [valid] and one [already_used]. *)
Definition one_valid_one_used (a b : option ScanStatus) : Prop :=
  (a = Some valid ∧ b = Some already_used)
  ∨ (a = Some already_used ∧ b = Some valid).

(** The character class [[A-Z0-9@#$%&*]]. *)
Definition in_class (c : ascii) : bool :=
  let n := nat_of_ascii c in
  ((65 <=? n) && (n <=? 90) || (48 <=? n) && (n <=? 57))%nat
  || existsb (Ascii.eqb c) (String.list_ascii_of_string "@#$%&*").

(** [^{PREFIX}-[A-Z0-9@#$%&*]{6}$], the prefix taken literally. *)
Definition matches_code_format (prefix s : string) : bool :=
  String.prefix (prefix +:+ "-") s
  && (String.length s =? String.length prefix + 7)%nat
  && forallb in_class
       (String.list_ascii_of_string
          (JsString.drop (String.length prefix + 1) s)).

(** Every code unit of the model. *)
Definition all_chars : list ascii := ascii_of_nat <$> seq 0 256.

(** The send attempt of an iteration fails with [e]: the QR rendering or
    the mail call rejects. *)
Definition send_fails (env : MailInvitations.SendEnv) (e : JsError.t)
    : Prop :=
  MailInvitations.qr env = Throw e
  ∨ ((∃ url, MailInvitations.qr env = Ok url)
     ∧ MailInvitations.mail env = Some e).


(** [s] is [pre], then [pat], then [post], and [pat] occurs nowhere
    before: the occurrence after [pre] is the first one. *)
Definition first_occurrence (pat pre post s : string) : Prop :=
  s = pre +:+ pat +:+ post
  ∧ ∀ k, k < String.length pre →
         String.prefix pat (JsString.drop k s) = false.

(** No dollar sign in the text. *)
Definition dollar_free (s : string) : Prop :=
  Forall (λ c, c ≠ "$"%char) (String.list_ascii_of_string s).

(** The [n]-th comma-separated field of a line, trimmed; empty when the
    line has no such field. *)
Definition field (n : nat) (line : string) : string :=
  JsString.trim (nth n (JsString.split "," line) "").

(** The line gives both a name and an email. *)
Definition complete_line (line : string) : Prop :=
  field 0 line ≠ "" ∧ field 1 line ≠ "".

Global Instance complete_line_dec line : Decision (complete_line line) :=
  decide (field 0 line ≠ "" ∧ field 1 line ≠ "").

(** The lines of the text area. *)
Definition lines_of (bulkText : string) : list string :=
  JsString.split (ascii_of_nat 10) (JsString.trim bulkText).

(** A pass as created for a guest: in [PENDING] state. *)
Definition pending (p : Pass.t) : Prop :=
  Pass.sent_at p = None ∧ Pass.used p = Some false
  ∧ Pass.scanned_at p = None ∧ Pass.scanned_by p = None.

(** ** Sample data *)

Definition pending_pass : Pass.t :=
  Pass.mk "ev1" "EVTX-AB12#9" "Ana" "ana@x.com" None None (Some false)
          None None (Some 100%Z).

Definition gate_store : Firestore.Store :=
  Firestore.mkStore ∅ {[ "p1" := pending_pass ]} [] [].

Definition operator_ui : Scanner.State :=
  Scanner.mkState (Some "op7") false "" None.

Definition healthy (t : Z) : Scanner.Env :=
  Scanner.mkEnv None None t None (t + 1)%Z.

Definition used_pass : Pass.t :=
  Pass.mk "ev1" "EVTX-AB12#9" "Ana" "ana@x.com" None None (Some true)
          (Some 500%Z) (Some "op7") (Some 100%Z).

Definition gate_store_after : Firestore.Store :=
  Firestore.mkStore ∅ {[ "p1" := used_pass ]} [] [].

(** The two scans of one pending code overlap: both devices get the
    answer of their query before either writes. *)
Definition overlapping : list Scanner.Device :=
  [Scanner.DeviceA; Scanner.DeviceB; Scanner.DeviceA; Scanner.DeviceB].

Definition sample_event : Event.t :=
  Event.mk "admin1" "Launch party" (Some "Doors at 8") None None (Some "EVTX").

Definition event_store : Firestore.Store :=
  Firestore.mkStore {[ "ev1" := sample_event ]} {[ "p1" := pending_pass ]}
                    [] [].

Definition mail_ui : MailInvitations.State :=
  MailInvitations.mkState [("ev1", sample_event)] "ev1"
    [("p1", pending_pass)] "Your Event Invitation"
    "Dear {NAME}, your pass is attached. See you there, {NAME}!" "" false.

Definition address_not_found : JsError.t :=
  JsError.mk (Some "Address not found").

Definition bounce : MailInvitations.SendEnv :=
  MailInvitations.mkSendEnv (Ok "data:image/png;base64,iVBORw0KGgo=")
    (Some address_not_found) None 700%Z None None 701%Z.

Definition delivered : MailInvitations.SendEnv :=
  MailInvitations.mkSendEnv (Ok "data:image/png;base64,iVBORw0KGgo=")
    None None 700%Z None None 701%Z.

Definition sent_pass : Pass.t :=
  Pass.mk "ev1" "EVTX-Q7$K2M" "Bob" "bob@x.com" None (Some 300%Z) (Some false)
          None None (Some 101%Z).

Definition other_pending_pass : Pass.t :=
  Pass.mk "ev1" "EVTX-ZZ0&PL" "Cy" "cy@x.com" None None (Some false)
          None None (Some 102%Z).

Definition party_store : Firestore.Store :=
  Firestore.mkStore {[ "ev1" := sample_event ]}
    (<[ "p3" := other_pending_pass ]>
       (<[ "p2" := sent_pass ]> {[ "p1" := pending_pass ]}))
    [] [].

Definition party_ui : MailInvitations.State :=
  MailInvitations.fetchPasses None party_store
    (MailInvitations.mkState [("ev1", sample_event)] "ev1" []
       "Your Event Invitation" "Dear {NAME}, see you there!" "" false).

Definition first_bounces : MailInvitations.Env :=
  MailInvitations.mkEnv true
    (λ i, match i with 0 => bounce | _ => delivered end) None.

Definition all_delivered : MailInvitations.Env :=
  MailInvitations.mkEnv true (λ _, delivered) None.

Definition cash_pass : Pass.t :=
  Pass.mk "ev1" "EVTX-9W@3TD" "Ca$$h" "cash@x.com" None None (Some false)
          None None (Some 103%Z).

Definition cash_store : Firestore.Store :=
  Firestore.mkStore {[ "ev1" := sample_event ]} {[ "p4" := cash_pass ]} [] [].

Definition cash_ui : MailInvitations.State :=
  MailInvitations.mkState [("ev1", sample_event)] "ev1" [("p4", cash_pass)]
    "Your Event Invitation"
    "Dear {NAME}, your pass is attached. See you there, {NAME}!" "" false.

Definition newline : string := String (ascii_of_nat 10) "".

Definition import_store : Firestore.Store :=
  Firestore.mkStore {[ "ev1" := sample_event ]} ∅ [] [].

Definition import_env : Guests.Env :=
  Guests.mkEnv (λ _, 1 # 2) 50%Z
    (λ j, Ok match j with 0 => "new0" | 1 => "new1" | _ => "new2" end).

Definition import_ui (text : string) : Guests.State :=
  Guests.mkState [("ev1", sample_event)] "ev1" text true.

Definition two_lines : string :=
  "Ana, ana@x.com" +:+ newline +:+ ", bob@x.com".


(** ** Further store operations *)

Module FirestoreDocs.

(** [deleteDoc(doc(db, 'passes', id))]: deleting an absent document
    succeeds. *)
Definition deleteDoc_pass (fault : option JsError.t) (id : string)
    (st : Firestore.Store) : result Firestore.Store :=
  match fault with
  | Some e => Throw e
  | None =>
      Ok (Firestore.with_passes (delete id (Firestore.passes st)) st)
  end.

(** [addDoc(collection(db, 'events'), data)] *)
Definition addDoc_event (outcome : result string) (data : Event.t)
    (st : Firestore.Store) : result Firestore.Store :=
  match outcome with
  | Ok id => Ok (Firestore.with_events (<[id := data]> (Firestore.events st)) st)
  | Throw e => Throw e
  end.

End FirestoreDocs.

(** ** [pages/Guests.tsx]: the single-guest form and the delete button *)

Module GuestsPage.

Record GuestForm := mkForm {
  name : string;
  email : string;
}.

(** What the operator sees after submitting the form: nothing (the
    handler returned at once), the closed dialog, or the alert. *)
Inductive AddOutcome :=
| NotSubmitted
| Added
| AddFailed.

(** The refresh of the displayed guest list at the end only reads the
    store, and is left out. *)
Definition handleAddGuest (env : Guests.Env) (guestForm : GuestForm)
    (ui : Guests.State) (st : Firestore.Store)
    : Firestore.Store * AddOutcome :=
  if negb (JsString.truthy (Guests.selectedEventId ui)) then (st, NotSubmitted)
  else
    match find (λ e, String.eqb e.1 (Guests.selectedEventId ui))
               (Guests.events ui) with
    | None => (st, NotSubmitted)
    | Some (_, selectedEvent) =>
        let code :=
          QrGenerator.generateUniqueCode (Guests.rnd env) 0
            (or_default (Event.qr_prefix selectedEvent) "QRP") in
        match Firestore.addDoc_pass (Guests.add_outcome env 0)
                (Pass.mk (Guests.selectedEventId ui) code (name guestForm)
                   (email guestForm) None None (Some false) None None
                   (Some (Guests.now env))) st with
        | Ok st' => (st', Added)
        | Throw _ => (st, AddFailed)
        end
    end.

(** [confirmed] is the operator's answer to the confirmation dialog. *)
Definition handleDeletePass (confirmed : bool) (fault : option JsError.t)
    (passId : string) (st : Firestore.Store) : Firestore.Store :=
  if negb confirmed then st
  else
    match FirestoreDocs.deleteDoc_pass fault passId st with
    | Ok st' => st'
    | Throw _ => st
    end.

End GuestsPage.

(** ** [pages/Events.tsx]: the creation form *)

Module EventsPage.

Record FormData := mkForm {
  title : string;
  description : string;
  qr_prefix : string;
  bg_color : string;
  accent_color : string;
}.

(** [user] is the signed-in administrator's uid. The two timestamps of
    the document are not part of the modelled event record. *)
Definition handleCreateEvent (user : option string)
    (outcome : result string) (formData : FormData) (st : Firestore.Store)
    : Firestore.Store :=
  match user with
  | None => st
  | Some uid =>
      match FirestoreDocs.addDoc_event outcome
              (Event.mk uid (title formData) (Some (description formData))
                 (Some (bg_color formData)) (Some (accent_color formData))
                 (Some (qr_prefix formData))) st with
      | Ok st' => st'
      | Throw _ => st
      end
  end.

End EventsPage.

(** ** [lib/googleApi.ts]: the token, Gmail and Sheets *)

Module GoogleAuth.

(** What [getAccessToken] reads: whether a user is signed in, and the
    answer of [localStorage.getItem('google_access_token')], which may
    throw. *)
Record Session := mkSession {
  signedIn : bool;
  stored_token : result (option string);
}.

Definition getAccessToken (s : Session) : option string :=
  if negb (signedIn s) then None
  else
    match stored_token s with
    | Ok (Some accessToken) =>
        if JsString.truthy accessToken then Some accessToken else None
    | Ok None => None
    | Throw _ => None
    end.

End GoogleAuth.

Module Gmail.

(** A response of the Gmail API as far as [sendGmail] looks at it. The
    body of an error response is read with [await response.json()], which
    may reject; [error.error?.message] is then a string or absent. *)
Record Response := mkResponse {
  ok : bool;
  statusText : string;
  error_message : result (option string);
}.

(** The request [sendGmail] makes. *)
Record Request := mkRequest {
  authorization : string;
  raw : string;
}.

Definition crlf : string := String (ascii_of_nat 13) (String (ascii_of_nat 10) "").

(** [messageParts.join('\r\n')] *)
Definition message (params : GoogleApi.MailParams) : string :=
  String.concat crlf
    [ "To: " +:+ GoogleApi.to params;
      "Subject: " +:+ GoogleApi.subject params;
      "MIME-Version: 1.0";
      "Content-Type: text/html; charset=utf-8";
      "";
      if JsString.truthy (GoogleApi.html params) then GoogleApi.html params
      else GoogleApi.body params ].

(** [unescape(encodeURIComponent(s))]: the UTF-8 bytes of [s], as a
    string of code units below 256. *)
Fixpoint utf8 (s : string) : string :=
  match s with
  | "" => ""
  | String c s' =>
      let n := nat_of_ascii c in
      if (n <? 128)%nat then String c (utf8 s')
      else String (ascii_of_nat (192 + n / 64))
             (String (ascii_of_nat (128 + n mod 64)) (utf8 s'))
  end.

Definition b64 : string :=
  "ABCDEFGHIJKLMNOPQRSTUVWXYZabcdefghijklmnopqrstuvwxyz0123456789+/".

(** The base64 digit of the low six bits of [n]. *)
Definition sextet (n : N) : ascii :=
  match String.get (N.to_nat (n mod 64)) b64 with
  | Some c => c
  | None => "="%char
  end.

(** [btoa(s)] on a string of bytes: three bytes give four digits, and a
    last group of one or two bytes is padded with [=]. *)
Fixpoint btoa (s : string) : string :=
  match s with
  | "" => ""
  | String a "" =>
      let n := (N_of_ascii a * 65536)%N in
      String (sextet (n / 262144)) (String (sextet (n / 4096)) "==")
  | String a (String b "") =>
      let n := (N_of_ascii a * 65536 + N_of_ascii b * 256)%N in
      String (sextet (n / 262144))
        (String (sextet (n / 4096)) (String (sextet (n / 64)) "="))
  | String a (String b (String c rest)) =>
      let n := (N_of_ascii a * 65536 + N_of_ascii b * 256 + N_of_ascii c)%N in
      String (sextet (n / 262144))
        (String (sextet (n / 4096))
           (String (sextet (n / 64)) (String (sextet n) (btoa rest))))
  end.

(** [s.replace(/c/g, d)] for single characters. *)
Fixpoint replace_all (c d : ascii) (s : string) : string :=
  match s with
  | "" => ""
  | String x s' => String (if Ascii.eqb x c then d else x) (replace_all c d s')
  end.

(** [s.replace(/=+$/, '')] *)
Fixpoint strip_padding (s : string) : string :=
  match s with
  | "" => ""
  | String x s' =>
      match strip_padding s' with
      | "" => if Ascii.eqb x "=" then "" else String x ""
      | t => String x t
      end
  end.

Definition encodedMessage (params : GoogleApi.MailParams) : string :=
  strip_padding
    (replace_all "/" "_" (replace_all "+" "-" (btoa (utf8 (message params))))).

(** The error thrown for a response that is not [ok], from the message
    of the API. *)
Definition rejection (errorMessage : string) : JsError.t :=
  if JsString.includes errorMessage "Invalid to header"
     || JsString.includes errorMessage "Recipient address rejected"
     || JsString.includes errorMessage "Invalid recipients"
  then JsError.mk (Some "Invalid email address - Recipient address rejected")
  else if JsString.includes errorMessage "Address not found"
  then JsError.mk (Some "Address not found - Invalid email address")
  else if JsString.includes errorMessage "Daily sending quota exceeded"
  then JsError.mk (Some "Daily sending quota exceeded - Try again tomorrow")
  else JsError.mk (Some ("Failed to send email: " +:+ errorMessage)).

(** [sendGmail(params)]: the request made, if any, and the outcome.
    [answer] is what [fetch] resolves or rejects with. The outer [catch]
    rethrows. *)
Definition sendGmail (s : GoogleAuth.Session) (answer : result Response)
    (params : GoogleApi.MailParams) : option Request * result bool :=
  match GoogleAuth.getAccessToken s with
  | None => (None, Throw (JsError.mk (Some "No access token available")))
  | Some accessToken =>
      let request :=
        mkRequest ("Bearer " +:+ accessToken) (encodedMessage params) in
      match answer with
      | Throw e => (Some request, Throw e)
      | Ok response =>
          if ok response then (Some request, Ok true)
          else
            match error_message response with
            | Throw e => (Some request, Throw e)
            | Ok m =>
                (Some request,
                 Throw (rejection (or_default m (statusText response))))
            end
      end
  end.

End Gmail.

From stdpp Require pretty.

Module Sheets.

(** The body of a response of the Sheets API as far as the helper looks
    at it: [error.error?.message] of an error body, [data.values] of a
    range. *)
Record Body := mkBody {
  error_message : option string;
  values : option (list (list string));
}.

(** [body] is the outcome of [await response.json()]. *)
Record Response := mkResponse {
  ok : bool;
  status : nat;
  statusText : string;
  body : result Body;
}.

(** What [fetch] does: it rejects with a value that renders as
    [rendering] in a template literal, or resolves. *)
Inductive Fetched :=
| Rejected (rendering : string)
| Resolved (response : Response).

(** The inner [try] of the error branch: the value of [errorMessage]
    when the block is left, and the value thrown in it, if any. *)
Definition read_error (response : Response) : string * option JsError.t :=
  match body response with
  | Throw e => (statusText response, Some e)
  | Ok error =>
      let errorMessage :=
        or_default (error_message error) (statusText response) in
      if (status response =? 401)%nat then
        (errorMessage,
         Some (JsError.mk (Some
           "Access token expired or invalid. Please sign out and sign in again.")))
      else if (status response =? 403)%nat then
        (errorMessage,
         Some (JsError.mk (Some
           "Permission denied. Make sure the spreadsheet is shared with your account or is publicly accessible.")))
      else (errorMessage, None)
  end.

(** [readGoogleSheet(spreadsheetId, range)]. The id and the range only
    shape the URL of the request, whose answer is [answer]. Everything
    thrown inside is an [Error], which the outer [catch] rethrows. *)
Definition readGoogleSheet (s : GoogleAuth.Session) (answer : Fetched)
    : result (list (list string)) :=
  match GoogleAuth.getAccessToken s with
  | None =>
      Throw (JsError.mk (Some
        "No access token available. Please sign out and sign in again to grant Google Sheets access."))
  | Some _ =>
      match answer with
      | Rejected rendering =>
          Throw (JsError.mk (Some
            ("Network error: Unable to connect to Google Sheets API. Please check your internet connection. Details: "
             +:+ rendering)))
      | Resolved response =>
          if ok response then
            match body response with
            | Throw e => Throw e
            | Ok data => Ok (default [] (values data))
            end
          else
            (* catch (e) { } *)
            let '(errorMessage, _) := read_error response in
            Throw (JsError.mk (Some
              ("Failed to read sheet (" +:+ pretty.pretty (status response) +:+ "): "
               +:+ errorMessage)))
      end
  end.

End Sheets.

(** ** [pages/MailInvitations.tsx]: the import from a spreadsheet *)

Module SheetImport.

Inductive Alert :=
| EnterSheetId
| SelectEvent
| NoAccessToken
| NoData
| Imported (n : nat)
| Failed (e : JsError.t).

Record Env := mkEnv {
  session : GoogleAuth.Session;
  answer : Sheets.Fetched;
  rnd : nat → Q;
  now : Timestamp;
  add_outcome : nat → result string;
  refetch_fault : option JsError.t;
}.

(** [cell?.includes(needle)] *)
Definition cell_includes (cell : option string) (needle : string) : bool :=
  match cell with
  | Some s => JsString.includes s needle
  | None => false
  end.

(** The test for a header row. *)
Definition is_header (row : list string) : bool :=
  cell_includes (JsString.toLowerCase <$> row !! 0) "name"
  || cell_includes (JsString.toLowerCase <$> row !! 1) "email".

(** [cell?.trim() || ''] *)
Definition trimmed (cell : option string) : string :=
  match cell with
  | Some s => JsString.trim s
  | None => ""
  end.

(** The name and email of a row, or nothing for a row that is skipped. *)
Definition guest_of_row (row : list string) : option (string * string) :=
  if (2 <=? length row)%nat && cell_includes (row !! 1) "@" then
    Some (trimmed (row !! 0), trimmed (row !! 1))
  else if cell_includes (row !! 0) "@" then
    let email := trimmed (row !! 0) in
    Some (default "" (head (JsString.split "@" email)), email)
  else None.

(** The loop over the rows; [k] counts the draws of the random source
    and [j] the writes made so far. *)
Fixpoint import_rows (eventId prefix sheetId : string) (env : Env)
    (k j : nat) (rows : list (list string)) (st : Firestore.Store)
    (imported : nat) : Firestore.Store * nat :=
  match rows with
  | [] => (st, imported)
  | row :: rest =>
      match guest_of_row row with
      | None => import_rows eventId prefix sheetId env k j rest st imported
      | Some (name, email) =>
          if negb (JsString.truthy email) then
            import_rows eventId prefix sheetId env k j rest st imported
          else
            let code := QrGenerator.generateUniqueCode (rnd env) k prefix in
            match Firestore.addDoc_pass (add_outcome env j)
                    (Pass.mk eventId code name email (Some sheetId) None
                       (Some false) None None (Some (now env))) st with
            | Ok st' =>
                import_rows eventId prefix sheetId env (k + 6) (S j) rest st'
                  (S imported)
            | Throw _ =>
                import_rows eventId prefix sheetId env (k + 6) (S j) rest st
                  imported
            end
      end
  end.

(** The handler: the page, the store and the alert shown, if any. When
    reading the storage throws, the exception is caught by nothing and the
    handler ends without an alert. *)
Definition handleSheetImport (env : Env) (ui : MailInvitations.State)
    (st : Firestore.Store)
    : MailInvitations.State * Firestore.Store * option Alert :=
  if negb (JsString.truthy (JsString.trim (MailInvitations.sheetId ui)))
  then (ui, st, Some EnterSheetId)
  else
    match find (λ e, String.eqb e.1 (MailInvitations.selectedEventId ui))
               (MailInvitations.events ui) with
    | None => (ui, st, Some SelectEvent)
    | Some (_, selectedEvent) =>
        match GoogleAuth.stored_token (session env) with
        | Throw _ => (ui, st, None)
        | Ok accessToken =>
            if negb (truthy_opt accessToken)
            then (ui, st, Some NoAccessToken)
            else
              match Sheets.readGoogleSheet (session env) (answer env) with
              | Throw e => (ui, st, Some (Failed e))
              | Ok [] => (ui, st, Some NoData)
              | Ok ((first :: _) as data) =>
                  let startRow := if is_header first then 1 else 0 in
                  let '(st', imported) :=
                    import_rows (MailInvitations.selectedEventId ui)
                      (or_default (Event.qr_prefix selectedEvent) "QRP")
                      (MailInvitations.sheetId ui) env 0 0
                      (drop startRow data) st 0 in
                  (MailInvitations.fetchPasses (refetch_fault env) st' ui,
                   st', Some (Imported imported))
              end
        end
    end.

End SheetImport.

(** ** [lib/firebase.ts] and [pages/AdminSettings.tsx]: admin profiles *)

Module Admins.

(** A document of the [admins] collection; [id] is the field of that
    name that older documents carry. The creation time, which no handler
    reads, is left out. *)
Record Doc := mkDoc {
  id : option string;
  email : option string;
  name : option string;
  role : option string;
  google_linked : option bool;
}.

Definition with_id (i : string) (d : Doc) : Doc :=
  mkDoc (Some i) (email d) (name d) (role d) (google_linked d).

(** What the store does to the three awaited calls of
    [fetchAdminProfile]. *)
Record Env := mkEnv {
  get_fault : option JsError.t;
  query_fault : option JsError.t;
  set_fault : option JsError.t;
}.

(** [fetchAdminProfile(userId)]: the profile returned and the collection
    it leaves. In [{ id: adminDoc.id, ...adminDoc.data() }] an [id] field
    of the document wins over the document's id. *)
Definition fetchAdminProfile (env : Env) (userId : string)
    (admins : gmap string Doc) : result Doc * gmap string Doc :=
  match get_fault env with
  | Some e => (Throw e, admins)
  | None =>
      match admins !! userId with
      | Some d => (Ok (with_id (default userId (id d)) d), admins)
      | None =>
          match query_fault env with
          | Some e => (Throw e, admins)
          | None =>
              match head (filter (λ x, id x.2 = Some userId)
                                 (map_to_list admins)) with
              | Some (_, d) => (Ok d, admins)
              | None =>
                  let newAdmin :=
                    mkDoc (Some userId) (Some "") None (Some "scanner_admin")
                          None in
                  match set_fault env with
                  | Some e => (Throw e, admins)
                  | None => (Ok newAdmin, <[userId := newAdmin]> admins)
                  end
              end
          end
      end
  end.


End Admins.

(** ** [App.tsx] and [components/Layout.tsx]: pages by role *)

Module App.

Inductive Page :=
| Dashboard
| Events
| Guests
| MailInvitations
| QREditor
| Scanner
| History
| Analytics
| AdminSettings.

(** [admin.role] of a profile. *)
Definition role_of (admin : Admins.Doc) : option string := Admins.role admin.

Definition is_role (r : string) (role : option string) : bool :=
  match role with
  | Some s => String.eqb s r
  | None => false
  end.

(** [handleHashChange]: the current page for the hash of the location. *)
Definition handleHashChange (role : option string) (hash : string) : string :=
  let h := JsString.drop 1 hash in
  if JsString.truthy h then h
  else if is_role "scanner_admin" role then "scanner" else "dashboard".

Definition renderPage (role : option string) (currentPage : string) : Page :=
  if is_role "scanner_admin" role then
    if String.eqb currentPage "scanner" then Scanner
    else if String.eqb currentPage "history" then History
    else Scanner
  else
    if String.eqb currentPage "dashboard" then Dashboard
    else if String.eqb currentPage "events" then Events
    else if String.eqb currentPage "guests" then Guests
    else if String.eqb currentPage "mail" then MailInvitations
    else if String.eqb currentPage "qr-editor" then QREditor
    else if String.eqb currentPage "scanner" then Scanner
    else if String.eqb currentPage "history" then History
    else if String.eqb currentPage "analytics" then Analytics
    else if String.eqb currentPage "settings" then AdminSettings
    else Dashboard.

(** The links of the navigation bar: name and [href]. *)
Definition navigation (role : option string) : list (string * string) :=
  if is_role "super_admin" role then
    [ ("Dashboard", "#dashboard"); ("Events", "#events");
      ("Guests", "#guests"); ("Send Invitations", "#mail");
      ("QR Editor", "#qr-editor"); ("Scanner", "#scanner");
      ("Analytics", "#analytics"); ("Admin Settings", "#settings") ]
  else [ ("Scanner", "#scanner"); ("History", "#history") ].

End App.

(** ** [pages/Analytics.tsx] and [pages/Dashboard.tsx]: the figures *)

Global Instance EmailLogStatus_eq_dec : EqDecision EmailLogStatus.
Proof. solve_decision. Defined.

Global Instance ScanStatus_eq_dec : EqDecision ScanStatus.
Proof. solve_decision. Defined.

Module Analytics.

Record t := mk {
  totalGenerated : nat;
  totalSent : nat;
  totalFailed : nat;
  totalScanned : nat;
  invalidScans : nat;
  duplicateScans : nat;
  scanRate : Q;
}.

(** [docs.filter(doc => doc.data().used === true || doc.data().scanned_at)] *)
Definition usedPasses (st : Firestore.Store) : list (string * Pass.t) :=
  filter (λ d, Pass.consumed d.2 = true) (map_to_list (Firestore.passes st)).

(** The counters of the two [forEach] loops. *)
Definition sent_count (st : Firestore.Store) : nat :=
  length (filter (λ e, EmailLog.status e = email_sent)
                 (Firestore.email_logs st)).

Definition failed_count (st : Firestore.Store) : nat :=
  length (filter (λ e, EmailLog.status e = email_failed
                       ∨ EmailLog.status e = email_invalid)
                 (Firestore.email_logs st)).

Definition count_scan (s : ScanStatus) (st : Firestore.Store) : nat :=
  length (filter (λ e, ScanLog.status e = s) (Firestore.scan_logs st)).

(** [fetchAnalytics]: the figures set, or nothing when one of the reads
    is rejected. The rate is computed in double arithmetic by the page
    and exactly here. *)
Definition fetchAnalytics (fault : option JsError.t) (st : Firestore.Store)
    : option t :=
  match fault with
  | Some _ => None
  | None =>
      let totalGenerated := size (Firestore.passes st) in
      let totalScanned := length (usedPasses st) in
      Some (mk totalGenerated
              (sent_count st)
              (failed_count st)
              totalScanned
              (count_scan invalid st)
              (count_scan already_used st)
              (if (0 <? totalGenerated)%nat
               then (inject_Z (Z.of_nat totalScanned)
                     / inject_Z (Z.of_nat totalGenerated) * 100)%Q
               else 0%Q))
  end.

End Analytics.

Module Dashboard.

Record Stats := mkStats {
  totalEvents : nat;
  totalPasses : nat;
  emailsSent : nat;
  scannedPasses : nat;
}.

(** [fetchDashboardData], as far as the four figures go; the list of
    recent events it also reads is left out. *)
Definition fetchDashboardData (fault : option JsError.t)
    (st : Firestore.Store) : option Stats :=
  match fault with
  | Some _ => None
  | None =>
      Some (mkStats (size (Firestore.events st)) (size (Firestore.passes st))
              (length (filter (λ e, EmailLog.status e = email_sent)
                              (Firestore.email_logs st)))
              (length (filter (λ d, Pass.consumed d.2 = true)
                              (map_to_list (Firestore.passes st)))))
  end.

End Dashboard.

(** ** [pages/Guests.tsx]: the CSV export *)

Module GuestsExport.

Definition headers : list string :=
  ["Name"; "Email"; "Code"; "Sent"; "Used"; "Scanned At"].

(** The cells of one pass; [render] is
    [new Date(pass.scanned_at).toLocaleString()], which depends on the
    browser. *)
Definition row (render : Timestamp → string) (pass : Pass.t) : list string :=
  [ Pass.guest_name pass;
    Pass.guest_email pass;
    Pass.code pass;
    match Pass.sent_at pass with Some _ => "Yes" | None => "No" end;
    match Pass.used pass with Some true => "Yes" | _ => "No" end;
    match Pass.scanned_at pass with Some t => render t | None => "N/A" end ].

(** [csvContent] of [handleExportCSV]. *)
Definition csvContent (render : Timestamp → string)
    (passes : list (string * Pass.t)) : string :=
  String.concat (String (ascii_of_nat 10) "")
    (String.concat "," <$> (headers :: (row render ∘ snd <$> passes))).

End GuestsExport.

(** ** Vocabulary of the further properties *)

(** What a scan of [code] may do to one pass document: nothing, or mark a
    pass of that code that was not consumed. *)
Definition scan_step_of (code : string) (p p' : Pass.t) : Prop :=
  p' = p
  ∨ (Pass.code p = code ∧ Pass.consumed p = false
     ∧ ∃ now uid, p' = Pass.mark_scanned now uid p).

(** The scanner hands one decoded code after the other to the handler;
    each call meets its own answers of the outside world. *)
Fixpoint scan_all (scans : list (Scanner.Env * string)) (ui : Scanner.State)
    (st : Firestore.Store) : Scanner.State * Firestore.Store :=
  match scans with
  | [] => (ui, st)
  | (env, code) :: rest =>
      let '(ui', st') := Scanner.handleScan env code ui st in
      scan_all rest ui' st'
  end.

(** What a dispatch run may do to one pass document: nothing, or record
    the time of the send. *)
Definition send_step_of (p p' : Pass.t) : Prop :=
  p' = p ∨ ∃ t, p' = Pass.mark_sent t p.

(** The log entries of a run that record a delivered mail. *)
Definition sent_entries (entries : list EmailLog.t) : nat :=
  length (filter (λ e, EmailLog.status e = email_sent) entries).

(** The entries that record a failure, of either kind. *)
Definition failure_entries (entries : list EmailLog.t) : nat :=
  length (filter (λ e, EmailLog.status e ≠ email_sent) entries).

(** How the store after a dispatch run relates to the store before it. *)
Definition dispatch_ext (st st' : Firestore.Store) : Prop :=
  Firestore.events st' = Firestore.events st
  ∧ Firestore.scan_logs st' = Firestore.scan_logs st
  ∧ Firestore.email_logs st `prefix_of` Firestore.email_logs st'
  ∧ ∀ i, match Firestore.passes st !! i with
         | Some p => ∃ p', Firestore.passes st' !! i = Some p'
                           ∧ send_step_of p p'
         | None => Firestore.passes st' !! i = None
         end.

(** No pass of the collection carries the code. *)
Definition code_unused (code : string) (ps : gmap string Pass.t) : Prop :=
  ∀ i p, ps !! i = Some p → Pass.code p ≠ code.

(** The guest page lists the events of the store, in some order. *)
Definition lists_events (ui : Guests.State) (st : Firestore.Store) : Prop :=
  Guests.events ui ≡ₚ map_to_list (Firestore.events st).

(** A character that may appear in a base64url text without padding. *)
Definition url_safe (c : ascii) : bool :=
  let n := nat_of_ascii c in
  ((65 <=? n) && (n <=? 90) || (97 <=? n) && (n <=? 122)
   || (48 <=? n) && (n <=? 57) || (n =? 45) || (n =? 95))%nat.

(** A digit of [btoa]. *)
Definition base64_digit (c : ascii) : Prop :=
  url_safe c = true ∨ c = "+"%char ∨ c = "/"%char.

(** Base64 text: digits followed by at most two padding signs. *)
Definition base64_text (s : string) : Prop :=
  ∃ body pad,
    s = body +:+ pad
    ∧ Forall base64_digit (String.list_ascii_of_string body)
    ∧ (pad = "" ∨ pad = "=" ∨ pad = "==").

(** A pass as the spreadsheet import writes it. *)
Definition sheet_pass (eventId prefix sheetId : string) (p : Pass.t) : Prop :=
  Pass.event_id p = eventId
  ∧ Pass.sheet_id p = Some sheetId
  ∧ pending p
  ∧ matches_code_format prefix (Pass.code p) = true
  ∧ JsString.includes (Pass.guest_email p) "@" = true
  ∧ JsString.trim (Pass.guest_email p) = Pass.guest_email p.

(** How the store after a spreadsheet import relates to the store before
    it: every pass document is as before or one the import wrote. *)
Definition import_ext (eventId prefix sheetId : string)
    (st st' : Firestore.Store) : Prop :=
  Firestore.events st' = Firestore.events st
  ∧ Firestore.scan_logs st' = Firestore.scan_logs st
  ∧ Firestore.email_logs st' = Firestore.email_logs st
  ∧ ∀ id, Firestore.passes st' !! id = Firestore.passes st !! id
          ∨ ∃ p, Firestore.passes st' !! id = Some p
                 ∧ sheet_pass eventId prefix sheetId p.

(** The environment in which the Sheets API answers with [rows]. *)
Definition sheet_of (env : SheetImport.Env) (rows : list (list string))
    : SheetImport.Env :=
  SheetImport.mkEnv (SheetImport.session env)
    (Sheets.Resolved
       (Sheets.mkResponse true 200 "OK"
          (Ok (Sheets.mkBody None (Some rows)))))
    (SheetImport.rnd env) (SheetImport.now env) (SheetImport.add_outcome env)
    (SheetImport.refetch_fault env).

(** No document of the collection answers the query for the older [id]
    field. *)
Definition no_legacy_profile (userId : string)
    (admins : gmap string Admins.Doc) : Prop :=
  ∀ k d, admins !! k = Some d → Admins.id d ≠ Some userId.

(** The text holds neither a comma nor a line feed. *)
Definition plain_cell (s : string) : Prop :=
  Forall (λ c, c ≠ ","%char ∧ c ≠ ascii_of_nat 10)
         (String.list_ascii_of_string s).

(** ** Further sample data *)

Definition sheet_ui : MailInvitations.State :=
  MailInvitations.mkState [("ev1", sample_event)] "ev1" []
    "Your Event Invitation" "Dear {NAME}, see you there!" "sheet-1" false.

Definition sheet_env : SheetImport.Env :=
  SheetImport.mkEnv (GoogleAuth.mkSession true (Ok (Some "ya29.token")))
    (Sheets.Rejected "TypeError: Failed to fetch")
    (λ _, 1 # 2) 60%Z
    (λ j, match j with 0 => Ok "s0" | 1 => Throw (JsError.mk None)
                  | _ => Ok "s2" end)
    None.

Definition sheet_rows : list (list string) :=
  [ ["Ana"; "ana@email.com"]; ["Bob"; " bob@x.com "]; ["cy@x.com"];
    ["no address"]; []; ["Di"; "di@x.com"] ].

Definition no_faults : Admins.Env := Admins.mkEnv None None None.

Definition sample_admins : gmap string Admins.Doc :=
  {[ "root" := Admins.mkDoc None (Some "root@x.com") (Some "Root")
                 (Some "super_admin") (Some true) ]}.

(** * Properties *)

(** ** The string primitives on small inputs *)

Example js_replace_first :
  JsString.replace "Dear {NAME}, {NAME}!" "{NAME}" "Ana" = "Dear Ana, {NAME}!".
Proof. reflexivity. Qed.

Example js_replace_patterns :
  JsString.replace "a-b-c" "b" "[$&|$`|$'|$$|$1]" = "a-[b|a-|-c|$|$1]-c".
Proof. reflexivity. Qed.

Example js_replace_absent :
  JsString.replace "Dear guest" "{NAME}" "Ana" = "Dear guest".
Proof. reflexivity. Qed.

Example js_split_fields :
  JsString.split "," "Ana, ana@x.com" = ["Ana"; " ana@x.com"].
Proof. reflexivity. Qed.

Example js_split_single : JsString.split "," "Bob" = ["Bob"].
Proof. reflexivity. Qed.

Example js_split_empty : JsString.split "," "" = [""].
Proof. reflexivity. Qed.

Example js_trim :
  JsString.trim ("  a b" +:+ newline +:+ " ") = "a b".
Proof. reflexivity. Qed.

Example js_includes_lower :
  JsString.includes
    (JsString.toLowerCase "Address not found - Invalid email address")
    "address not found" = true.
Proof. reflexivity. Qed.

Example js_charAt_out_of_range :
  JsString.charAt QrGenerator.chars 42 = ""
  ∧ JsString.charAt QrGenerator.chars 41 = "*".
Proof. by split. Qed.

(** ** The pass collection *)

Section lookup.
Context (st : Firestore.Store).

Lemma singleton_of_NoDup {A} (l : list A) (a : A) :
  NoDup l → a ∈ l → (∀ x, x ∈ l → x = a) → l = [a].
Proof.
  intros Hnd Hin Hall. destruct l as [|x [|y l]].
  - by apply elem_of_nil in Hin.
  - f_equal. apply Hall. by left.
  - assert (x = a) as -> by (apply Hall; by left).
    assert (y = a) as -> by (apply Hall; right; by left).
    apply NoDup_cons in Hnd as [Hnot _]. exfalso. apply Hnot. by left.
Qed.

Lemma getDocs_by_code_unique i p :
  Firestore.passes st !! i = Some p →
  codes_unique (Firestore.passes st) →
  Firestore.getDocs_by_code None (Pass.code p) st = Ok [(i, p)].
Proof.
  intros Hi Huniq. unfold Firestore.getDocs_by_code. f_equal.
  rewrite (singleton_of_NoDup
             (filter (λ d : string * Pass.t, Pass.code d.2 = Pass.code p)
                     (map_to_list (Firestore.passes st))) (i, p));
    first done.
  - apply NoDup_filter, NoDup_map_to_list.
  - apply list_elem_of_filter. split; [done | by apply elem_of_map_to_list].
  - intros [j q] [Hc Hj%elem_of_map_to_list]%list_elem_of_filter.
    simpl in Hc. assert (i = j) as <- by (by eapply (Huniq i p Hi j q Hj)).
    congruence.
Qed.

Lemma getDocs_by_code_unknown c :
  (∀ i p, Firestore.passes st !! i = Some p → Pass.code p ≠ c) →
  Firestore.getDocs_by_code None c st = Ok [].
Proof.
  intros Hno. unfold Firestore.getDocs_by_code. f_equal.
  destruct (filter _ _) as [|[j q] l] eqn:Hf; first done.
  assert ((j, q) ∈ filter (λ d : string * Pass.t, Pass.code d.2 = c)
            (map_to_list (Firestore.passes st))) as Hin
    by (rewrite Hf; by left).
  apply list_elem_of_filter in Hin as [Hc Hj%elem_of_map_to_list].
  by destruct (Hno j q Hj).
Qed.

End lookup.

(** ** The scan handler *)

Section scanner.
Import Scanner.

Lemma not_consumed p :
  Pass.used p ≠ Some true → Pass.scanned_at p = None →
  Pass.consumed p = false.
Proof.
  unfold Pass.consumed. intros Hu ->. by destruct (Pass.used p) as [[]|].
Qed.

Lemma consumed_iff p :
  Pass.consumed p = true ↔
  Pass.used p = Some true ∨ is_Some (Pass.scanned_at p).
Proof.
  unfold Pass.consumed.
  destruct (Pass.used p) as [[]|], (Pass.scanned_at p); split;
    try done; eauto; intros [?|[? ?]]; done.
Qed.

Lemma guards_pass ui uid c :
  user ui = Some uid → isProcessing ui = false → lastScannedCode ui ≠ c →
  ∀ env st,
    handleScan env c ui st =
    match Firestore.getDocs_by_code (query_fault env) c st with
    | Ok snapshot =>
        let '(r, st') := scan_body env uid c snapshot st in
        (mkState (user ui) false c (Some r), st')
    | Throw e => (mkState (user ui) false c (Some (error_result e)), st)
    end.
Proof.
  intros Hu Hp Hl env st. unfold handleScan. rewrite Hu, Hp.
  apply String.eqb_neq in Hl. by rewrite Hl.
Qed.

(** The handler is the task it starts, run for its two steps. *)
Lemma handleScan_steps env ui uid c st :
  user ui = Some uid → isProcessing ui = false → lastScannedCode ui ≠ c →
  ∃ r, (let '(t1, st1) := step env (AwaitingQuery uid c) st in
        step env t1 st1) = (Finished r, (handleScan env c ui st).2)
       ∧ result (handleScan env c ui st).1 = Some r.
Proof.
  intros Hu Hp Hl. rewrite (guards_pass _ _ _ Hu Hp Hl). cbn [step].
  destruct (Firestore.getDocs_by_code _ _ _) as [snapshot|e]; cbn [step].
  - destruct (scan_body env uid c snapshot st) as [r st'] eqn:Hb.
    by exists r.
  - by eexists.
Qed.

End scanner.

(** Enter the handler past its guards and the query. *)
Ltac enter_handler Hu Hp Hl Hq :=
  rewrite (guards_pass _ _ _ Hu Hp Hl), Hq.

(** C1. Scanning the code of a pass whose [used] flag is not raised and
    whose [scanned_at] is unset, with the store answering the three calls:
    the attempt is classified [valid]; the pass gets [used = true],
    [scanned_at] the time of the write and [scanned_by] the operator's uid;
    exactly one entry is appended to the scan log, with status [valid] and
    referencing the pass. *)
Theorem scan_pending_pass_valid env ui st uid i p :
  Scanner.user ui = Some uid →
  Scanner.isProcessing ui = false →
  Scanner.lastScannedCode ui ≠ Pass.code p →
  Scanner.query_fault env = None →
  Scanner.update_fault env = None →
  Scanner.log_fault env = None →
  Firestore.passes st !! i = Some p →
  codes_unique (Firestore.passes st) →
  Pass.used p ≠ Some true →
  Pass.scanned_at p = None →
  let out := Scanner.handleScan env (Pass.code p) ui st in
  Scanner.status <$> Scanner.result out.1 = Some valid
  ∧ (∃ p', Firestore.passes out.2 = <[i := p']> (Firestore.passes st)
           ∧ Pass.used p' = Some true
           ∧ Pass.scanned_at p' = Some (Scanner.update_time env)
           ∧ Pass.scanned_by p' = Some uid)
  ∧ (∃ entry, Firestore.scan_logs out.2 = Firestore.scan_logs st ++ [entry]
              ∧ ScanLog.status entry = valid
              ∧ ScanLog.pass_id entry = Some i).
Proof.
  intros Hu Hp Hl Hq Hup Hlog Hi Huniq Hused Hsc out. subst out.
  enter_handler Hu Hp Hl Hq.
  rewrite (getDocs_by_code_unique st i p Hi Huniq).
  unfold Scanner.scan_body. simpl.
  rewrite (not_consumed p Hused Hsc), Hup, Hlog.
  unfold Firestore.updateDoc_pass. rewrite Hi. simpl.
  split; [done|]. split; eauto 10.
Qed.

Lemma gate_store_codes_unique : codes_unique (Firestore.passes gate_store).
Proof.
  intros i p Hi j q Hj _. simpl in *.
  apply lookup_singleton_Some in Hi as [<- _].
  by apply lookup_singleton_Some in Hj as [<- _].
Qed.

(** X1. When the store rejects the update, the handler swallows the error:
    the attempt is still classified [valid] and logged, and the pass stays
    as it was. *)
Lemma scan_pending_pass_update_rejected env ui st uid i p e :
  Scanner.user ui = Some uid →
  Scanner.isProcessing ui = false →
  Scanner.lastScannedCode ui ≠ Pass.code p →
  Scanner.query_fault env = None →
  Scanner.update_fault env = Some e →
  Firestore.passes st !! i = Some p →
  codes_unique (Firestore.passes st) →
  Pass.used p ≠ Some true →
  Pass.scanned_at p = None →
  let out := Scanner.handleScan env (Pass.code p) ui st in
  Scanner.status <$> Scanner.result out.1 = Some valid
  ∧ Firestore.passes out.2 = Firestore.passes st.
Proof.
  intros Hu Hp Hl Hq Hup Hi Huniq Hused Hsc out. subst out.
  enter_handler Hu Hp Hl Hq.
  rewrite (getDocs_by_code_unique st i p Hi Huniq).
  unfold Scanner.scan_body. simpl.
  rewrite (not_consumed p Hused Hsc), Hup. simpl.
  by destruct (Scanner.log_fault env).
Qed.

Lemma scan_pending_pass_valid_witness :
  let out := Scanner.handleScan (healthy 500) "EVTX-AB12#9" operator_ui
               gate_store in
  Scanner.status <$> Scanner.result out.1 = Some valid
  ∧ (∃ p', Firestore.passes out.2
            = <[ "p1" := p' ]> (Firestore.passes gate_store)
           ∧ Pass.used p' = Some true
           ∧ Pass.scanned_at p' = Some 500%Z
           ∧ Pass.scanned_by p' = Some "op7")
  ∧ (∃ entry, Firestore.scan_logs out.2
              = Firestore.scan_logs gate_store ++ [entry]
              ∧ ScanLog.status entry = valid
              ∧ ScanLog.pass_id entry = Some "p1").
Proof.
  apply (scan_pending_pass_valid (healthy 500) operator_ui gate_store "op7"
           "p1" pending_pass);
    try reflexivity; try discriminate.
  apply gate_store_codes_unique.
Defined.

(** C2. Scanning the code of a pass whose [used] flag is raised or whose
    [scanned_at] is set, with the store answering the query and the log
    write: the attempt is classified [already_used]; the pass collection
    (and the events) are left as they were, so no field of the pass, and in
    particular not [scanned_at], changes; one entry referencing the pass is
    appended to the scan log; and the result carries the date of the stored
    [scanned_at]. *)
Theorem scan_consumed_pass_already_used env ui st uid i p :
  Scanner.user ui = Some uid →
  Scanner.isProcessing ui = false →
  Scanner.lastScannedCode ui ≠ Pass.code p →
  Scanner.query_fault env = None →
  Scanner.log_fault env = None →
  Firestore.passes st !! i = Some p →
  codes_unique (Firestore.passes st) →
  Pass.used p = Some true ∨ is_Some (Pass.scanned_at p) →
  let out := Scanner.handleScan env (Pass.code p) ui st in
  Scanner.status <$> Scanner.result out.1 = Some already_used
  ∧ Firestore.passes out.2 = Firestore.passes st
  ∧ Firestore.events out.2 = Firestore.events st
  ∧ (∃ entry, Firestore.scan_logs out.2 = Firestore.scan_logs st ++ [entry]
              ∧ ScanLog.pass_id entry = Some i
              ∧ ScanLog.status entry = already_used
              ∧ ScanLog.scanned_at entry = Scanner.log_time env)
  ∧ Scanner.result out.1 ≫= Scanner.scannedAt
    = Some (Scanner.to_date (Pass.scanned_at p))
  ∧ (∀ t, Pass.scanned_at p = Some t →
          Scanner.result out.1 ≫= Scanner.scannedAt
          = Some (Scanner.ValidDate t))
  ∧ Scanner.result out.1 ≫= Scanner.guestName = Some (Pass.guest_name p).
Proof.
  intros Hu Hp Hl Hq Hlog Hi Huniq Hcons%consumed_iff out. subst out.
  enter_handler Hu Hp Hl Hq.
  rewrite (getDocs_by_code_unique st i p Hi Huniq).
  unfold Scanner.scan_body. simpl. rewrite Hcons, Hlog. simpl.
  repeat split; eauto. by intros t ->.
Qed.

Lemma gate_store_after_codes_unique :
  codes_unique (Firestore.passes gate_store_after).
Proof.
  intros i p Hi j q Hj _. simpl in *.
  apply lookup_singleton_Some in Hi as [<- _].
  by apply lookup_singleton_Some in Hj as [<- _].
Qed.

Lemma scan_consumed_pass_already_used_witness :
  let out := Scanner.handleScan (healthy 900) "EVTX-AB12#9" operator_ui
               gate_store_after in
  Scanner.status <$> Scanner.result out.1 = Some already_used
  ∧ Firestore.passes out.2 = Firestore.passes gate_store_after
  ∧ Scanner.result out.1 ≫= Scanner.scannedAt
    = Some (Scanner.ValidDate 500).
Proof.
  pose proof (scan_consumed_pass_already_used (healthy 900) operator_ui
                gate_store_after "op7" "p1" used_pass
                eq_refl eq_refl ltac:(discriminate) eq_refl eq_refl eq_refl
                gate_store_after_codes_unique (or_introl eq_refl)) as H.
  simpl in H. destruct H as (Hs & Hps & _ & _ & _ & Hd & _).
  split; [exact Hs|]. split; [exact Hps|]. exact (Hd 500%Z eq_refl).
Defined.

(** Scenario D of the specification: the same code scanned twice. While
    the first result is on screen the repeated scan is dropped; after the
    operator dismisses it, the second scan is classified [already_used],
    reports the time of the first scan and leaves the pass as the first
    scan wrote it. *)
Example scan_twice :
  let first := Scanner.handleScan (healthy 500) "EVTX-AB12#9" operator_ui
                 gate_store in
  let repeated := Scanner.handleScan (healthy 700) "EVTX-AB12#9" first.1
                    first.2 in
  let second := Scanner.handleScan (healthy 900) "EVTX-AB12#9"
                  (Scanner.dismissResult first.1) first.2 in
  Scanner.status <$> Scanner.result first.1 = Some valid
  ∧ repeated = first
  ∧ Scanner.status <$> Scanner.result second.1 = Some already_used
  ∧ Scanner.result second.1 ≫= Scanner.scannedAt
    = Some (Scanner.ValidDate 500)
  ∧ Firestore.passes second.2 = Firestore.passes first.2
  ∧ (Pass.scanned_at <$> Firestore.passes second.2 !! "p1")
    = Some (Some 500%Z)
  ∧ (ScanLog.status <$> Firestore.scan_logs second.2)
    = [valid; already_used].
Proof. by vm_compute. Qed.

(** C3. Scanning a code that no pass carries, with the store answering
    the query and the log write: the attempt is classified [invalid]; the
    pass and event collections (and the email log) are left as they were;
    exactly one entry is appended to the scan log, and its pass reference
    is null. *)
Theorem scan_unknown_code_invalid env ui st uid c :
  Scanner.user ui = Some uid →
  Scanner.isProcessing ui = false →
  Scanner.lastScannedCode ui ≠ c →
  Scanner.query_fault env = None →
  Scanner.log_fault env = None →
  (∀ i p, Firestore.passes st !! i = Some p → Pass.code p ≠ c) →
  let out := Scanner.handleScan env c ui st in
  Scanner.status <$> Scanner.result out.1 = Some invalid
  ∧ Firestore.passes out.2 = Firestore.passes st
  ∧ Firestore.events out.2 = Firestore.events st
  ∧ Firestore.email_logs out.2 = Firestore.email_logs st
  ∧ (∃ entry, Firestore.scan_logs out.2 = Firestore.scan_logs st ++ [entry]
              ∧ ScanLog.pass_id entry = None
              ∧ ScanLog.status entry = invalid
              ∧ ScanLog.scanned_code entry = c).
Proof.
  intros Hu Hp Hl Hq Hlog Hno out. subst out.
  enter_handler Hu Hp Hl Hq.
  rewrite (getDocs_by_code_unknown st c Hno).
  unfold Scanner.scan_body. simpl. rewrite Hlog. simpl.
  repeat split; eauto.
Qed.

Lemma gate_store_no_such_code :
  ∀ i p, Firestore.passes gate_store !! i = Some p →
         Pass.code p ≠ "ZZZZ-000000".
Proof.
  intros i p Hi. simpl in Hi. by apply lookup_singleton_Some in Hi as [_ <-].
Qed.

Lemma scan_unknown_code_invalid_witness :
  let out := Scanner.handleScan (healthy 500) "ZZZZ-000000" operator_ui
               gate_store in
  Scanner.status <$> Scanner.result out.1 = Some invalid
  ∧ Firestore.passes out.2 = Firestore.passes gate_store
  ∧ Firestore.events out.2 = Firestore.events gate_store
  ∧ Firestore.email_logs out.2 = Firestore.email_logs gate_store
  ∧ (∃ entry, Firestore.scan_logs out.2
              = Firestore.scan_logs gate_store ++ [entry]
              ∧ ScanLog.pass_id entry = None
              ∧ ScanLog.status entry = invalid
              ∧ ScanLog.scanned_code entry = "ZZZZ-000000").
Proof.
  apply (scan_unknown_code_invalid (healthy 500) operator_ui gate_store
           "op7" "ZZZZ-000000");
    try reflexivity; try discriminate.
  apply gate_store_no_such_code.
Defined.

(** ** Two scans of one code *)

Section two_scans.
Import Scanner.

Lemma codes_unique_update (ps : gmap string Pass.t) i p p' :
  ps !! i = Some p → Pass.code p' = Pass.code p →
  codes_unique ps → codes_unique (<[i := p']> ps).
Proof.
  intros Hi Hc Huniq j q Hj k r Hk Hqr.
  apply lookup_insert_Some in Hj as [[<- <-]|[Hij Hj]];
    apply lookup_insert_Some in Hk as [[<- <-]|[Hik Hk]]; try done.
  - apply (Huniq i p Hi k r Hk). congruence.
  - apply (Huniq j q Hj i p Hi). congruence.
  - by apply (Huniq j q Hj k r Hk).
Qed.

(** The second half of the handler on a pass read as pending: classified
    [valid] whatever the store holds by now, and the pass overwritten. *)
Lemma scan_body_pending env uid c i p st :
  Firestore.passes st !! i = Some p →
  Pass.used p ≠ Some true → Pass.scanned_at p = None →
  update_fault env = None →
  ∃ r st',
    scan_body env uid c [(i, p)] st = (r, st')
    ∧ status r = valid
    ∧ Firestore.passes st'
      = <[i := Pass.mark_scanned (update_time env) uid p]> (Firestore.passes st).
Proof.
  intros Hi Hu Hs Hup. unfold scan_body. simpl.
  rewrite (not_consumed p Hu Hs), Hup.
  unfold Firestore.updateDoc_pass. rewrite Hi.
  destruct (log_fault env); by eexists _, _.
Qed.

(** The classification looks at the snapshot only: a pass that was read
    as pending is granted even when the stored pass has been used in the
    meantime. *)
Lemma scan_body_stale_snapshot env uid c i p st :
  Pass.used p ≠ Some true → Pass.scanned_at p = None →
  status (scan_body env uid c [(i, p)] st).1 = valid.
Proof.
  intros Hu Hs. unfold scan_body. simpl. by rewrite (not_consumed p Hu Hs).
Qed.

Lemma scan_body_consumed env uid c i p st :
  Pass.consumed p = true →
  ∃ r st',
    scan_body env uid c [(i, p)] st = (r, st')
    ∧ status r = already_used
    ∧ Firestore.passes st' = Firestore.passes st.
Proof.
  intros Hc. unfold scan_body. simpl. rewrite Hc.
  destruct (log_fault env); by eexists _, _.
Qed.

Lemma run_A_then_B envA envB tA tB st :
  run envA envB [DeviceA; DeviceA; DeviceB; DeviceB] tA tB st
  = let '(tA', st1) := finish envA tA st in
    let '(tB', st2) := finish envB tB st1 in (tA', tB', st2).
Proof.
  unfold finish. cbn [run].
  destruct (step envA tA st) as [tA1 s1].
  destruct (step envA tA1 s1) as [tA2 s2].
  destruct (step envB tB s2) as [tB1 s3].
  by destruct (step envB tB1 s3).
Qed.

Lemma run_B_then_A envA envB tA tB st :
  run envA envB [DeviceB; DeviceB; DeviceA; DeviceA] tA tB st
  = let '(tB', st1) := finish envB tB st in
    let '(tA', st2) := finish envA tA st1 in (tA', tB', st2).
Proof.
  unfold finish. cbn [run].
  destruct (step envB tB st) as [tB1 s1].
  destruct (step envB tB1 s1) as [tB2 s2].
  destruct (step envA tA s2) as [tA1 s3].
  by destruct (step envA tA1 s3).
Qed.

Lemma finish_pending env uid i p st :
  query_fault env = None → update_fault env = None →
  Firestore.passes st !! i = Some p →
  codes_unique (Firestore.passes st) →
  Pass.used p ≠ Some true → Pass.scanned_at p = None →
  ∃ r st',
    finish env (AwaitingQuery uid (Pass.code p)) st = (Finished r, st')
    ∧ status r = valid
    ∧ Firestore.passes st'
      = <[i := Pass.mark_scanned (update_time env) uid p]> (Firestore.passes st).
Proof.
  intros Hq Hup Hi Huniq Hused Hsc. unfold finish. cbn [step].
  rewrite Hq, (getDocs_by_code_unique st i p Hi Huniq). cbn [step].
  destruct (scan_body_pending env uid (Pass.code p) i p st Hi Hused Hsc Hup)
    as (r & st' & -> & Hs & Hp).
  by exists r, st'.
Qed.

Lemma finish_consumed env uid i p st :
  query_fault env = None →
  Firestore.passes st !! i = Some p →
  codes_unique (Firestore.passes st) →
  Pass.consumed p = true →
  ∃ r st',
    finish env (AwaitingQuery uid (Pass.code p)) st = (Finished r, st')
    ∧ status r = already_used.
Proof.
  intros Hq Hi Huniq Hc. unfold finish. cbn [step].
  rewrite Hq, (getDocs_by_code_unique st i p Hi Huniq). cbn [step].
  destruct (scan_body_consumed env uid (Pass.code p) i p st Hc)
    as (r & st' & -> & Hs & _).
  by exists r, st'.
Qed.

(** One handler after the other, on a pending pass. *)
Lemma finish_twice env1 env2 uid1 uid2 i p st :
  query_fault env1 = None → update_fault env1 = None →
  query_fault env2 = None →
  Firestore.passes st !! i = Some p →
  codes_unique (Firestore.passes st) →
  Pass.used p ≠ Some true → Pass.scanned_at p = None →
  ∃ r1 r2 st1 st2,
    finish env1 (AwaitingQuery uid1 (Pass.code p)) st = (Finished r1, st1)
    ∧ finish env2 (AwaitingQuery uid2 (Pass.code p)) st1 = (Finished r2, st2)
    ∧ status r1 = valid ∧ status r2 = already_used.
Proof.
  intros Hq1 Hu1 Hq2 Hi Huniq Hused Hsc.
  destruct (finish_pending env1 uid1 i p st Hq1 Hu1 Hi Huniq Hused Hsc)
    as (r1 & st1 & Hf1 & Hs1 & Hp1).
  set (p' := Pass.mark_scanned (update_time env1) uid1 p) in *.
  assert (Firestore.passes st1 !! i = Some p') as Hi'
    by (rewrite Hp1; apply lookup_insert_eq).
  assert (codes_unique (Firestore.passes st1)) as Huniq'
    by (rewrite Hp1; by apply (codes_unique_update _ i p p')).
  destruct (finish_consumed env2 uid2 i p' st1 Hq2 Hi' Huniq' eq_refl)
    as (r2 & st2 & Hf2 & Hs2).
  by exists r1, r2, st1, st2.
Qed.

(** The race: with both queries answered before either device writes,
    both scans of a pending pass are granted. *)
Lemma overlapping_scans_of_pending_pass envA envB uidA uidB i p st :
  query_fault envA = None → query_fault envB = None →
  Firestore.passes st !! i = Some p →
  codes_unique (Firestore.passes st) →
  Pass.used p ≠ Some true → Pass.scanned_at p = None →
  let out := run envA envB [DeviceA; DeviceB; DeviceA; DeviceB]
               (AwaitingQuery uidA (Pass.code p))
               (AwaitingQuery uidB (Pass.code p)) st in
  classification out.1.1 = Some valid ∧ classification out.1.2 = Some valid.
Proof.
  intros HqA HqB Hi Huniq Hused Hsc out. subst out. cbn [run step].
  rewrite HqA, (getDocs_by_code_unique st i p Hi Huniq). cbn [run step].
  rewrite HqB, (getDocs_by_code_unique st i p Hi Huniq). cbn [run step].
  pose proof (scan_body_stale_snapshot envA uidA (Pass.code p) i p st
                Hused Hsc) as HA.
  destruct (scan_body envA uidA (Pass.code p) [(i, p)] st) as [rA st1].
  cbn [run step].
  pose proof (scan_body_stale_snapshot envB uidB (Pass.code p) i p st1
                Hused Hsc) as HB.
  destruct (scan_body envB uidB (Pass.code p) [(i, p)] st1) as [rB st2].
  simpl in HA, HB. split; simpl; by f_equal.
Qed.

End two_scans.

(** C4, refuted as stated: with the two queries answered before either
    device writes, both attempts on the pending pass are classified
    [valid]. *)
Lemma overlapping_scans_both_valid :
  let out := Scanner.run (healthy 500) (healthy 600) overlapping
               (Scanner.AwaitingQuery "op7" "EVTX-AB12#9")
               (Scanner.AwaitingQuery "op8" "EVTX-AB12#9") gate_store in
  Scanner.classification out.1.1 = Some valid
  ∧ Scanner.classification out.1.2 = Some valid
  ∧ ¬ one_valid_one_used (Scanner.classification out.1.1)
                         (Scanner.classification out.1.2).
Proof.
  vm_compute. split; [done|]. split; [done|].
  intros [[_ H]|[H _]]; discriminate.
Qed.

(** C4, as the handler has it: when the two scans of a pending pass's code
    do not overlap (one device's handler runs to its end before the other's
    starts) and the store answers the queries and the update, the first is
    classified [valid] and the second [already_used], in either order. *)
Theorem sequential_scans_one_valid envA envB uidA uidB i p st :
  Scanner.query_fault envA = None → Scanner.update_fault envA = None →
  Scanner.query_fault envB = None → Scanner.update_fault envB = None →
  Firestore.passes st !! i = Some p →
  codes_unique (Firestore.passes st) →
  Pass.used p ≠ Some true → Pass.scanned_at p = None →
  let tA := Scanner.AwaitingQuery uidA (Pass.code p) in
  let tB := Scanner.AwaitingQuery uidB (Pass.code p) in
  let A := Scanner.DeviceA in
  let B := Scanner.DeviceB in
  let ab := Scanner.run envA envB [A; A; B; B] tA tB st in
  let ba := Scanner.run envA envB [B; B; A; A] tA tB st in
  (Scanner.classification ab.1.1 = Some valid
   ∧ Scanner.classification ab.1.2 = Some already_used)
  ∧ (Scanner.classification ba.1.1 = Some already_used
     ∧ Scanner.classification ba.1.2 = Some valid).
Proof.
  intros HqA HuA HqB HuB Hi Huniq Hused Hsc tA tB A B ab ba.
  split.
  - destruct (finish_twice envA envB uidA uidB i p st
                HqA HuA HqB Hi Huniq Hused Hsc)
      as (rA & rB & st1 & st2 & HfA & HfB & HA & HB).
    subst ab tA tB A B. rewrite run_A_then_B, HfA, HfB. simpl.
    by rewrite HA, HB.
  - destruct (finish_twice envB envA uidB uidA i p st
                HqB HuB HqA Hi Huniq Hused Hsc)
      as (rB & rA & st1 & st2 & HfB & HfA & HB & HA).
    subst ba tA tB A B. rewrite run_B_then_A, HfB, HfA. simpl.
    by rewrite HA, HB.
Qed.

Lemma sequential_scans_one_valid_witness :
  let tA := Scanner.AwaitingQuery "op7" "EVTX-AB12#9" in
  let tB := Scanner.AwaitingQuery "op8" "EVTX-AB12#9" in
  let A := Scanner.DeviceA in
  let B := Scanner.DeviceB in
  let ab := Scanner.run (healthy 500) (healthy 600) [A; A; B; B] tA tB
              gate_store in
  let ba := Scanner.run (healthy 500) (healthy 600) [B; B; A; A] tA tB
              gate_store in
  (Scanner.classification ab.1.1 = Some valid
   ∧ Scanner.classification ab.1.2 = Some already_used)
  ∧ (Scanner.classification ba.1.1 = Some already_used
     ∧ Scanner.classification ba.1.2 = Some valid).
Proof.
  apply (sequential_scans_one_valid (healthy 500) (healthy 600) "op7" "op8"
           "p1" pending_pass gate_store);
    try reflexivity; try discriminate.
  apply gate_store_codes_unique.
Defined.

(** ** Strings *)

Section strings.
Implicit Types s t u : string.

Lemma str_app_cons c s t : String c s +:+ t = String c (s +:+ t).
Proof. reflexivity. Qed.

Lemma str_app_nil_l t : "" +:+ t = t.
Proof. reflexivity. Qed.

Lemma str_app_assoc s t u : (s +:+ t) +:+ u = s +:+ (t +:+ u).
Proof.
  induction s as [|c s IH]; [done|]. rewrite !str_app_cons. by f_equal.
Qed.

Lemma str_app_nil_r s : s +:+ "" = s.
Proof.
  induction s as [|c s IH]; [done|]. rewrite str_app_cons. by f_equal.
Qed.

Lemma str_length_app s t :
  String.length (s +:+ t) = String.length s + String.length t.
Proof.
  induction s as [|c s IH]; [done|]. rewrite str_app_cons. simpl. by f_equal.
Qed.

Lemma str_prefix_app s t : String.prefix s (s +:+ t) = true.
Proof.
  induction s as [|c s IH]; [by destruct t|].
  rewrite str_app_cons. simpl. by destruct (ascii_dec c c).
Qed.

Lemma str_drop_app s t : JsString.drop (String.length s) (s +:+ t) = t.
Proof. induction s as [|c s IH]; [by destruct t | done]. Qed.

End strings.

(** ** The code generator *)

Section generator.
Import QrGenerator.

Lemma random_index_range (r : Q) :
  (0 <= r)%Q → (r < 1)%Q → (0 ≤ random_index r < 42)%Z.
Proof.
  intros H0 H1. unfold random_index.
  change (Z.of_nat (String.length chars)) with 42%Z. split.
  - change 0%Z with (Qfloor (inject_Z 0)). apply Qfloor_resp_le.
    change (inject_Z 0) with (0 * inject_Z 42)%Q.
    by apply Qmult_le_compat_r.
  - rewrite Zlt_Qlt. eapply Qle_lt_trans; first apply Qfloor_le.
    change (inject_Z 42) with (1 * inject_Z 42)%Q at 2.
    by apply Qmult_lt_compat_r.
Qed.

Lemma charAt_chars (z : Z) :
  (0 ≤ z < 42)%Z →
  ∃ c, JsString.charAt chars z = String c "" ∧ in_class c = true.
Proof.
  intros [H0 H1]. unfold JsString.charAt.
  destruct (Z.ltb_spec z 0) as [?|_]; first lia.
  assert (Z.to_nat z < 42) as Hn by lia.
  destruct (Z.to_nat z) as [|n]; first by eexists.
  do 41 (destruct n as [|n]; first by eexists). lia.
Qed.

Lemma code_loop_spec (rnd : nat → Q) (n : nat) :
  (∀ j, (0 <= rnd j)%Q ∧ (rnd j < 1)%Q) →
  ∀ k acc, ∃ body,
    code_loop n rnd k acc = acc +:+ body
    ∧ String.length body = n
    ∧ Forall (λ c, in_class c = true) (String.list_ascii_of_string body).
Proof.
  intros Hrnd. induction n as [|n IH]; intros k acc.
  - exists "". by rewrite str_app_nil_r.
  - cbn [code_loop].
    destruct (Hrnd k) as [H0 H1].
    destruct (charAt_chars _ (random_index_range _ H0 H1)) as (c & -> & Hc).
    destruct (IH (S k) (acc +:+ String c "")) as (body & -> & Hlen & Hall).
    exists (String c body). rewrite str_app_assoc, str_app_cons.
    split; [done|]. split; [simpl; by rewrite Hlen | by constructor].
Qed.

End generator.

Lemma generated_code_format_aux (rnd : nat → Q) (k : nat) (prefix : string) :
  (∀ j, (0 <= rnd j)%Q ∧ (rnd j < 1)%Q) →
  (∃ body,
     QrGenerator.generateUniqueCode rnd k prefix = prefix +:+ "-" +:+ body
     ∧ String.length body = 6
     ∧ Forall (λ c, in_class c = true) (String.list_ascii_of_string body))
  ∧ matches_code_format prefix (QrGenerator.generateUniqueCode rnd k prefix)
    = true.
Proof.
  intros Hrnd. unfold QrGenerator.generateUniqueCode.
  destruct (code_loop_spec rnd 6 Hrnd k "") as (body & -> & Hlen & Hall).
  rewrite str_app_nil_l. split; [by exists body|].
  unfold matches_code_format.
  rewrite <- str_app_assoc, str_prefix_app, !str_length_app, Hlen.
  replace (String.length prefix + 1)
    with (String.length (prefix +:+ "-")) by (rewrite str_length_app; done).
  rewrite str_drop_app.
  replace (String.length prefix + String.length "-" + 6)
    with (String.length prefix + 7) by (simpl; lia).
  rewrite Nat.eqb_refl. simpl.
  apply forallb_forall. intros c Hc.
  rewrite Forall_forall in Hall. apply Hall. by apply list_elem_of_In.
Qed.

(** C5, refuted as stated: the alphabet the generator draws from has 42
    symbols, all different, not 43; and the character class of the format
    has 42 members as well. *)
Lemma alphabet_has_42_symbols :
  String.length QrGenerator.chars = 42
  ∧ NoDup (String.list_ascii_of_string QrGenerator.chars)
  ∧ length (filter (λ c, in_class c = true) all_chars) = 42
  ∧ String.length QrGenerator.chars ≠ 43.
Proof.
  split; [reflexivity|]. split; [|split; [by vm_compute | by vm_compute]].
  apply (bool_decide_unpack _). by vm_compute.
Qed.

(** C5, as the generator has it: for every prefix, with each draw of the
    random source in [0, 1), the generated code is the prefix, a hyphen and
    exactly 6 characters, each of the class A-Z, 0-9, @#$%&*; that is, it
    matches [^{PREFIX}-[A-Z0-9@#$%&*]{6}$]. The alphabet has 42 symbols. *)
Theorem generated_code_format (rnd : nat → Q) (k : nat) (prefix : string) :
  (∀ j, (0 <= rnd j)%Q ∧ (rnd j < 1)%Q) →
  (∃ body,
     QrGenerator.generateUniqueCode rnd k prefix = prefix +:+ "-" +:+ body
     ∧ String.length body = 6
     ∧ Forall (λ c, in_class c = true) (String.list_ascii_of_string body))
  ∧ matches_code_format prefix (QrGenerator.generateUniqueCode rnd k prefix)
    = true
  ∧ String.length QrGenerator.chars = 42.
Proof.
  intros Hrnd.
  destruct (generated_code_format_aux rnd k prefix Hrnd) as [Hbody Hmatch].
  by repeat split.
Qed.

Lemma generated_code_format_witness :
  (∃ body,
     QrGenerator.generateUniqueCode (λ _, 1 # 2) 0 "EVTX"
     = "EVTX" +:+ "-" +:+ body
     ∧ String.length body = 6
     ∧ Forall (λ c, in_class c = true) (String.list_ascii_of_string body))
  ∧ matches_code_format "EVTX"
      (QrGenerator.generateUniqueCode (λ _, 1 # 2) 0 "EVTX") = true
  ∧ String.length QrGenerator.chars = 42.
Proof.
  apply (generated_code_format (λ _, 1 # 2) 0 "EVTX").
  intros _. split; [discriminate | reflexivity].
Defined.

(** ** Event deletion *)

(** C8. Deleting an event touches the event collection only: a pass whose
    [event_id] references the deleted event stays in the store as it was,
    as does every other pass and every scan and email log entry; when the
    operator confirms and the store accepts, the event record is removed. *)
Theorem delete_event_keeps_passes confirmed fault eventId st i p :
  Firestore.passes st !! i = Some p →
  Pass.event_id p = eventId →
  let st' := Events.handleDeleteEvent confirmed fault eventId st in
  Firestore.passes st' !! i = Some p
  ∧ Firestore.passes st' = Firestore.passes st
  ∧ Firestore.scan_logs st' = Firestore.scan_logs st
  ∧ Firestore.email_logs st' = Firestore.email_logs st
  ∧ Firestore.events st'
    = (if confirmed
       then match fault with
            | None => delete eventId (Firestore.events st)
            | Some _ => Firestore.events st
            end
       else Firestore.events st).
Proof.
  intros Hi _ st'. subst st'. unfold Events.handleDeleteEvent.
  destruct confirmed; simpl; [|done].
  unfold Firestore.deleteDoc_event. by destruct fault.
Qed.

Lemma delete_event_keeps_passes_witness :
  let st' := Events.handleDeleteEvent true None "ev1" event_store in
  Firestore.passes st' !! "p1" = Some pending_pass
  ∧ Firestore.passes st' = Firestore.passes event_store
  ∧ Firestore.scan_logs st' = Firestore.scan_logs event_store
  ∧ Firestore.email_logs st' = Firestore.email_logs event_store
  ∧ Firestore.events st' = delete "ev1" (Firestore.events event_store).
Proof.
  apply (delete_event_keeps_passes true None "ev1" event_store "p1"
           pending_pass); reflexivity.
Defined.

(** ** The invitation dispatcher *)

Section dispatcher.
Import MailInvitations.




(** The [try] block of an iteration whose send attempt fails: nothing is
    written, and the failure is thrown. *)
Lemma try_send_fails ui ev env d w e :
  send_fails env e →
  ∃ calls,
    try_send ui ev env d w
    = (mkRun (store w) (attempts w ++ calls) (sent w) (failed w), Some e).
Proof.
  intros [Hqr|[[url Hqr] Hmail]]; unfold try_send; destruct d as [id pass];
    rewrite Hqr.
  - exists []. rewrite app_nil_r. by destruct w.
  - rewrite Hmail. by eexists [_].
Qed.

End dispatcher.


(** X2. The log write in the [catch] block is not guarded: when the store
    rejects it, the exception leaves the loop and the remaining passes are
    not visited. *)
Lemma rejected_failure_log_leaves_loop ui ev env i d rest w e e' :
  send_fails (env i) e →
  MailInvitations.failure_log_fault (env i) = Some e' →
  ∃ w',
    MailInvitations.send_from ui ev env i (d :: rest) w
    = MailInvitations.Aborted w' e'
    ∧ MailInvitations.store w' = MailInvitations.store w.
Proof.
  intros Hfail Hlog. cbn [MailInvitations.send_from].
  unfold MailInvitations.send_one.
  destruct (try_send_fails ui ev (env i) d w e Hfail) as [calls ->].
  rewrite Hlog. simpl. by eexists.
Qed.


(** Scenario B of the specification, run through the whole handler. *)
Example dispatch_with_bouncing_mail :
  let out := MailInvitations.handleSendEmails
               (MailInvitations.mkEnv true (λ _, bounce) None)
               mail_ui event_store in
  let st' := MailInvitations.store_after out.2 event_store in
  (EmailLog.status <$> Firestore.email_logs st') = [email_invalid]
  ∧ (Pass.sent_at <$> Firestore.passes st' !! "p1") = Some None
  ∧ MailInvitations.passes out.1 = [("p1", pending_pass)].
Proof. by vm_compute. Qed.

(** ** Which passes a run targets *)

Section targets.
Import MailInvitations.










End targets.




(** A list that was never fetched is put right by the refresh all the
    same: with the stamped pass [p2] on the list, the first run mails it
    again; the run after the refresh does not. *)
Example stale_list_refreshed_by_run :
  let ui := MailInvitations.set_passes
              [("p2", sent_pass); ("p3", other_pending_pass)] party_ui in
  let run1 := MailInvitations.sendButton first_bounces ui party_store in
  let st1 := MailInvitations.store_after run1.2 party_store in
  let run2 :=
    MailInvitations.sendButton all_delivered
      (MailInvitations.refreshed first_bounces run1) st1 in
  (MailInvitations.attempts_of run1.2).*1 = ["p2"; "p3"]
  ∧ (MailInvitations.attempts_of run2.2).*1 = ["p1"].
Proof. by vm_compute. Qed.

(** A partial run and its re-run after the refresh: the first run reaches
    the two pending passes and one of the sends bounces; the second run
    reaches the bounced pass only, and the pass sent before either run is
    never reached. *)
Example partial_run_then_rerun :
  let run1 := MailInvitations.sendButton first_bounces party_ui party_store in
  let st1 := MailInvitations.store_after run1.2 party_store in
  let run2 :=
    MailInvitations.sendButton all_delivered
      (MailInvitations.refreshed first_bounces run1) st1 in
  (MailInvitations.attempts_of run1.2).*1 = ["p3"; "p1"]
  ∧ (MailInvitations.attempts_of run2.2).*1 = ["p3"]
  ∧ (EmailLog.status
       <$> Firestore.email_logs (MailInvitations.store_after run2.2 st1))
    = [email_invalid; email_sent; email_sent].
Proof. by vm_compute. Qed.

(** When the store rejects the query of the refresh, the list stays as it
    was for good, and the next run mails the two passes again. *)
Example rejected_refresh_then_rerun :
  let env1 :=
    MailInvitations.mkEnv true
      (λ i, match i with 0 => bounce | _ => delivered end)
      (Some (JsError.mk (Some "unavailable"))) in
  let run1 := MailInvitations.sendButton env1 party_ui party_store in
  let st1 := MailInvitations.store_after run1.2 party_store in
  let run2 :=
    MailInvitations.sendButton all_delivered
      (MailInvitations.refreshed env1 run1) st1 in
  (MailInvitations.attempts_of run2.2).*1 = ["p3"; "p1"]
  ∧ (EmailLog.status
       <$> Firestore.email_logs (MailInvitations.store_after run2.2 st1))
    = [email_invalid; email_sent; email_sent; email_sent].
Proof. by vm_compute. Qed.

(** ** The placeholder *)

Section replace.
Implicit Types s t pat pre post : string.

Lemma str_prefix_true pat s :
  String.prefix pat s = true →
  s = pat +:+ JsString.drop (String.length pat) s.
Proof.
  revert s. induction pat as [|c pat IH]; intros [|d s]; simpl; try done.
  destruct (ascii_dec c d) as [->|]; [|done].
  intros H. rewrite str_app_cons. f_equal. by apply IH.
Qed.

Lemma split_first_eq pat s :
  JsString.split_first pat s
  = if String.prefix pat s
    then Some ("", JsString.drop (String.length pat) s)
    else match s with
         | String c s' =>
             match JsString.split_first pat s' with
             | Some (pre, post) => Some (String c pre, post)
             | None => None
             end
         | "" => None
         end.
Proof. by destruct s. Qed.

Lemma split_first_Some pat s pre post :
  JsString.split_first pat s = Some (pre, post) →
  first_occurrence pat pre post s.
Proof.
  revert pre post. induction s as [|c s IH]; intros pre post;
    rewrite split_first_eq.
  - destruct (String.prefix pat "") eqn:Hp; [|done].
    intros [= <- <-]. split; [by apply str_prefix_true | simpl; lia].
  - destruct (String.prefix pat (String c s)) eqn:Hp.
    + intros [= <- <-]. split; [by apply str_prefix_true | simpl; lia].
    + destruct (JsString.split_first pat s) as [[pre1 post1]|]; [|done].
      intros [= <- <-]. destruct (IH pre1 post1 eq_refl) as [Heq H2].
      split; [by rewrite str_app_cons, <- Heq|].
      intros [|k] Hk; [done|]. simpl in Hk. apply H2. lia.
Qed.

Lemma first_occurrence_split pat pre post s :
  first_occurrence pat pre post s →
  JsString.split_first pat s = Some (pre, post).
Proof.
  revert s. induction pre as [|c pre IH]; intros s [-> Hfirst];
    rewrite split_first_eq.
  - rewrite str_app_nil_l, str_prefix_app. by rewrite str_drop_app.
  - rewrite str_app_cons. rewrite str_app_cons in Hfirst.
    pose proof (Hfirst 0 ltac:(simpl; lia)) as H0.
    cbn [JsString.drop] in H0. rewrite H0.
    rewrite (IH (pre +:+ pat +:+ post)); [done|].
    split; [done|]. intros k Hk. apply (Hfirst (S k)). simpl. lia.
Qed.

(** [replace] rewrites the first occurrence of the pattern and nothing
    else. *)
Lemma replace_first_occurrence pat pre post s repl :
  first_occurrence pat pre post s →
  JsString.replace s pat repl
  = pre +:+ JsString.getSubstitution pat pre post repl +:+ post.
Proof.
  intros H. unfold JsString.replace. by rewrite (first_occurrence_split _ _ _ _ H).
Qed.

Lemma getSubstitution_dollar_free matched pre post repl :
  dollar_free repl →
  JsString.getSubstitution matched pre post repl = repl.
Proof.
  unfold dollar_free. induction repl as [|c repl IH]; [done|].
  simpl. intros [Hc Hrest]%Forall_cons. specialize (IH Hrest).
  destruct c as [[] [] [] [] [] [] [] []]; try (by rewrite IH); done.
Qed.

End replace.

(** ** The rendered invitation *)

Section invitation.
Import GoogleApi.

Lemma trimEnd_app s t :
  JsString.trimEnd t ≠ "" →
  JsString.trimEnd (s +:+ t) = s +:+ JsString.trimEnd t.
Proof.
  intros Ht. induction s as [|c s IH]; [done|].
  rewrite !str_app_cons. cbn [JsString.trimEnd]. rewrite IH.
  destruct (s +:+ JsString.trimEnd t) eqn:Heq; [|done].
  destruct s; [by rewrite str_app_nil_l in Heq | by rewrite str_app_cons in Heq].
Qed.

Lemma str_app_nonempty s t : t ≠ "" → s +:+ t ≠ "".
Proof. destruct s; [done | by rewrite str_app_cons]. Qed.

Lemma html_head_shape ps :
  ∃ h, html_head ps = String (ascii_of_nat 10) (String "<" h).
Proof.
  unfold html_head.
  assert (∃ t0, tpl0 = String (ascii_of_nat 10) (String "<" t0)) as [t0 ->]
    by (eexists; vm_compute; reflexivity).
  rewrite !str_app_cons. by eexists.
Qed.

Lemma trimStart_head ps z :
  JsString.trimStart (html_head ps +:+ z)
  = JsString.trimStart (html_head ps) +:+ z.
Proof. destruct (html_head_shape ps) as [h ->]. reflexivity. Qed.

Lemma trimEnd_tail_nonempty ps : JsString.trimEnd (html_tail ps) ≠ "".
Proof.
  unfold html_tail. rewrite <- str_app_assoc, trimEnd_app by by vm_compute.
  apply str_app_nonempty. by vm_compute.
Qed.

(** The rendered HTML is the template around the message, and the
    message in it is [message.replace('{NAME}', guestName)]. *)
Lemma invitation_html_shape ps :
  generateInvitationHTML ps
  = JsString.trimStart (html_head ps)
    +:+ JsString.replace (message ps) "{NAME}" (guestName ps)
    +:+ JsString.trimEnd (html_tail ps).
Proof.
  unfold generateInvitationHTML, JsString.trim.
  rewrite trimStart_head, <- str_app_assoc.
  rewrite trimEnd_app by apply trimEnd_tail_nonempty.
  by rewrite str_app_assoc.
Qed.

End invitation.

(** What one iteration passes to [sendGmail] for a message whose first
    placeholder comes after [pre]: in the plain-text body and in the HTML
    alike, that placeholder alone is rewritten, and the rest of the
    message, with every later placeholder in it, is there as written. The
    text put in its place is the guest's name when the name has no dollar
    sign. *)
Lemma placeholder_rewritten_once ui ev env id pass w url pre post :
  MailInvitations.qr env = Ok url →
  first_occurrence "{NAME}" pre post (MailInvitations.message ui) →
  ∃ call r h1 h2,
    MailInvitations.attempts (MailInvitations.try_send ui ev env (id, pass) w).1
    = MailInvitations.attempts w ++ [(id, call)]
    ∧ GoogleApi.body call = pre +:+ r +:+ post
    ∧ GoogleApi.html call = h1 +:+ (pre +:+ r +:+ post) +:+ h2
    ∧ (dollar_free (Pass.guest_name pass) → r = Pass.guest_name pass).
Proof.
  intros Hqr Hfirst. unfold MailInvitations.try_send. rewrite Hqr.
  eexists _, (JsString.getSubstitution "{NAME}" pre post (Pass.guest_name pass)),
    _, _.
  split.
  - destruct (MailInvitations.mail env); [reflexivity|].
    destruct (Firestore.updateDoc_pass _ _ _ _); [|reflexivity].
    by destruct (Firestore.addDoc_email_log _ _ _).
  - cbn [GoogleApi.body GoogleApi.html]. rewrite invitation_html_shape.
    cbn [GoogleApi.message GoogleApi.guestName].
    rewrite !(replace_first_occurrence _ _ _ _ _ Hfirst).
    split; [done|]. split; [done|]. apply getSubstitution_dollar_free.
Qed.

(** C10, at a guest name with a dollar sign. For the guest named
    [Ca$$h] the dispatcher does rewrite the first placeholder only, but
    what it puts there is [Ca$h], not the guest's display name: the name
    is read as a replacement pattern. The same text goes into the HTML. *)
Theorem dollar_name_not_substituted_verbatim :
  let out := MailInvitations.handleSendEmails all_delivered cash_ui
               cash_store in
  (GoogleApi.body <$> (MailInvitations.attempts_of out.2).*2)
  = ["Dear Ca$h, your pass is attached. See you there, {NAME}!"]
  ∧ Forall (λ call,
      GoogleApi.body call
      ≠ "Dear Ca$$h, your pass is attached. See you there, {NAME}!"
      ∧ JsString.includes (GoogleApi.html call)
          "Dear Ca$h, your pass is attached. See you there, {NAME}!" = true
      ∧ JsString.includes (GoogleApi.html call) "Ca$$h" = false)
      (MailInvitations.attempts_of out.2).*2.
Proof.
  vm_compute. split; [reflexivity|].
  constructor; [|constructor]. split; [discriminate|]. by split.
Qed.

(** ** Manual bulk import *)

Section bulk_import.
Import Guests.

Lemma truthy_iff s : JsString.truthy s = true ↔ s ≠ "".
Proof. by destruct s. Qed.

Lemma fields_lookup n line :
  (JsString.trim <$> JsString.split "," line) !! n
  = JsString.trim <$> JsString.split "," line !! n.
Proof. apply list_lookup_fmap. Qed.

Lemma truthy_field n line :
  truthy_opt ((JsString.trim <$> JsString.split "," line) !! n)
  = JsString.truthy (field n line).
Proof.
  unfold field. rewrite fields_lookup, (nth_lookup _ n "").
  by destruct (JsString.split "," line !! n).
Qed.

Lemma default_field n line :
  JsString.truthy (field n line) = true →
  default "" ((JsString.trim <$> JsString.split "," line) !! n)
  = field n line.
Proof.
  unfold field. rewrite fields_lookup, (nth_lookup _ n "").
  by destruct (JsString.split "," line !! n).
Qed.

(** What the callback makes of a line. *)
Lemma parse_line_complete eid prefix env k line :
  complete_line line →
  parse_line eid prefix env k line
  = (Some (Pass.mk eid (QrGenerator.generateUniqueCode (rnd env) k prefix)
             (field 0 line) (field 1 line) None None (Some false) None None
             (Some (now env))),
     k + 6).
Proof.
  intros [H0%truthy_iff H1%truthy_iff]. unfold parse_line.
  rewrite !truthy_field, H0, H1. simpl.
  by rewrite (default_field 0), (default_field 1).
Qed.

Lemma parse_line_incomplete eid prefix env k line :
  ¬ complete_line line → parse_line eid prefix env k line = (None, k).
Proof.
  intros Hn. unfold parse_line. rewrite !truthy_field.
  destruct (JsString.truthy (field 0 line)) eqn:H0; [|done].
  destruct (JsString.truthy (field 1 line)) eqn:H1; [|done].
  destruct Hn. by split; apply truthy_iff.
Qed.

(** The guest records: one per complete line, in order. *)
Lemma guests_per_complete_line eid prefix env lines :
  (∀ j, (0 <= rnd env j)%Q ∧ (rnd env j < 1)%Q) →
  ∀ k,
    Forall2 (λ line g,
        Pass.guest_name g = field 0 line
        ∧ Pass.guest_email g = field 1 line
        ∧ Pass.event_id g = eid
        ∧ matches_code_format prefix (Pass.code g) = true
        ∧ pending g)
      (filter complete_line lines)
      (omap id (parse_lines eid prefix env k lines)).
Proof.
  intros Hrnd. induction lines as [|line lines IH]; intros k; [constructor|].
  cbn [parse_lines]. destruct (decide (complete_line line)) as [Hc|Hc].
  - rewrite (parse_line_complete _ _ _ _ _ Hc), filter_cons_True by done.
    cbn [omap list_omap id]. constructor; [|apply IH]. simpl.
    repeat split; try done.
    by destruct (generated_code_format_aux (rnd env) k prefix Hrnd).
  - rewrite (parse_line_incomplete _ _ _ _ _ Hc), filter_cons_False by done.
    apply IH.
Qed.

(** The writes, when the store accepts each of them under a new id. *)
Lemma add_all_fresh env guests :
  ∀ j ids st,
    length ids = length guests →
    NoDup ids →
    (∀ id, id ∈ ids → Firestore.passes st !! id = None) →
    (∀ n id, ids !! n = Some id → add_outcome env (j + n) = Ok id) →
    ∃ st',
      add_all env j guests st = (st', false)
      ∧ Firestore.events st' = Firestore.events st
      ∧ Firestore.scan_logs st' = Firestore.scan_logs st
      ∧ Firestore.email_logs st' = Firestore.email_logs st
      ∧ Forall2 (λ id g, Firestore.passes st' !! id = Some g) ids guests
      ∧ (∀ id, id ∉ ids →
               Firestore.passes st' !! id = Firestore.passes st !! id)
      ∧ size (Firestore.passes st')
        = size (Firestore.passes st) + length guests.
Proof.
  induction guests as [|g guests IH]; intros j [|id ids] st Hlen Hnd Hfresh Hok;
    try done.
  - exists st. repeat split; try done; simpl; lia.
  - cbn [add_all]. pose proof (Hok 0 id eq_refl) as H0.
    rewrite Nat.add_0_r in H0. rewrite H0. cbn [Firestore.addDoc_pass].
    apply NoDup_cons in Hnd as [Hid Hnd].
    set (st1 := Firestore.with_passes (<[id:=g]> (Firestore.passes st)) st).
    destruct (IH (S j) ids st1) as (st' & -> & He & Hs & Hm & Hall & Hrest & Hsize).
    + simpl in Hlen. lia.
    + done.
    + intros id' Hin. simpl. rewrite lookup_insert_ne by (by intros ->).
      apply Hfresh. by right.
    + intros n id' Hn. rewrite <- (Hok (S n) id' Hn). f_equal. lia.
    + exists st'. repeat split; try done.
      * constructor; [|done]. rewrite (Hrest id Hid). simpl.
        apply lookup_insert_eq.
      * intros id' Hnot. rewrite Hrest by (intros ?; apply Hnot; by right).
        simpl. apply lookup_insert_ne. intros ->. apply Hnot. by left.
      * rewrite Hsize. simpl.
        rewrite map_size_insert_None by (apply Hfresh; by left). lia.
Qed.

End bulk_import.

(** C9, as the handler has it. With an event selected and the store
    accepting every write under a new id: the lines of the trimmed text
    that lack a name or an email (an empty first or second comma-separated
    field) are skipped, and they alone; every other line produces one new
    pass for the selected event, with the line's name and email, a freshly
    generated code of the event's prefix, [sent_at] unset, [used] false and
    no scan recorded. The passes already stored are untouched. *)
Theorem bulk_import_one_pass_per_complete_line env ui st eid ev ids :
  Guests.selectedEventId ui ≠ "" →
  JsString.trim (Guests.bulkText ui) ≠ "" →
  find (λ e, String.eqb e.1 (Guests.selectedEventId ui)) (Guests.events ui)
  = Some (eid, ev) →
  (∀ j, (0 <= Guests.rnd env j)%Q ∧ (Guests.rnd env j < 1)%Q) →
  let kept := filter complete_line (lines_of (Guests.bulkText ui)) in
  length ids = length kept →
  NoDup ids →
  (∀ id, id ∈ ids → Firestore.passes st !! id = None) →
  (∀ n id, ids !! n = Some id → Guests.add_outcome env n = Ok id) →
  let st' := (Guests.handleBulkImport env ui st).1.2 in
  Forall2 (λ line id,
      ∃ p, Firestore.passes st' !! id = Some p
           ∧ Pass.guest_name p = field 0 line
           ∧ Pass.guest_email p = field 1 line
           ∧ Pass.event_id p = Guests.selectedEventId ui
           ∧ matches_code_format (or_default (Event.qr_prefix ev) "QRP")
               (Pass.code p) = true
           ∧ pending p)
    kept ids
  ∧ (∀ id, id ∉ ids → Firestore.passes st' !! id = Firestore.passes st !! id)
  ∧ size (Firestore.passes st') = size (Firestore.passes st) + length kept
  ∧ (∀ line, line ∈ lines_of (Guests.bulkText ui) →
             line ∉ kept ↔ field 0 line = "" ∨ field 1 line = "").
Proof.
  intros Hsel Htext Hfind Hrnd kept Hlen Hnd Hfresh Hok st'.
  assert (∀ line, line ∈ lines_of (Guests.bulkText ui) →
            line ∉ kept ↔ field 0 line = "" ∨ field 1 line = "") as Hskip.
  { intros line Hin. subst kept. rewrite list_elem_of_filter.
    unfold complete_line. split.
    - intros Hn. destruct (decide (field 0 line = "")); [by left|].
      destruct (decide (field 1 line = "")); [by right|]. by destruct Hn.
    - by intros [?|?] [[? ?] _]. }
  cut (Forall2 (λ line id,
      ∃ p, Firestore.passes st' !! id = Some p
           ∧ Pass.guest_name p = field 0 line
           ∧ Pass.guest_email p = field 1 line
           ∧ Pass.event_id p = Guests.selectedEventId ui
           ∧ matches_code_format (or_default (Event.qr_prefix ev) "QRP")
               (Pass.code p) = true
           ∧ pending p)
    kept ids
  ∧ (∀ id, id ∉ ids → Firestore.passes st' !! id = Firestore.passes st !! id)
  ∧ size (Firestore.passes st') = size (Firestore.passes st) + length kept);
    [intros (? & ? & ?); repeat split; assumption || by apply Hskip|].
  subst st'. unfold Guests.handleBulkImport.
  apply truthy_iff in Hsel, Htext. rewrite Hsel, Htext, Hfind. simpl.
  pose proof (guests_per_complete_line (Guests.selectedEventId ui)
                (or_default (Event.qr_prefix ev) "QRP") env
                (lines_of (Guests.bulkText ui)) Hrnd 0) as Hguests.
  fold kept in Hguests. unfold Guests.guests_of. fold (lines_of (Guests.bulkText ui)).
  set (guests := omap id _) in *.
  pose proof (Forall2_length _ _ _ Hguests) as Hlen'.
  destruct (Nat.eqb_spec (length guests) 0) as [Hz|Hnz]; simpl.
  - rewrite Hz in Hlen'. rewrite Hlen' in Hlen.
    apply nil_length_inv in Hlen as ->. apply nil_length_inv in Hlen' as Hk.
    rewrite Hk. split; [apply Forall2_nil; done|]. split; [done | simpl; lia].
  - destruct (add_all_fresh env guests 0 ids st) as
      (st1 & -> & _ & _ & _ & Hall & Hrest & Hsize); try done; [lia|].
    simpl. split; [|split; [done | lia]].
    apply Forall2_same_length_lookup. split; [done|].
    intros n line id Hline Hid.
    destruct (lookup_lt_is_Some_2 guests n) as [g Hg].
    { rewrite <- Hlen'. by eapply lookup_lt_Some. }
    exists g.
    rewrite Forall2_same_length_lookup in Hall. destruct Hall as [_ Hall].
    rewrite Forall2_same_length_lookup in Hguests.
    destruct Hguests as [_ Hguests].
    split; [by apply (Hall n)|]. by apply (Hguests n).
Qed.

(** C9, refuted as stated: in a text of two lines, each with an email,
    the line that has an email but no name is skipped all the same, and
    only one pass is created. *)
Lemma line_with_email_but_no_name_skipped :
  let st' := (Guests.handleBulkImport import_env (import_ui two_lines)
                import_store).1.2 in
  lines_of two_lines = ["Ana, ana@x.com"; ", bob@x.com"]
  ∧ field 1 ", bob@x.com" = "bob@x.com"
  ∧ Forall (λ line, field 1 line ≠ "") (lines_of two_lines)
  ∧ size (Firestore.passes st') = 1
  ∧ (Pass.guest_email <$> (map_to_list (Firestore.passes st')).*2)
    = ["ana@x.com"].
Proof.
  vm_compute. split; [reflexivity|]. split; [reflexivity|].
  split; [|by split]. repeat constructor; discriminate.
Qed.

Lemma bulk_import_one_pass_per_complete_line_witness :
  let ui := import_ui two_lines in
  let kept := filter complete_line (lines_of (Guests.bulkText ui)) in
  let st' := (Guests.handleBulkImport import_env ui import_store).1.2 in
  Forall2 (λ line id,
      ∃ p, Firestore.passes st' !! id = Some p
           ∧ Pass.guest_name p = field 0 line
           ∧ Pass.guest_email p = field 1 line
           ∧ Pass.event_id p = Guests.selectedEventId ui
           ∧ matches_code_format (or_default (Event.qr_prefix sample_event)
                                    "QRP") (Pass.code p) = true
           ∧ pending p)
    kept ["new0"]
  ∧ (∀ id, id ∉ ["new0"] →
           Firestore.passes st' !! id = Firestore.passes import_store !! id)
  ∧ size (Firestore.passes st')
    = size (Firestore.passes import_store) + length kept
  ∧ (∀ line, line ∈ lines_of (Guests.bulkText ui) →
             line ∉ kept ↔ field 0 line = "" ∨ field 1 line = "").
Proof.
  apply (bulk_import_one_pass_per_complete_line import_env
           (import_ui two_lines) import_store "ev1" sample_event ["new0"]).
  - discriminate.
  - discriminate.
  - reflexivity.
  - intros j. split; [discriminate | reflexivity].
  - reflexivity.
  - apply (bool_decide_unpack _). by vm_compute.
  - intros id ->%list_elem_of_singleton. reflexivity.
  - intros [|n] id H; [by inversion H | by destruct n].
Defined.

(** * Further properties of the pages *)

(** ** The scan handler: what it keeps *)

Lemma handleScan_guarded env c ui st :
  Scanner.user ui = None ∨ Scanner.isProcessing ui = true
  ∨ Scanner.lastScannedCode ui = c →
  Scanner.handleScan env c ui st = (ui, st).
Proof.
  unfold Scanner.handleScan. intros [Hu|[Hp|Hl]].
  - by rewrite Hu.
  - rewrite Hp. by destruct (Scanner.user ui).
  - rewrite Hl, String.eqb_refl, orb_true_r. by destruct (Scanner.user ui).
Qed.

Lemma handleScan_remembers_code env c ui st uid :
  Scanner.user ui = Some uid → Scanner.isProcessing ui = false →
  Scanner.lastScannedCode ui ≠ c →
  Scanner.lastScannedCode (Scanner.handleScan env c ui st).1 = c.
Proof.
  intros Hu Hp Hl. rewrite (guards_pass _ _ _ Hu Hp Hl).
  destruct (Firestore.getDocs_by_code _ _ _) as [snapshot|e]; [|done].
  by destruct (Scanner.scan_body env uid c snapshot st).
Qed.

(** X3. A code scanned again while its result is still on screen is dropped:
    whatever the state of the page and the store, and whatever the outside
    world would answer the second time, the second call changes neither
    the page nor the store. *)
Theorem repeated_scan_dropped env1 env2 c ui st :
  let first := Scanner.handleScan env1 c ui st in
  Scanner.handleScan env2 c first.1 first.2 = first.
Proof.
  intros first. subst first.
  destruct (Scanner.user ui) as [uid|] eqn:Hu;
    [|by rewrite !(handleScan_guarded _ c ui st) by auto].
  destruct (Scanner.isProcessing ui) eqn:Hp;
    [by rewrite !(handleScan_guarded _ c ui st) by auto|].
  destruct (decide (Scanner.lastScannedCode ui = c)) as [Hl|Hl];
    [by rewrite !(handleScan_guarded _ c ui st) by auto|].
  rewrite (handleScan_guarded env2); [by destruct (Scanner.handleScan _ _ _ _)|].
  right. right. by eapply handleScan_remembers_code.
Qed.

Section scan_frame.
Import Scanner.

Lemma getDocs_by_code_snapshot fault c st snapshot :
  Firestore.getDocs_by_code fault c st = Ok snapshot →
  ∀ d, d ∈ snapshot →
       Firestore.passes st !! d.1 = Some d.2 ∧ Pass.code d.2 = c.
Proof.
  unfold Firestore.getDocs_by_code. destruct fault; [done|].
  intros [= <-] d Hd%elem_of_take. destruct Hd as [k [Hd _]].
  apply list_elem_of_lookup_2 in Hd.
  apply list_elem_of_filter in Hd as [Hc Hd].
  destruct d. split; [by apply elem_of_map_to_list | done].
Qed.

(** The store after the body of the handler: the log grows by at most the
    entry of this scan, and at most the document the snapshot names is
    rewritten, and only when the snapshot shows it as not consumed. *)
Lemma scan_body_store env uid c snapshot st :
  ∃ ps logs,
    (scan_body env uid c snapshot st).2
    = Firestore.mkStore (Firestore.events st) ps logs
        (Firestore.email_logs st)
    ∧ (logs = Firestore.scan_logs st
       ∨ ∃ entry, logs = Firestore.scan_logs st ++ [entry]
                  ∧ ScanLog.scanned_code entry = c
                  ∧ ScanLog.scanner_id entry = uid
                  ∧ ScanLog.status entry
                    = status (scan_body env uid c snapshot st).1)
    ∧ (ps = Firestore.passes st
       ∨ ∃ id p p0, head snapshot = Some (id, p)
                    ∧ Pass.consumed p = false
                    ∧ Firestore.passes st !! id = Some p0
                    ∧ ps = <[id := Pass.mark_scanned (update_time env) uid p0]>
                             (Firestore.passes st)).
Proof.
  unfold scan_body. destruct st as [es ps0 sl el].
  destruct snapshot as [|[id p] rest]; simpl.
  - destruct (log_fault env); simpl; eexists _, _;
      (split; [reflexivity|]); split; eauto 10.
  - destruct (Pass.consumed p) eqn:Hc; simpl.
    + destruct (log_fault env); simpl; eexists _, _;
        (split; [reflexivity|]); split; eauto 10.
    + unfold Firestore.updateDoc_pass.
      destruct (update_fault env); simpl.
      * destruct (log_fault env); simpl; eexists _, _;
          (split; [reflexivity|]); split; eauto 10.
      * destruct (ps0 !! id) as [p0|] eqn:Hid; simpl.
        -- destruct (log_fault env); simpl; eexists _, _;
             (split; [reflexivity|]); split; eauto 12.
        -- destruct (log_fault env); simpl; eexists _, _;
             (split; [reflexivity|]); split; eauto 10.
Qed.

(** One call of the handler, seen from the store: the scan log as
    before or longer by the entry of the result shown, the pass collection
    as before or with one pass of the scanned code, read as not consumed,
    marked. *)
Lemma handleScan_effect env c ui st :
  ∃ ps logs,
    (handleScan env c ui st).2
    = Firestore.mkStore (Firestore.events st) ps logs
        (Firestore.email_logs st)
    ∧ (logs = Firestore.scan_logs st
       ∨ ∃ r entry, result (handleScan env c ui st).1 = Some r
                    ∧ ScanLog.status entry = status r
                    ∧ ScanLog.scanned_code entry = c
                    ∧ logs = Firestore.scan_logs st ++ [entry])
    ∧ (ps = Firestore.passes st
       ∨ ∃ id p now uid,
           Firestore.passes st !! id = Some p
           ∧ Pass.code p = c
           ∧ Pass.consumed p = false
           ∧ ps = <[id := Pass.mark_scanned now uid p]> (Firestore.passes st)).
Proof.
  assert (∃ ps logs,
            st = Firestore.mkStore (Firestore.events st) ps logs
                   (Firestore.email_logs st)
            ∧ logs = Firestore.scan_logs st ∧ ps = Firestore.passes st)
    as (ps0 & logs0 & Hst0 & -> & ->) by (destruct st; by eexists _, _).
  unfold handleScan.
  destruct (user ui) as [uid|]; [|simpl; eauto 10].
  destruct (isProcessing ui || String.eqb (lastScannedCode ui) c);
    [simpl; eauto 10|].
  destruct (Firestore.getDocs_by_code _ _ _) as [snapshot|e] eqn:Hq;
    [|simpl; eauto 10].
  pose proof (getDocs_by_code_snapshot _ _ _ _ Hq) as Hsnap.
  destruct (scan_body_store env uid c snapshot st)
    as (ps & logs & Hst & Hlogs & Hps).
  destruct (scan_body env uid c snapshot st) as [r st2]. simpl in *.
  subst st2. exists ps, logs. split; [done|]. split.
  - destruct Hlogs as [->|(entry & -> & Hc & _ & Hs)]; [by left|].
    right. by exists r, entry.
  - destruct Hps as [->|(id & p & p0 & Hhd & Hcons & Hid & ->)]; [by left|].
    destruct snapshot as [|d rest]; [done|]. injection Hhd as ->.
    destruct (Hsnap (id, p) ltac:(by left)) as [Hid' Hcode]. simpl in *.
    assert (p0 = p) as -> by congruence.
    right. by eexists _, _, _, _.
Qed.

End scan_frame.

(** X4. A scan leaves events and mail logs alone, adds at most one entry, for
    the scanned code, at the end of the scan log, and neither creates nor
    deletes a pass; the only document it may rewrite is a pass of the
    scanned code that was not yet consumed, and then only its [used],
    [scanned_at] and [scanned_by] fields. *)
Theorem scan_touches_only_its_pass env c ui st :
  let st' := (Scanner.handleScan env c ui st).2 in
  Firestore.events st' = Firestore.events st
  ∧ Firestore.email_logs st' = Firestore.email_logs st
  ∧ (Firestore.scan_logs st' = Firestore.scan_logs st
     ∨ ∃ entry, Firestore.scan_logs st' = Firestore.scan_logs st ++ [entry]
                ∧ ScanLog.scanned_code entry = c)
  ∧ ∀ i, match Firestore.passes st !! i with
         | Some p => ∃ p', Firestore.passes st' !! i = Some p'
                           ∧ scan_step_of c p p'
         | None => Firestore.passes st' !! i = None
         end.
Proof.
  intros st'. subst st'.
  destruct (handleScan_effect env c ui st)
    as (ps & logs & -> & Hlogs & Hps).
  simpl. split; [done|]. split; [done|]. split.
  - destruct Hlogs as [->|(r & entry & _ & _ & Hc & ->)]; [by left|].
    right. by exists entry.
  - intros i.
    destruct Hps as [->|(id & p & now & uid & Hid & Hcode & Hcons & ->)].
    + destruct (Firestore.passes st !! i) as [p|] eqn:Hi; [|done].
      exists p. split; [done | by left].
    + destruct (decide (i = id)) as [->|Hne].
      * rewrite Hid, lookup_insert_eq. eexists. split; [done|].
        right. eauto.
      * rewrite lookup_insert_ne by done.
        destruct (Firestore.passes st !! i) as [q|] eqn:Hi; [|done].
        exists q. split; [done | by left].
Qed.

Lemma handleScan_keeps_consumed env c ui st i p :
  Firestore.passes st !! i = Some p → Pass.consumed p = true →
  Firestore.passes (Scanner.handleScan env c ui st).2 !! i = Some p.
Proof.
  intros Hi Hc.
  destruct (handleScan_effect env c ui st) as (ps & logs & -> & _ & Hps).
  simpl.
  destruct Hps as [->|(id & q & now & uid & Hid & _ & Hcons & ->)]; [done|].
  rewrite lookup_insert_ne; [done|]. intros ->. congruence.
Qed.

(** X5. Once a pass is consumed, no later scan on the device changes its
    document, whatever codes are scanned and whatever the store answers:
    the time and the operator of the admission are never overwritten. *)
Theorem consumed_pass_never_rewritten scans ui st i p :
  Firestore.passes st !! i = Some p →
  Pass.consumed p = true →
  Firestore.passes (scan_all scans ui st).2 !! i = Some p.
Proof.
  revert ui st. induction scans as [|[env c] rest IH]; intros ui st Hi Hc.
  - done.
  - cbn [scan_all].
    pose proof (handleScan_keeps_consumed env c ui st i p Hi Hc) as Hk.
    destruct (Scanner.handleScan env c ui st) as [ui' st'].
    by apply IH.
Qed.

Lemma consumed_pass_never_rewritten_witness :
  Firestore.passes
    (scan_all [(healthy 900, "EVTX-AB12#9"); (healthy 950, "NOPE")]
       operator_ui gate_store_after).2 !! "p1" = Some used_pass.
Proof. by apply (consumed_pass_never_rewritten _ _ _ "p1" used_pass). Defined.

(** X6. When the query for the code is rejected, the operator sees an
    [invalid] result that carries the error's message, and nothing is
    written: the pass collection and the scan log are as before, so the
    attempt leaves no trace. *)
Theorem scan_query_rejected_leaves_no_trace env ui st uid c e m :
  Scanner.user ui = Some uid →
  Scanner.isProcessing ui = false →
  Scanner.lastScannedCode ui ≠ c →
  Scanner.query_fault env = Some e →
  JsError.message e = Some m →
  let out := Scanner.handleScan env c ui st in
  out.2 = st
  ∧ Scanner.status <$> Scanner.result out.1 = Some invalid
  ∧ Scanner.message <$> Scanner.result out.1
    = Some ("Error processing scan: " +:+ m)
  ∧ Scanner.isProcessing out.1 = false.
Proof.
  intros Hu Hp Hl Hq Hm out. subst out.
  rewrite (guards_pass _ _ _ Hu Hp Hl).
  unfold Firestore.getDocs_by_code. rewrite Hq. simpl.
  unfold Scanner.error_result. by rewrite Hm.
Qed.

Lemma scan_query_rejected_leaves_no_trace_witness :
  let out :=
    Scanner.handleScan
      (Scanner.mkEnv (Some (JsError.mk (Some "offline"))) None 500 None 501)
      "EVTX-AB12#9" operator_ui gate_store in
  out.2 = gate_store
  ∧ Scanner.status <$> Scanner.result out.1 = Some invalid
  ∧ Scanner.message <$> Scanner.result out.1
    = Some "Error processing scan: offline"
  ∧ Scanner.isProcessing out.1 = false.
Proof.
  by apply (scan_query_rejected_leaves_no_trace _ _ _ "op7" _
              (JsError.mk (Some "offline")) "offline").
Defined.

(** X7. Whether the scan-log write succeeds has no effect on anything else:
    the result shown to the operator and the pass documents are the same
    when the store rejects the log entry as when it accepts it. *)
Theorem scan_outcome_independent_of_log env fault c ui st :
  let env' :=
    Scanner.mkEnv (Scanner.query_fault env) (Scanner.update_fault env)
      (Scanner.update_time env) fault (Scanner.log_time env) in
  (Scanner.handleScan env' c ui st).1 = (Scanner.handleScan env c ui st).1
  ∧ Firestore.passes (Scanner.handleScan env' c ui st).2
    = Firestore.passes (Scanner.handleScan env c ui st).2.
Proof.
  intros env'. subst env'. unfold Scanner.handleScan.
  destruct (Scanner.user ui) as [uid|]; [|done].
  destruct (_ || _); [done|]. simpl.
  destruct (Firestore.getDocs_by_code _ _ _) as [snapshot|e]; [|done].
  unfold Scanner.scan_body. simpl.
  destruct snapshot as [|[id p] rest]; simpl.
  - by destruct fault, (Scanner.log_fault env).
  - destruct (Pass.consumed p); simpl;
      [by destruct fault, (Scanner.log_fault env)|].
    destruct (Firestore.updateDoc_pass _ _ _ _); simpl;
      by destruct fault, (Scanner.log_fault env).
Qed.

(** ** The dispatcher: accounting and what it keeps *)

Section dispatch_accounting.
Import MailInvitations.

Lemma failureStatus_not_sent e : failureStatus e ≠ email_sent.
Proof. unfold failureStatus. by destruct (_ || _). Qed.

Lemma sent_entries_app l1 l2 :
  sent_entries (l1 ++ l2) = sent_entries l1 + sent_entries l2.
Proof. unfold sent_entries. by rewrite filter_app, length_app. Qed.

Lemma failure_entries_app l1 l2 :
  failure_entries (l1 ++ l2) = failure_entries l1 + failure_entries l2.
Proof. unfold failure_entries. by rewrite filter_app, length_app. Qed.

(** An iteration that does not leave the loop appends exactly one entry
    for its pass and moves exactly one counter. *)
Lemma send_one_completed ui ev env d w w' :
  send_one ui ev env d w = Completed w' →
  ∃ entry,
    Firestore.email_logs (store w')
    = Firestore.email_logs (store w) ++ [entry]
    ∧ EmailLog.pass_id entry = d.1
    ∧ sent w' = sent w + sent_entries [entry]
    ∧ failed w' = failed w + failure_entries [entry].
Proof.
  unfold send_one, try_send. destruct d as [id pass].
  assert (∀ e (l : list EmailLog.t), ∃ entry : EmailLog.t,
    l ++
      [EmailLog.mk id (selectedEventId ui) (Pass.guest_email pass)
         (subject ui) (failureStatus e) (Some (logged_message e))
         (log_time env)]
    = l ++ [entry]
    ∧ EmailLog.pass_id entry = id
    ∧ sent w = sent w + sent_entries [entry]
    ∧ S (failed w) = failed w + failure_entries [entry]) as Hfail.
  { intros e l. eexists. split; [reflexivity|]. split; [done|].
    unfold sent_entries, failure_entries.
    rewrite !filter_cons, !filter_nil. simpl.
    pose proof (failureStatus_not_sent e).
    destruct (decide (failureStatus e = email_sent)); [done|].
    destruct (decide (failureStatus e ≠ email_sent)); [simpl; lia|done]. }
  destruct (qr env) as [url|e]; simpl.
  2: { destruct (failure_log_fault env); simpl; [done|].
       intros [= <-]. simpl. apply Hfail. }
  destruct (mail env) as [e|]; simpl.
  { destruct (failure_log_fault env); simpl; [done|].
    intros [= <-]. simpl. apply Hfail. }
  unfold Firestore.updateDoc_pass.
  destruct (update_fault env) as [e|]; simpl.
  { destruct (failure_log_fault env); simpl; [done|].
    intros [= <-]. simpl. apply Hfail. }
  destruct (Firestore.passes (store w) !! id) as [p|]; simpl.
  2: { destruct (failure_log_fault env); simpl; [done|].
       intros [= <-]. simpl. apply Hfail. }
  destruct (log_fault env) as [e|]; simpl.
  { destruct (failure_log_fault env); simpl; [done|].
    intros [= <-]. simpl. apply Hfail. }
  intros [= <-]. simpl. eexists. split; [reflexivity|]. split; [done|].
  unfold sent_entries, failure_entries.
  rewrite !filter_cons, !filter_nil. simpl. lia.
Qed.

Lemma send_from_completed ui ev env ds : ∀ i w w',
  send_from ui ev env i ds w = Completed w' →
  ∃ entries,
    Firestore.email_logs (store w')
    = Firestore.email_logs (store w) ++ entries
    ∧ EmailLog.pass_id <$> entries = ds.*1
    ∧ sent w' = sent w + sent_entries entries
    ∧ failed w' = failed w + failure_entries entries.
Proof.
  induction ds as [|d rest IH]; intros i w w' Hrun.
  - injection Hrun as <-. exists []. rewrite app_nil_r.
    unfold sent_entries, failure_entries. simpl. repeat split; lia.
  - cbn [send_from] in Hrun.
    destruct (send_one ui ev (env i) d w) as [|w1|w1 e] eqn:Hone; try done.
    apply send_one_completed in Hone as (entry & Hlog & Hid & Hs & Hf).
    apply IH in Hrun as (entries & Hlog' & Hids & Hs' & Hf').
    exists (entry :: entries).
    rewrite Hlog', Hlog, <- app_assoc. split; [done|].
    split; [by rewrite !fmap_cons, Hid, Hids|].
    change (entry :: entries) with ([entry] ++ entries).
    rewrite sent_entries_app, failure_entries_app. lia.
Qed.

Lemma entries_partition entries :
  sent_entries entries + failure_entries entries = length entries.
Proof.
  unfold sent_entries, failure_entries.
  induction entries as [|e l IH]; [done|].
  rewrite !filter_cons.
  destruct (decide (EmailLog.status e = email_sent)),
           (decide (EmailLog.status e ≠ email_sent)); simpl; try done; lia.
Qed.

End dispatch_accounting.

(** A run that reaches its end is the loop over the pending list run to
    its end, for the selected event. *)
Lemma handleSendEmails_completed env ui st w :
  (MailInvitations.handleSendEmails env ui st).2 = MailInvitations.Completed w →
  ∃ ev,
    MailInvitations.send_from (MailInvitations.set_inProgress true ui) ev
      (MailInvitations.per_pass env) 0 (MailInvitations.passes ui)
      (MailInvitations.mkRun st [] 0 0)
    = MailInvitations.Completed w.
Proof.
  unfold MailInvitations.handleSendEmails.
  destruct (length _ =? 0)%nat; [done|].
  destruct (negb _); [done|].
  destruct (find _ _) as [[eid ev]|]; [|done].
  destruct (MailInvitations.send_from _ _ _ _ _ _) as [|w1|w1 e] eqn:Hrun;
    try done.
  simpl. intros [= <-]. by exists ev.
Qed.

(** X8. A run that reaches its end has accounted for every pending pass once:
    the mail log has grown by one entry per pass, in the order of the
    list, the [sent] counter is the number of [sent] entries and the
    [failed] counter the number of the others, so the two add up to the
    number of passes. *)
Theorem completed_run_accounts_for_every_pass env ui st w :
  (MailInvitations.handleSendEmails env ui st).2 = MailInvitations.Completed w →
  ∃ entries,
    Firestore.email_logs (MailInvitations.store w)
    = Firestore.email_logs st ++ entries
    ∧ EmailLog.pass_id <$> entries = (MailInvitations.passes ui).*1
    ∧ MailInvitations.sent w = sent_entries entries
    ∧ MailInvitations.failed w = failure_entries entries
    ∧ MailInvitations.sent w + MailInvitations.failed w
      = length (MailInvitations.passes ui).
Proof.
  intros [ev Hrun]%handleSendEmails_completed.
  apply send_from_completed in Hrun as (entries & Hlog & Hids & Hs & Hf).
  simpl in *. exists entries. repeat split; try done.
  rewrite Hs, Hf, entries_partition.
  by rewrite <- (length_fmap EmailLog.pass_id), Hids, length_fmap.
Qed.

Lemma completed_run_accounts_for_every_pass_witness :
  ∃ w,
    (MailInvitations.handleSendEmails first_bounces party_ui party_store).2
    = MailInvitations.Completed w
    ∧ ∃ entries,
        Firestore.email_logs (MailInvitations.store w)
        = Firestore.email_logs party_store ++ entries
        ∧ EmailLog.pass_id <$> entries = (MailInvitations.passes party_ui).*1
        ∧ MailInvitations.sent w = sent_entries entries
        ∧ MailInvitations.failed w = failure_entries entries
        ∧ MailInvitations.sent w + MailInvitations.failed w
          = length (MailInvitations.passes party_ui).
Proof.
  eexists. split; [reflexivity|].
  apply (completed_run_accounts_for_every_pass first_bounces party_ui
           party_store).
  reflexivity.
Defined.

Section dispatch_frame.
Import MailInvitations.

Lemma dispatch_ext_refl st : dispatch_ext st st.
Proof.
  repeat split; try done. intros i.
  destruct (Firestore.passes st !! i) as [p|] eqn:Hi; [|done].
  exists p. split; [done | by left].
Qed.

Lemma send_step_of_trans p1 p2 p3 :
  send_step_of p1 p2 → send_step_of p2 p3 → send_step_of p1 p3.
Proof.
  intros [->|[t ->]] [->|[t' ->]]; [by left|right..]; eauto.
Qed.

Lemma dispatch_ext_trans st1 st2 st3 :
  dispatch_ext st1 st2 → dispatch_ext st2 st3 → dispatch_ext st1 st3.
Proof.
  intros (He & Hs & Hl & Hp) (He' & Hs' & Hl' & Hp').
  repeat split; [congruence | congruence | by etrans |].
  intros i. specialize (Hp i). specialize (Hp' i).
  destruct (Firestore.passes st1 !! i) as [p|].
  - destruct Hp as (p2 & Hp2 & Hstep). rewrite Hp2 in Hp'.
    destruct Hp' as (p3 & Hp3 & Hstep'). exists p3.
    split; [done | by eapply send_step_of_trans].
  - by rewrite Hp in Hp'.
Qed.

Lemma addDoc_email_log_ext fault entry st st' :
  Firestore.addDoc_email_log fault entry st = Ok st' → dispatch_ext st st'.
Proof.
  unfold Firestore.addDoc_email_log. destruct fault; [done|].
  intros [= <-]. do 2 (split; [done|]). split; [by apply prefix_app_r|].
  apply (dispatch_ext_refl st).
Qed.

Lemma mark_sent_ext fault id t st st' :
  Firestore.updateDoc_pass fault id (Pass.mark_sent t) st = Ok st' →
  dispatch_ext st st'.
Proof.
  unfold Firestore.updateDoc_pass. destruct fault; [done|].
  destruct (Firestore.passes st !! id) as [p|] eqn:Hid; [|done].
  intros [= <-]. do 3 (split; [done|]). simpl. intros i.
  destruct (decide (i = id)) as [->|Hne].
  - rewrite Hid, lookup_insert_eq. eexists. split; [done|]. right. eauto.
  - rewrite lookup_insert_ne by done. apply (dispatch_ext_refl st).
Qed.

Lemma try_send_ext ui ev env d w :
  dispatch_ext (store w) (store (try_send ui ev env d w).1).
Proof.
  unfold try_send. destruct d as [id pass].
  destruct (qr env) as [url|e]; simpl; [|apply dispatch_ext_refl].
  destruct (mail env) as [e|]; simpl; [apply dispatch_ext_refl|].
  destruct (Firestore.updateDoc_pass _ _ _ _) as [st1|e] eqn:Hup; simpl;
    [|apply dispatch_ext_refl].
  apply mark_sent_ext in Hup.
  destruct (Firestore.addDoc_email_log _ _ _) as [st2|e] eqn:Hlog; simpl;
    [|done].
  apply addDoc_email_log_ext in Hlog. by eapply dispatch_ext_trans.
Qed.

Lemma send_one_ext ui ev env d w :
  match send_one ui ev env d w with
  | Declined => True
  | Completed w' | Aborted w' _ => dispatch_ext (store w) (store w')
  end.
Proof.
  unfold send_one. pose proof (try_send_ext ui ev env d w) as Htry.
  destruct (try_send ui ev env d w) as [w1 [e|]]; simpl in *; [|done].
  destruct (Firestore.addDoc_email_log _ _ _) as [st'|e'] eqn:Hlog; [|done].
  simpl. apply addDoc_email_log_ext in Hlog. by eapply dispatch_ext_trans.
Qed.

Lemma send_from_ext ui ev env ds : ∀ i w,
  match send_from ui ev env i ds w with
  | Declined => True
  | Completed w' | Aborted w' _ => dispatch_ext (store w) (store w')
  end.
Proof.
  induction ds as [|d rest IH]; intros i w; cbn [send_from].
  - apply dispatch_ext_refl.
  - pose proof (send_one_ext ui ev (env i) d w) as Hone.
    destruct (send_one ui ev (env i) d w) as [|w1|w1 e]; [done| |done].
    specialize (IH (S i) w1).
    destruct (send_from ui ev env (S i) rest w1); [done|..];
      by eapply dispatch_ext_trans.
Qed.

Lemma handleSendEmails_ext env ui st :
  dispatch_ext st (store_after (handleSendEmails env ui st).2 st).
Proof.
  unfold handleSendEmails.
  destruct (length _ =? 0)%nat; [apply dispatch_ext_refl|].
  destruct (negb _); [apply dispatch_ext_refl|].
  destruct (find _ _) as [[eid ev]|]; [|apply dispatch_ext_refl].
  pose proof (send_from_ext (set_inProgress true ui) ev (per_pass env)
                (passes ui) 0 (mkRun st [] 0 0)) as Hrun.
  destruct (send_from _ _ _ _ _ _); simpl in *;
    [apply dispatch_ext_refl|done..].
Qed.

End dispatch_frame.

(** X9. However a dispatch run ends (declined, completed, or left by an
    exception), it leaves events and scan logs alone, only appends to the
    mail log, and neither creates nor deletes a pass; the only change it
    makes to a pass document is to set [sent_at], so what the gate reads
    ([used], [scanned_at], the code) is as before. *)
Theorem dispatch_touches_only_sent_at env ui st :
  let st' :=
    MailInvitations.store_after (MailInvitations.handleSendEmails env ui st).2
      st in
  Firestore.events st' = Firestore.events st
  ∧ Firestore.scan_logs st' = Firestore.scan_logs st
  ∧ Firestore.email_logs st `prefix_of` Firestore.email_logs st'
  ∧ ∀ i, match Firestore.passes st !! i with
         | Some p =>
             ∃ p', Firestore.passes st' !! i = Some p'
                   ∧ (p' = p ∨ ∃ t, p' = Pass.mark_sent t p)
                   ∧ Pass.code p' = Pass.code p
                   ∧ Pass.consumed p' = Pass.consumed p
         | None => Firestore.passes st' !! i = None
         end.
Proof.
  intros st'. subst st'.
  destruct (handleSendEmails_ext env ui st) as (He & Hs & Hl & Hp).
  repeat split; try done. intros i. specialize (Hp i).
  destruct (Firestore.passes st !! i) as [p|]; [|done].
  destruct Hp as (p' & Hp' & Hstep). exists p'. split; [done|].
  split; [done|]. by destruct Hstep as [->|[t ->]].
Qed.


(** X11. When the mail has gone out but the store then rejects the update of
    the pass (a fault, or the document was deleted meanwhile), the
    iteration counts as a failure: the mail was sent, the entry logged is
    a failure entry with the store's message, the [failed] counter rises,
    and the pass keeps no [sent_at], so the next run mails it again. *)
Theorem delivered_mail_with_rejected_update_counts_failed
    ui ev env id pass w url e :
  MailInvitations.qr env = Ok url →
  MailInvitations.mail env = None →
  Firestore.updateDoc_pass (MailInvitations.update_fault env) id
    (Pass.mark_sent (MailInvitations.sent_time env)) (MailInvitations.store w)
  = Throw e →
  MailInvitations.failure_log_fault env = None →
  ∃ w' call,
    MailInvitations.send_one ui ev env (id, pass) w
    = MailInvitations.Completed w'
    ∧ MailInvitations.attempts w' = MailInvitations.attempts w ++ [(id, call)]
    ∧ GoogleApi.to call = Pass.guest_email pass
    ∧ Firestore.passes (MailInvitations.store w')
      = Firestore.passes (MailInvitations.store w)
    ∧ Firestore.email_logs (MailInvitations.store w')
      = Firestore.email_logs (MailInvitations.store w)
        ++ [EmailLog.mk id (MailInvitations.selectedEventId ui)
              (Pass.guest_email pass) (MailInvitations.subject ui)
              (MailInvitations.failureStatus e)
              (Some (MailInvitations.logged_message e))
              (MailInvitations.log_time env)]
    ∧ MailInvitations.sent w' = MailInvitations.sent w
    ∧ MailInvitations.failed w' = S (MailInvitations.failed w).
Proof.
  intros Hqr Hmail Hup Hlog.
  unfold MailInvitations.send_one, MailInvitations.try_send.
  rewrite Hqr, Hmail. simpl. rewrite Hup. simpl. rewrite Hlog. simpl.
  eexists _, _. split; [reflexivity|]. by simpl.
Qed.

Lemma delivered_mail_with_rejected_update_counts_failed_witness :
  ∃ w' call,
    MailInvitations.send_one mail_ui sample_event delivered
      ("gone", pending_pass) (MailInvitations.mkRun event_store [] 0 0)
    = MailInvitations.Completed w'
    ∧ MailInvitations.attempts w' = [] ++ [("gone", call)]
    ∧ GoogleApi.to call = "ana@x.com"
    ∧ Firestore.passes (MailInvitations.store w')
      = Firestore.passes event_store
    ∧ Firestore.email_logs (MailInvitations.store w')
      = [] ++ [EmailLog.mk "gone" "ev1" "ana@x.com" "Your Event Invitation"
                 (MailInvitations.failureStatus Firestore.not_found)
                 (Some (MailInvitations.logged_message Firestore.not_found))
                 701]
    ∧ MailInvitations.sent w' = 0
    ∧ MailInvitations.failed w' = 1.
Proof.
  by apply (delivered_mail_with_rejected_update_counts_failed mail_ui
              sample_event delivered "gone" pending_pass
              (MailInvitations.mkRun event_store [] 0 0)
              "data:image/png;base64,iVBORw0KGgo=" Firestore.not_found).
Defined.

(** X12. A successful refresh of the dispatcher's list holds exactly the
    passes of the selected event that have no [sent_at], each once; when
    the query is rejected the list on the page stays as it was. *)
Theorem fetchPasses_lists_unsent_passes_of_event st ui :
  MailInvitations.selectedEventId ui ≠ "" →
  let ui' := MailInvitations.fetchPasses None st ui in
  (∀ id p, (id, p) ∈ MailInvitations.passes ui' ↔
           Firestore.passes st !! id = Some p
           ∧ Pass.event_id p = MailInvitations.selectedEventId ui
           ∧ Pass.sent_at p = None)
  ∧ NoDup (MailInvitations.passes ui').*1
  ∧ ∀ e, MailInvitations.fetchPasses (Some e) st ui = ui.
Proof.
  intros Hsel ui'. subst ui'. unfold MailInvitations.fetchPasses.
  destruct (MailInvitations.selectedEventId ui) as [|c s] eqn:Heq; [done|].
  simpl. unfold MailInvitations.unsent. split; [|split; [|done]].
  - intros id p. split.
    + intros Hin. apply list_elem_of_filter in Hin as [Hsent Hin].
      by apply list_elem_of_filter in Hin as [Hev Hin%elem_of_map_to_list].
    + intros (Hid & Hev & Hsent).
      apply list_elem_of_filter. split; [done|].
      apply list_elem_of_filter. split; [done|].
      by apply elem_of_map_to_list.
  - apply NoDup_fmap_fst.
    + intros id p1 p2 Hin1 Hin2.
      apply list_elem_of_filter in Hin1 as [_ Hin1].
      apply list_elem_of_filter in Hin1 as [_ Hin1%elem_of_map_to_list].
      apply list_elem_of_filter in Hin2 as [_ Hin2].
      apply list_elem_of_filter in Hin2 as [_ Hin2%elem_of_map_to_list].
      congruence.
    + apply NoDup_filter, NoDup_filter, NoDup_map_to_list.
Qed.

Lemma fetchPasses_lists_unsent_passes_of_event_witness :
  let ui' := MailInvitations.fetchPasses None party_store mail_ui in
  (∀ id p, (id, p) ∈ MailInvitations.passes ui' ↔
           Firestore.passes party_store !! id = Some p
           ∧ Pass.event_id p = "ev1"
           ∧ Pass.sent_at p = None)
  ∧ NoDup (MailInvitations.passes ui').*1
  ∧ ∀ e, MailInvitations.fetchPasses (Some e) party_store mail_ui = mail_ui.
Proof.
  by apply (fetchPasses_lists_unsent_passes_of_event party_store mail_ui).
Defined.

(** ** Guests and gate together *)

Section guests_and_gate.
Import Scanner.

(** A scan of the code of a pending pass, whatever the log write does. *)
Lemma handleScan_pending env ui st uid i p :
  user ui = Some uid → isProcessing ui = false →
  lastScannedCode ui ≠ Pass.code p →
  query_fault env = None → update_fault env = None →
  Firestore.passes st !! i = Some p →
  codes_unique (Firestore.passes st) →
  Pass.consumed p = false →
  status <$> result (handleScan env (Pass.code p) ui st).1 = Some valid
  ∧ Firestore.passes (handleScan env (Pass.code p) ui st).2
    = <[i := Pass.mark_scanned (update_time env) uid p]> (Firestore.passes st).
Proof.
  intros Hu Hp Hl Hq Hup Hi Huniq Hc.
  enter_handler Hu Hp Hl Hq.
  rewrite (getDocs_by_code_unique st i p Hi Huniq).
  unfold scan_body. simpl. rewrite Hc, Hup.
  unfold Firestore.updateDoc_pass. rewrite Hi. simpl.
  by destruct (log_fault env).
Qed.

(** A scan of a code that no pass carries, whatever the log write does. *)
Lemma handleScan_unknown env ui st uid c :
  user ui = Some uid → isProcessing ui = false → lastScannedCode ui ≠ c →
  query_fault env = None →
  code_unused c (Firestore.passes st) →
  result (handleScan env c ui st).1
  = Some (mkResult invalid "Invalid QR Code - Pass Not Found" None None
            (Some c))
  ∧ Firestore.passes (handleScan env c ui st).2 = Firestore.passes st.
Proof.
  intros Hu Hp Hl Hq Hno.
  enter_handler Hu Hp Hl Hq.
  rewrite (getDocs_by_code_unknown st c Hno).
  unfold scan_body. simpl. by destruct (log_fault env).
Qed.

Lemma codes_unique_insert_fresh (ps : gmap string Pass.t) i p :
  ps !! i = None → code_unused (Pass.code p) ps →
  codes_unique ps → codes_unique (<[i := p]> ps).
Proof.
  intros Hi Hno Huniq j q Hj k r Hk Hqr.
  apply lookup_insert_Some in Hj as [[<- <-]|[Hij Hj]];
    apply lookup_insert_Some in Hk as [[<- <-]|[Hik Hk]]; try done.
  - by destruct (Hno k r Hk).
  - by destruct (Hno j q Hj).
  - by apply (Huniq j q Hj k r Hk).
Qed.

Lemma codes_unique_delete (ps : gmap string Pass.t) i :
  codes_unique ps → codes_unique (delete i ps).
Proof.
  intros Huniq j q Hj k r Hk.
  apply lookup_delete_Some in Hj as [_ Hj].
  apply lookup_delete_Some in Hk as [_ Hk].
  by apply (Huniq j q Hj k r Hk).
Qed.

End guests_and_gate.

(** X13. A guest added with the single-guest form, when the store accepts the
    write and no other pass carries the generated code, gets one pending
    pass for the selected event, with the name and email as typed and a
    code of the event's prefix format; the first scan of that code at the
    gate is answered [valid] and marks the pass. *)
Theorem added_guest_is_admitted genv form gui st eid ev id env ui uid :
  Guests.selectedEventId gui ≠ "" →
  find (λ e, String.eqb e.1 (Guests.selectedEventId gui)) (Guests.events gui)
  = Some (eid, ev) →
  (∀ j, (0 <= Guests.rnd genv j)%Q ∧ (Guests.rnd genv j < 1)%Q) →
  Guests.add_outcome genv 0 = Ok id →
  Firestore.passes st !! id = None →
  codes_unique (Firestore.passes st) →
  let prefix := or_default (Event.qr_prefix ev) "QRP" in
  let code := QrGenerator.generateUniqueCode (Guests.rnd genv) 0 prefix in
  code_unused code (Firestore.passes st) →
  Scanner.user ui = Some uid →
  Scanner.isProcessing ui = false →
  Scanner.lastScannedCode ui ≠ code →
  Scanner.query_fault env = None →
  Scanner.update_fault env = None →
  let added := GuestsPage.handleAddGuest genv form gui st in
  let pass :=
    Pass.mk (Guests.selectedEventId gui) code (GuestsPage.name form)
      (GuestsPage.email form) None None (Some false) None None
      (Some (Guests.now genv)) in
  let out := Scanner.handleScan env code ui added.1 in
  added.2 = GuestsPage.Added
  ∧ Firestore.passes added.1 = <[id := pass]> (Firestore.passes st)
  ∧ pending pass
  ∧ matches_code_format prefix code = true
  ∧ Scanner.status <$> Scanner.result out.1 = Some valid
  ∧ Firestore.passes out.2 !! id
    = Some (Pass.mark_scanned (Scanner.update_time env) uid pass).
Proof.
  intros Hsel Hfind Hrnd Hadd Hid Huniq prefix code Hno Hu Hp Hl Hq Hup
    added pass out.
  assert (added = (Firestore.with_passes (<[id := pass]> (Firestore.passes st))
                     st, GuestsPage.Added)) as Hadded.
  { subst added. unfold GuestsPage.handleAddGuest.
    destruct (Guests.selectedEventId gui) eqn:Heq; [done|]. simpl.
    rewrite Hfind, Hadd. done. }
  subst out. rewrite Hadded. simpl.
  split; [done|]. split; [done|]. split; [done|].
  split; [apply (generated_code_format_aux _ 0 prefix Hrnd)|].
  assert (Pass.code pass = code) as Hcode by done.
  rewrite <- Hcode in Hl |- *.
  destruct (handleScan_pending env ui
              (Firestore.with_passes (<[id := pass]> (Firestore.passes st)) st)
              uid id pass Hu Hp Hl Hq Hup) as [Hst Hps].
  - simpl. apply lookup_insert_eq.
  - simpl. by apply codes_unique_insert_fresh.
  - done.
  - split; [done|]. rewrite Hps. simpl. apply lookup_insert_eq.
Qed.

Lemma added_guest_is_admitted_witness :
  let form := GuestsPage.mkForm "Dee" "dee@x.com" in
  let added :=
    GuestsPage.handleAddGuest import_env form (import_ui "") gate_store in
  let pass :=
    Pass.mk "ev1" "EVTX-VVVVVV" "Dee" "dee@x.com" None None (Some false)
      None None (Some 50%Z) in
  let out := Scanner.handleScan (healthy 500) "EVTX-VVVVVV" operator_ui
               added.1 in
  added.2 = GuestsPage.Added
  ∧ Firestore.passes added.1 = <[ "new0" := pass ]> (Firestore.passes gate_store)
  ∧ pending pass
  ∧ matches_code_format "EVTX" "EVTX-VVVVVV" = true
  ∧ Scanner.status <$> Scanner.result out.1 = Some valid
  ∧ Firestore.passes out.2 !! "new0"
    = Some (Pass.mark_scanned 500 "op7" pass).
Proof.
  apply (added_guest_is_admitted import_env
           (GuestsPage.mkForm "Dee" "dee@x.com") (import_ui "") gate_store
           "ev1" sample_event "new0" (healthy 500) operator_ui "op7");
    try done.
  - apply gate_store_codes_unique.
  - intros i p Hi. simpl in Hi.
    by apply lookup_singleton_Some in Hi as [_ <-].
Defined.

(** X14. After the operator deletes a pass, a scan of its code is answered
    [invalid], pass not found, and leaves the pass collection without
    it. *)
Theorem deleted_pass_is_refused env ui st uid i p :
  Firestore.passes st !! i = Some p →
  codes_unique (Firestore.passes st) →
  Scanner.user ui = Some uid →
  Scanner.isProcessing ui = false →
  Scanner.lastScannedCode ui ≠ Pass.code p →
  Scanner.query_fault env = None →
  let st1 := GuestsPage.handleDeletePass true None i st in
  let out := Scanner.handleScan env (Pass.code p) ui st1 in
  Firestore.passes st1 = delete i (Firestore.passes st)
  ∧ Scanner.result out.1
    = Some (Scanner.mkResult invalid "Invalid QR Code - Pass Not Found"
              None None (Some (Pass.code p)))
  ∧ Firestore.passes out.2 !! i = None.
Proof.
  intros Hi Huniq Hu Hp Hl Hq st1 out. subst out st1.
  unfold GuestsPage.handleDeletePass. simpl. split; [done|].
  destruct (handleScan_unknown env ui
              (Firestore.with_passes (delete i (Firestore.passes st)) st)
              uid (Pass.code p) Hu Hp Hl Hq) as [Hr Hps].
  - intros j q Hj Hc. simpl in Hj.
    apply lookup_delete_Some in Hj as [Hne Hj].
    by apply Hne, (Huniq i p Hi j q Hj).
  - split; [done|]. rewrite Hps. simpl. apply lookup_delete_eq.
Qed.

Lemma deleted_pass_is_refused_witness :
  let st1 := GuestsPage.handleDeletePass true None "p1" gate_store in
  let out := Scanner.handleScan (healthy 500) "EVTX-AB12#9" operator_ui st1 in
  Firestore.passes st1 = delete "p1" (Firestore.passes gate_store)
  ∧ Scanner.result out.1
    = Some (Scanner.mkResult invalid "Invalid QR Code - Pass Not Found"
              None None (Some "EVTX-AB12#9"))
  ∧ Firestore.passes out.2 !! "p1" = None.
Proof.
  apply (deleted_pass_is_refused (healthy 500) operator_ui gate_store "op7"
           "p1" pending_pass); try done.
  apply gate_store_codes_unique.
Defined.

(** ** Events *)

Lemma find_listed_event (l : list (string * Event.t))
    (m : gmap string Event.t) i ev :
  l ≡ₚ map_to_list m → m !! i = Some ev →
  find (λ e, String.eqb e.1 i) l = Some (i, ev).
Proof.
  intros Hperm Hi.
  destruct (find (λ e, String.eqb e.1 i) l) as [[j ev']|] eqn:Hfind.
  - apply find_some in Hfind as [Hin Heq]. simpl in Heq.
    apply String.eqb_eq in Heq as ->.
    apply list_elem_of_In in Hin. rewrite Hperm in Hin.
    apply elem_of_map_to_list in Hin. congruence.
  - exfalso. apply elem_of_map_to_list in Hi. rewrite <- Hperm in Hi.
    apply list_elem_of_In in Hi.
    pose proof (find_none _ _ Hfind _ Hi) as Hne. simpl in Hne.
    by rewrite String.eqb_refl in Hne.
Qed.

(** X15. An event created by a signed-in administrator and then deleted leaves
    the store exactly as it was before, when the store gave the event an
    id that was not in use; the passes are touched by neither step. *)
Theorem created_event_deleted_restores_store uid id formData st :
  Firestore.events st !! id = None →
  let st1 := EventsPage.handleCreateEvent (Some uid) (Ok id) formData st in
  (∃ ev, Firestore.events st1 !! id = Some ev
         ∧ Event.admin_id ev = uid
         ∧ Event.title ev = EventsPage.title formData
         ∧ Event.qr_prefix ev = Some (EventsPage.qr_prefix formData))
  ∧ Firestore.passes st1 = Firestore.passes st
  ∧ Events.handleDeleteEvent true None id st1 = st.
Proof.
  intros Hid st1. subst st1. unfold EventsPage.handleCreateEvent. simpl.
  split; [|split; [done|]].
  - eexists. split; [apply lookup_insert_eq | done].
  - unfold Events.handleDeleteEvent, Firestore.with_events. simpl.
    rewrite delete_insert_id by done. by destruct st.
Qed.

Lemma created_event_deleted_restores_store_witness :
  let formData := EventsPage.mkForm "Gala" "" "GALA" "#ffffff" "#FFD43B" in
  let st1 :=
    EventsPage.handleCreateEvent (Some "admin1") (Ok "ev2") formData
      event_store in
  (∃ ev, Firestore.events st1 !! "ev2" = Some ev
         ∧ Event.admin_id ev = "admin1"
         ∧ Event.title ev = "Gala"
         ∧ Event.qr_prefix ev = Some "GALA")
  ∧ Firestore.passes st1 = Firestore.passes event_store
  ∧ Events.handleDeleteEvent true None "ev2" st1 = event_store.
Proof.
  by apply (created_event_deleted_restores_store "admin1" "ev2"
              (EventsPage.mkForm "Gala" "" "GALA" "#ffffff" "#FFD43B")
              event_store).
Defined.

(** X16. The prefix typed into the event form heads the codes of the event's
    guests: a guest added to the created event gets the code
    [PREFIX-] followed by six characters, and [QRP-] followed by six
    characters when the prefix was left empty. *)
Theorem event_prefix_heads_guest_codes uid id formData st genv form gui pid :
  id ≠ "" →
  Guests.selectedEventId gui = id →
  let st1 := EventsPage.handleCreateEvent (Some uid) (Ok id) formData st in
  lists_events gui st1 →
  Guests.add_outcome genv 0 = Ok pid →
  (∀ j, (0 <= Guests.rnd genv j)%Q ∧ (Guests.rnd genv j < 1)%Q) →
  let prefix :=
    if JsString.truthy (EventsPage.qr_prefix formData)
    then EventsPage.qr_prefix formData else "QRP" in
  ∃ pass body,
    Firestore.passes (GuestsPage.handleAddGuest genv form gui st1).1
    = <[pid := pass]> (Firestore.passes st)
    ∧ Pass.event_id pass = id
    ∧ Pass.code pass = prefix +:+ "-" +:+ body
    ∧ String.length body = 6.
Proof.
  intros Hne Hsel st1 Hlist Hadd Hrnd prefix.
  assert (JsString.truthy id = true) as Htruthy by (by destruct id).
  assert (Firestore.events st1 !! id
          = Some (Event.mk uid (EventsPage.title formData)
                    (Some (EventsPage.description formData))
                    (Some (EventsPage.bg_color formData))
                    (Some (EventsPage.accent_color formData))
                    (Some (EventsPage.qr_prefix formData)))) as Hev
    by apply lookup_insert_eq.
  unfold GuestsPage.handleAddGuest. rewrite Hsel, Htruthy. simpl.
  rewrite (find_listed_event _ _ id _ Hlist Hev), Hadd. simpl.
  destruct (generated_code_format_aux (Guests.rnd genv) 0 prefix Hrnd)
    as [(body & Hcode & Hlen & _) _].
  eexists _, body. split; [reflexivity|]. split; [done|]. by split.
Qed.

Lemma event_prefix_heads_guest_codes_witness :
  let formData := EventsPage.mkForm "Gala" "" "" "#ffffff" "#FFD43B" in
  let st1 :=
    EventsPage.handleCreateEvent (Some "admin1") (Ok "ev2") formData
      import_store in
  let gui :=
    Guests.mkState
      [("ev2", Event.mk "admin1" "Gala" (Some "") (Some "#ffffff")
                 (Some "#FFD43B") (Some ""));
       ("ev1", sample_event)] "ev2" "" false in
  ∃ pass body,
    Firestore.passes
      (GuestsPage.handleAddGuest import_env
         (GuestsPage.mkForm "Dee" "dee@x.com") gui st1).1
    = <[ "new0" := pass ]> (Firestore.passes import_store)
    ∧ Pass.event_id pass = "ev2"
    ∧ Pass.code pass = "QRP" +:+ "-" +:+ body
    ∧ String.length body = 6.
Proof.
  apply (event_prefix_heads_guest_codes "admin1" "ev2"
           (EventsPage.mkForm "Gala" "" "" "#ffffff" "#FFD43B") import_store
           import_env (GuestsPage.mkForm "Dee" "dee@x.com")); try done.
  unfold lists_events. vm_compute.
  first [reflexivity | apply perm_swap].
Defined.

(** ** Sending a mail *)

Section gmail.
Import Gmail.

Lemma failed_prefix_transparent em needle :
  needle = "address not found" ∨ needle = "invalid"
  ∨ needle = "recipient address rejected" →
  JsString.includes (JsString.toLowerCase ("Failed to send email: " +:+ em))
    needle
  = JsString.includes (JsString.toLowerCase em) needle.
Proof. intros [->|[->| ->]]; reflexivity. Qed.

Lemma failureStatus_of_failed_prefix em :
  MailInvitations.failureStatus
    (JsError.mk (Some ("Failed to send email: " +:+ em)))
  = MailInvitations.failureStatus (JsError.mk (Some em)).
Proof.
  unfold MailInvitations.failureStatus, MailInvitations.message_includes.
  cbn [JsError.message]. by rewrite !failed_prefix_transparent by auto.
Qed.

End gmail.

(** X17. A request to the Gmail API is made exactly when a user is signed in
    and a non-empty token is stored; without one the call makes no request
    and fails with [No access token available], whatever the mail, and the
    dispatcher records such a failure as [failed], not as an invalid
    address. *)
Theorem mail_request_needs_stored_token s answer params :
  ((Gmail.sendGmail s answer params).1 = None ↔
   ¬ (GoogleAuth.signedIn s = true
      ∧ ∃ t, GoogleAuth.stored_token s = Ok (Some t) ∧ t ≠ ""))
  ∧ ((Gmail.sendGmail s answer params).1 = None →
     (Gmail.sendGmail s answer params).2
     = Throw (JsError.mk (Some "No access token available"))
     ∧ MailInvitations.failureStatus
         (JsError.mk (Some "No access token available")) = email_failed).
Proof.
  unfold Gmail.sendGmail, GoogleAuth.getAccessToken.
  destruct (GoogleAuth.signedIn s); simpl.
  2: { split; [|done]. split; [|done]. by intros _ [? _]. }
  destruct (GoogleAuth.stored_token s) as [[t|]|e]; simpl.
  - destruct t as [|c t]; simpl.
    + split; [|done]. split; [|done]. intros _ [_ (t & [= <-] & Hne)]. done.
    + split.
      * split; [by destruct answer as [r|]; [destruct (Gmail.ok r);
                  [|destruct (Gmail.error_message r)]|]|].
        intros Hno. exfalso. apply Hno. split; [done|]. by eexists.
      * by destruct answer as [r|]; [destruct (Gmail.ok r);
             [|destruct (Gmail.error_message r)]|].
  - split; [|done]. split; [|done]. by intros _ [_ (t & [=] & _)].
  - split; [|done]. split; [|done]. by intros _ [_ (t & [=] & _)].
Qed.

(** X18. How a rejection by the Gmail API ends up in the mail log. The API's
    message is matched case-sensitively against five phrases; a hit on one
    of the four address phrases is logged as [invalid], a quota message as
    [failed]; any other message is passed on behind
    [Failed to send email: ] and logged as [invalid] exactly when it
    contains, in any case, [invalid], [address not found] or
    [recipient address rejected]. *)
Theorem api_rejection_classification s accessToken response m params :
  GoogleAuth.getAccessToken s = Some accessToken →
  Gmail.ok response = false →
  Gmail.error_message response = Ok m →
  let errorMessage := or_default m (Gmail.statusText response) in
  let hit phrase := JsString.includes errorMessage phrase in
  let address :=
    hit "Invalid to header" || hit "Recipient address rejected"
    || hit "Invalid recipients" || hit "Address not found" in
  ∃ e,
    (Gmail.sendGmail s (Ok response) params).2 = Throw e
    ∧ (address = true → MailInvitations.failureStatus e = email_invalid)
    ∧ (address = false → hit "Daily sending quota exceeded" = true →
       JsError.message e
       = Some "Daily sending quota exceeded - Try again tomorrow"
       ∧ MailInvitations.failureStatus e = email_failed)
    ∧ (address = false → hit "Daily sending quota exceeded" = false →
       JsError.message e = Some ("Failed to send email: " +:+ errorMessage)
       ∧ MailInvitations.failureStatus e
         = MailInvitations.failureStatus (JsError.mk (Some errorMessage))).
Proof.
  intros Htok Hok Hm errorMessage hit address.
  unfold Gmail.sendGmail. rewrite Htok, Hok, Hm. simpl.
  eexists. split; [reflexivity|].
  fold errorMessage. unfold Gmail.rejection.
  subst address. unfold hit.
  destruct (JsString.includes errorMessage "Invalid to header"); simpl;
    [by repeat split|].
  destruct (JsString.includes errorMessage "Recipient address rejected");
    simpl; [by repeat split|].
  destruct (JsString.includes errorMessage "Invalid recipients"); simpl;
    [by repeat split|].
  destruct (JsString.includes errorMessage "Address not found"); simpl;
    [by repeat split|].
  destruct (JsString.includes errorMessage "Daily sending quota exceeded");
    simpl; [by repeat split|].
  split; [done|]. split; [done|]. intros _ _. split; [done|].
  apply failureStatus_of_failed_prefix.
Qed.

Lemma api_rejection_classification_witness :
  let s := GoogleAuth.mkSession true (Ok (Some "ya29.token")) in
  let response :=
    Gmail.mkResponse false "Unauthorized" (Ok (Some "Invalid Credentials")) in
  let hit phrase := JsString.includes "Invalid Credentials" phrase in
  let address :=
    hit "Invalid to header" || hit "Recipient address rejected"
    || hit "Invalid recipients" || hit "Address not found" in
  ∃ e,
    (Gmail.sendGmail s (Ok response)
       (GoogleApi.mkMail "ana@x.com" "Hi" "text" "<p>text</p>")).2 = Throw e
    ∧ (address = true → MailInvitations.failureStatus e = email_invalid)
    ∧ (address = false → hit "Daily sending quota exceeded" = true →
       JsError.message e
       = Some "Daily sending quota exceeded - Try again tomorrow"
       ∧ MailInvitations.failureStatus e = email_failed)
    ∧ (address = false → hit "Daily sending quota exceeded" = false →
       JsError.message e
       = Some ("Failed to send email: " +:+ "Invalid Credentials")
       ∧ MailInvitations.failureStatus e
         = MailInvitations.failureStatus
             (JsError.mk (Some "Invalid Credentials"))).
Proof.
  by apply (api_rejection_classification
              (GoogleAuth.mkSession true (Ok (Some "ya29.token"))) "ya29.token"
              (Gmail.mkResponse false "Unauthorized"
                 (Ok (Some "Invalid Credentials")))
              (Some "Invalid Credentials")).
Defined.

(** An expired token makes every address look invalid: the API answers
    [Invalid Credentials], and the dispatcher logs the pass with status
    [invalid]. *)
Example expired_token_logged_as_invalid_address :
  ∃ e,
    (Gmail.sendGmail (GoogleAuth.mkSession true (Ok (Some "ya29.token")))
       (Ok (Gmail.mkResponse false "Unauthorized"
              (Ok (Some "Invalid Credentials"))))
       (GoogleApi.mkMail "ana@x.com" "Hi" "text" "<p>text</p>")).2 = Throw e
    ∧ MailInvitations.failureStatus e = email_invalid.
Proof. eexists. split; [reflexivity | by vm_compute]. Qed.

Section base64url.
Import Gmail.

Lemma sextet_digit n : base64_digit (sextet n).
Proof.
  unfold sextet, base64_digit.
  assert (N.to_nat (n mod 64) < 64) as Hlt
    by (pose proof (N.mod_upper_bound n 64); lia).
  revert Hlt. generalize (N.to_nat (n mod 64)). intros k Hk.
  do 64 (destruct k as [|k]; [vm_compute; auto|]). lia.
Qed.

Lemma btoa_shaped_aux s :
  base64_text (btoa s)
  ∧ (∀ a, base64_text (btoa (String a s)))
  ∧ (∀ a b, base64_text (btoa (String a (String b s)))).
Proof.
  induction s as [|c s (IH0 & IH1 & IH2)].
  - split; [|split].
    + exists "", "". by repeat split; auto.
    + intros a. eexists (String _ (String _ "")), "==".
      split; [reflexivity|]. split; [|auto].
      repeat (constructor; [apply sextet_digit|]). constructor.
    + intros a b. eexists (String _ (String _ (String _ ""))), "=".
      split; [reflexivity|]. split; [|auto].
      repeat (constructor; [apply sextet_digit|]). constructor.
  - split; [apply IH1|]. split; [intros a; apply IH2|]. intros a b.
    destruct IH0 as (body & pad & Hb & Hall & Hpad).
    eexists (String _ (String _ (String _ (String _ body)))), pad.
    cbn [btoa]. rewrite Hb. split; [by rewrite !str_app_cons|].
    split; [|done]. repeat (constructor; [apply sextet_digit|]). done.
Qed.

Lemma replace_all_app c d s t :
  replace_all c d (s +:+ t) = replace_all c d s +:+ replace_all c d t.
Proof.
  induction s as [|x s IH]; [done|].
  rewrite str_app_cons. cbn [replace_all]. by rewrite IH, str_app_cons.
Qed.

Lemma replace_all_digits body :
  Forall base64_digit (String.list_ascii_of_string body) →
  Forall (λ c, url_safe c = true)
    (String.list_ascii_of_string (replace_all "/" "_" (replace_all "+" "-" body))).
Proof.
  induction body as [|x body IH]; [done|].
  intros [Hx Hall]%Forall_cons. cbn [replace_all]. constructor; [|by apply IH].
  destruct Hx as [Hx|[->| ->]]; [|done..].
  destruct (Ascii.eqb x "+") eqn:Hp;
    [by apply Ascii.eqb_eq in Hp as ->|].
  destruct (Ascii.eqb x "/") eqn:Hs;
    [by apply Ascii.eqb_eq in Hs as ->|]. done.
Qed.

Lemma strip_padding_clean s :
  Forall (λ c, url_safe c = true) (String.list_ascii_of_string s) → strip_padding s = s.
Proof.
  induction s as [|x s IH]; [done|].
  intros [Hx Hall]%Forall_cons. cbn [strip_padding]. rewrite IH by done.
  destruct s; [|done].
  destruct (Ascii.eqb x "=") eqn:He; [|done].
  by apply Ascii.eqb_eq in He as ->.
Qed.

Lemma strip_padding_app_eq s :
  strip_padding (s +:+ "=") = strip_padding s.
Proof.
  induction s as [|x s IH]; [done|].
  rewrite str_app_cons. cbn [strip_padding]. by rewrite IH.
Qed.

Lemma encodedMessage_url_safe params :
  Forall (λ c, url_safe c = true) (String.list_ascii_of_string (encodedMessage params)).
Proof.
  unfold encodedMessage.
  destruct (btoa_shaped_aux (utf8 (message params)))
    as [(body & pad & -> & Hall & Hpad) _].
  rewrite !replace_all_app.
  pose proof (replace_all_digits body Hall) as Hsafe.
  destruct Hpad as [->|[->| ->]]; cbn [replace_all]; simpl.
  - by rewrite str_app_nil_r, strip_padding_clean.
  - by rewrite strip_padding_app_eq, strip_padding_clean.
  - change "==" with ("=" +:+ "="). rewrite <- str_app_assoc.
    by rewrite !strip_padding_app_eq, strip_padding_clean.
Qed.

End base64url.

(** X19. What [sendGmail] puts in the [raw] field of its request is base64url
    text without padding: letters, digits, [-] and [_] only, whatever the
    recipient, subject and body are. *)
Theorem raw_message_is_base64url s answer params request :
  (Gmail.sendGmail s answer params).1 = Some request →
  Forall (λ c, url_safe c = true)
    (String.list_ascii_of_string (Gmail.raw request)).
Proof.
  unfold Gmail.sendGmail.
  destruct (GoogleAuth.getAccessToken s) as [tok|]; [|done].
  assert (∀ o : result bool,
    (Some (Gmail.mkRequest ("Bearer " +:+ tok) (Gmail.encodedMessage params)),
     o).1 = Some request →
    Forall (λ c, url_safe c = true)
      (String.list_ascii_of_string (Gmail.raw request))) as Hreq.
  { intros o [= <-]. apply encodedMessage_url_safe. }
  destruct answer as [r|e]; [|apply Hreq].
  destruct (Gmail.ok r); [apply Hreq|].
  destruct (Gmail.error_message r); apply Hreq.
Qed.

Lemma raw_message_is_base64url_witness :
  Forall (λ c, url_safe c = true)
    (String.list_ascii_of_string
       "VG86IGFAYi5jDQpTdWJqZWN0OiBIaT8-DQpNSU1FLVZlcnNpb246IDEuMA0KQ29udGVudC1UeXBlOiB0ZXh0L2h0bWw7IGNoYXJzZXQ9dXRmLTgNCg0KYm9keQ").
Proof.
  apply (raw_message_is_base64url
           (GoogleAuth.mkSession true (Ok (Some "ya29.token")))
           (Ok (Gmail.mkResponse true "OK" (Ok None)))
           (GoogleApi.mkMail "a@b.c" "Hi?>" "body" "")
           (Gmail.mkRequest "Bearer ya29.token"
              "VG86IGFAYi5jDQpTdWJqZWN0OiBIaT8-DQpNSU1FLVZlcnNpb246IDEuMA0KQ29udGVudC1UeXBlOiB0ZXh0L2h0bWw7IGNoYXJzZXQ9dXRmLTgNCg0KYm9keQ")).
  by vm_compute.
Defined.

Section html_only.
Import MailInvitations.

Lemma invitation_html_nonempty ps :
  JsString.truthy (GoogleApi.generateInvitationHTML ps) = true.
Proof.
  rewrite invitation_html_shape.
  destruct (html_head_shape ps) as [h ->]. reflexivity.
Qed.

Lemma try_send_html ui ev env d w :
  Forall (λ x, JsString.truthy (GoogleApi.html x.2) = true) (attempts w) →
  Forall (λ x, JsString.truthy (GoogleApi.html x.2) = true)
    (attempts (try_send ui ev env d w).1).
Proof.
  intros Hw. unfold try_send. destruct d as [id pass].
  destruct (qr env) as [url|e]; simpl; [|done].
  assert (Forall (λ x, JsString.truthy (GoogleApi.html x.2) = true)
            (attempts w ++
             [(id, GoogleApi.mkMail (Pass.guest_email pass) (subject ui)
                     (JsString.replace (message ui) "{NAME}"
                        (Pass.guest_name pass))
                     (GoogleApi.generateInvitationHTML
                        (GoogleApi.mkInvitation (Pass.guest_name pass)
                           (Event.title ev) (Event.description ev)
                           (message ui) url (Event.bg_color ev)
                           (Event.accent_color ev))))])) as Hall.
  { apply Forall_app. split; [done|]. constructor; [|done].
    apply invitation_html_nonempty. }
  destruct (mail env) as [e|]; simpl; [done|].
  destruct (Firestore.updateDoc_pass _ _ _ _) as [st1|e]; simpl; [|done].
  by destruct (Firestore.addDoc_email_log _ _ _).
Qed.

Lemma send_one_html ui ev env d w :
  Forall (λ x, JsString.truthy (GoogleApi.html x.2) = true) (attempts w) →
  Forall (λ x, JsString.truthy (GoogleApi.html x.2) = true)
    (attempts_of (send_one ui ev env d w)).
Proof.
  intros Hw. unfold send_one.
  pose proof (try_send_html ui ev env d w Hw) as Htry.
  destruct (try_send ui ev env d w) as [w1 [e|]]; simpl in *; [|done].
  by destruct (Firestore.addDoc_email_log _ _ _).
Qed.

Lemma send_from_html ui ev env ds : ∀ i w,
  Forall (λ x, JsString.truthy (GoogleApi.html x.2) = true) (attempts w) →
  Forall (λ x, JsString.truthy (GoogleApi.html x.2) = true)
    (attempts_of (send_from ui ev env i ds w)).
Proof.
  induction ds as [|d rest IH]; intros i w Hw; cbn [send_from]; [done|].
  pose proof (send_one_html ui ev (env i) d w Hw) as Hone.
  destruct (send_one ui ev (env i) d w) as [|w1|w1 e]; try done.
  by apply IH.
Qed.

Lemma handleSendEmails_html env ui st :
  Forall (λ x, JsString.truthy (GoogleApi.html x.2) = true)
    (attempts_of (handleSendEmails env ui st).2).
Proof.
  unfold handleSendEmails.
  destruct (length _ =? 0)%nat; [by constructor|].
  destruct (negb _); [by constructor|].
  destruct (find _ _) as [[eid ev]|]; [|by constructor].
  pose proof (send_from_html (set_inProgress true ui) ev (per_pass env)
                (passes ui) 0 (mkRun st [] 0 0)) as Hrun.
  destruct (send_from _ _ _ _ _ _); simpl in *; auto.
Qed.

End html_only.

(** X20. Of the two texts the dispatcher hands to [sendGmail] for a pass, only
    the HTML invitation is transmitted: the message is the four header
    lines, an empty line and the HTML, and the plain-text body is not part
    of it, whatever it is. *)
Theorem dispatcher_transmits_html_only env ui st id call :
  (id, call) ∈
    MailInvitations.attempts_of (MailInvitations.handleSendEmails env ui st).2 →
  GoogleApi.html call ≠ ""
  ∧ Gmail.message call
    = String.concat Gmail.crlf
        [ "To: " +:+ GoogleApi.to call;
          "Subject: " +:+ GoogleApi.subject call;
          "MIME-Version: 1.0";
          "Content-Type: text/html; charset=utf-8";
          "";
          GoogleApi.html call ]
  ∧ ∀ plain,
      Gmail.encodedMessage
        (GoogleApi.mkMail (GoogleApi.to call) (GoogleApi.subject call) plain
           (GoogleApi.html call))
      = Gmail.encodedMessage call.
Proof.
  intros Hin.
  pose proof (handleSendEmails_html env ui st) as Hall.
  rewrite Forall_forall in Hall. specialize (Hall _ Hin). simpl in Hall.
  unfold Gmail.encodedMessage, Gmail.message. simpl. rewrite Hall.
  split; [by destruct (GoogleApi.html call)|]. by split.
Qed.

Lemma dispatcher_transmits_html_only_witness :
  ∃ call,
    MailInvitations.attempts_of
      (MailInvitations.handleSendEmails all_delivered mail_ui event_store).2
    = [("p1", call)]
    ∧ GoogleApi.html call ≠ ""
    ∧ Gmail.message call
      = String.concat Gmail.crlf
          [ "To: " +:+ GoogleApi.to call;
            "Subject: " +:+ GoogleApi.subject call;
            "MIME-Version: 1.0";
            "Content-Type: text/html; charset=utf-8";
            "";
            GoogleApi.html call ]
    ∧ ∀ plain,
        Gmail.encodedMessage
          (GoogleApi.mkMail (GoogleApi.to call) (GoogleApi.subject call) plain
             (GoogleApi.html call))
        = Gmail.encodedMessage call.
Proof.
  eexists. split; [reflexivity|].
  apply (dispatcher_transmits_html_only all_delivered mail_ui event_store "p1").
  apply list_elem_of_singleton. reflexivity.
Defined.

(** ** The import from a spreadsheet *)

Section trimming.
Import JsString.

Lemma includes_cons x s needle :
  includes (String x s) needle
  = String.prefix needle (String x s) || includes s needle.
Proof. reflexivity. Qed.

Lemma prefix_char c x s :
  String.prefix (String c "") (String x s) = true → c = x.
Proof. simpl. by destruct (ascii_dec c x). Qed.

Lemma includes_trimStart s c :
  is_whitespace c = false →
  includes s (String c "") = true →
  includes (trimStart s) (String c "") = true.
Proof.
  intros Hc. induction s as [|x s IH]; [done|].
  cbn [trimStart]. destruct (is_whitespace x) eqn:Hx; [|done].
  rewrite includes_cons. intros [Hp|Hs]%orb_true_iff; [|by apply IH].
  apply prefix_char in Hp as ->. congruence.
Qed.

Lemma trimEnd_cons x s :
  trimEnd (String x s)
  = match trimEnd s with
    | "" => if is_whitespace x then "" else String x ""
    | t => String x t
    end.
Proof. reflexivity. Qed.

Lemma includes_trimEnd s c :
  is_whitespace c = false →
  includes s (String c "") = true →
  includes (trimEnd s) (String c "") = true.
Proof.
  intros Hc. induction s as [|x s IH]; [done|].
  rewrite includes_cons, trimEnd_cons.
  intros [Hp|Hs]%orb_true_iff.
  - apply prefix_char in Hp as <-. rewrite Hc.
    destruct (trimEnd s); rewrite includes_cons; simpl;
      by destruct (ascii_dec c c).
  - specialize (IH Hs). destruct (trimEnd s) as [|y t]; [done|].
    rewrite includes_cons, IH. apply orb_true_r.
Qed.

Lemma includes_trim s c :
  is_whitespace c = false →
  includes s (String c "") = true →
  includes (trim s) (String c "") = true.
Proof.
  intros Hc Hs. by apply includes_trimEnd, includes_trimStart.
Qed.

Lemma trimEnd_idem s : trimEnd (trimEnd s) = trimEnd s.
Proof.
  induction s as [|x s IH]; [done|].
  rewrite trimEnd_cons. destruct (trimEnd s) as [|y t] eqn:Ht.
  - destruct (is_whitespace x) eqn:Hx; [done|].
    rewrite trimEnd_cons. simpl. by rewrite Hx.
  - rewrite trimEnd_cons, IH. done.
Qed.

Lemma trimStart_shape s :
  trimStart s = ""
  ∨ ∃ c s', trimStart s = String c s' ∧ is_whitespace c = false.
Proof.
  induction s as [|x s IH]; [by left|].
  cbn [trimStart]. destruct (is_whitespace x) eqn:Hx; [done|].
  right. by eexists _, _.
Qed.

Lemma trim_idem s : trim (trim s) = trim s.
Proof.
  unfold trim. destruct (trimStart_shape s) as [->|(c & s' & -> & Hc)];
    [done|].
  assert (∃ u, trimEnd (String c s') = String c u) as [u Hu].
  { rewrite trimEnd_cons. destruct (trimEnd s'); rewrite ?Hc; by eexists. }
  rewrite Hu. cbn [trimStart]. rewrite Hc, <- Hu. apply trimEnd_idem.
Qed.

End trimming.

Section sheet_import.
Import SheetImport.

Lemma guest_of_row_email row name email :
  guest_of_row row = Some (name, email) →
  JsString.includes email "@" = true ∧ JsString.trim email = email.
Proof.
  unfold guest_of_row, cell_includes, trimmed.
  destruct ((2 <=? length row)%nat) eqn:Hlen; simpl.
  - destruct (row !! 1) as [s1|] eqn:H1.
    + destruct (JsString.includes s1 "@") eqn:Hat.
      * intros [= <- <-]. split; [by apply includes_trim | apply trim_idem].
      * destruct (row !! 0) as [s0|]; [|done].
        destruct (JsString.includes s0 "@") eqn:Hat0; [|done].
        intros [= <- <-]. split; [by apply includes_trim | apply trim_idem].
    + destruct (row !! 0) as [s0|]; [|done].
      destruct (JsString.includes s0 "@") eqn:Hat0; [|done].
      intros [= <- <-]. split; [by apply includes_trim | apply trim_idem].
  - destruct (row !! 0) as [s0|]; [|done].
    destruct (JsString.includes s0 "@") eqn:Hat0; [|done].
    intros [= <- <-]. split; [by apply includes_trim | apply trim_idem].
Qed.

End sheet_import.

Section sheet_import_store.
Import SheetImport.

Lemma import_ext_refl eid prefix sid st : import_ext eid prefix sid st st.
Proof. repeat split. intros id. by left. Qed.

Lemma import_ext_insert eid prefix sid st st' outcome p :
  sheet_pass eid prefix sid p →
  Firestore.addDoc_pass outcome p st = Ok st' →
  import_ext eid prefix sid st st'
  ∧ size (Firestore.passes st') ≤ S (size (Firestore.passes st)).
Proof.
  intros Hp. unfold Firestore.addDoc_pass. destruct outcome as [id|]; [|done].
  intros [= <-]. simpl. split.
  - repeat split. intros i. destruct (decide (i = id)) as [->|Hne].
    + right. exists p. split; [apply lookup_insert_eq | done].
    + left. by apply lookup_insert_ne.
  - destruct (Firestore.passes st !! id) eqn:Hid.
    + rewrite map_size_insert_Some by done. lia.
    + by rewrite map_size_insert_None.
Qed.

Lemma import_ext_trans eid prefix sid st1 st2 st3 :
  import_ext eid prefix sid st1 st2 → import_ext eid prefix sid st2 st3 →
  import_ext eid prefix sid st1 st3.
Proof.
  intros (He & Hs & Hm & Hp) (He' & Hs' & Hm' & Hp').
  repeat split; [congruence..|]. intros id.
  destruct (Hp' id) as [->|?]; [apply Hp | by right].
Qed.

Lemma import_rows_ext eid prefix sid env rows :
  (∀ j, (0 <= rnd env j)%Q ∧ (rnd env j < 1)%Q) →
  ∀ k j st n,
    let out := import_rows eid prefix sid env k j rows st n in
    import_ext eid prefix sid st out.1
    ∧ n ≤ out.2 ≤ n + length rows
    ∧ size (Firestore.passes out.1) + n ≤ size (Firestore.passes st) + out.2.
Proof.
  intros Hrnd. induction rows as [|row rows IH]; intros k j st n out.
  - subst out. simpl. split; [apply import_ext_refl | lia].
  - subst out. cbn [import_rows length].
    assert (∀ k j n,
      import_ext eid prefix sid st
        (import_rows eid prefix sid env k j rows st n).1
      ∧ n ≤ (import_rows eid prefix sid env k j rows st n).2
            ≤ n + S (length rows)
      ∧ size (Firestore.passes
                (import_rows eid prefix sid env k j rows st n).1) + n
        ≤ size (Firestore.passes st)
          + (import_rows eid prefix sid env k j rows st n).2) as Hskip.
    { intros k' j' n'. destruct (IH k' j' st n') as (? & ? & ?).
      split; [done|]. split; lia. }
    destruct (guest_of_row row) as [[name email]|] eqn:Hrow; [|apply Hskip].
    destruct (JsString.truthy email) eqn:Hemail; simpl; [|apply Hskip].
    apply guest_of_row_email in Hrow as [Hat Htrim].
    destruct (Firestore.addDoc_pass _ _ _) as [st1|e] eqn:Hadd;
      [|apply Hskip].
    apply (import_ext_insert eid prefix sid) in Hadd as [Hext Hsize].
    2: { repeat split; try done. simpl.
         by destruct (generated_code_format_aux (rnd env) k prefix Hrnd). }
    destruct (IH (k + 6) (S j) st1 (S n)) as (Hext' & Hn & Hsize').
    split; [by eapply import_ext_trans|]. split; lia.
Qed.

(** The loop reads the random source, the clock and the store's answers
    only. *)
Lemma import_rows_sheet_of eid prefix sid env rows0 rows :
  ∀ k j st n,
    import_rows eid prefix sid (sheet_of env rows0) k j rows st n
    = import_rows eid prefix sid env k j rows st n.
Proof.
  induction rows as [|row rows IH]; intros k j st n; [done|].
  cbn [import_rows]. destruct (guest_of_row row) as [[name email]|]; [|done].
  destruct (negb (JsString.truthy email)); [done|].
  cbn [sheet_of rnd now add_outcome].
  by destruct (Firestore.addDoc_pass _ _ _).
Qed.

End sheet_import_store.

(** X21. Whatever the sheet holds and whichever writes the store rejects, the
    import leaves events and logs alone and changes the pass collection
    only by writing passes of the selected event that remember the sheet
    id, are pending, carry a code of the event's format and an email
    address, trimmed, with an [@] in it. The number reported is at least
    the growth of the collection, and without a report of an import the
    store is as before. *)
Theorem sheet_import_writes_only_sheet_passes env ui st eid ev :
  find (λ e, String.eqb e.1 (MailInvitations.selectedEventId ui))
       (MailInvitations.events ui) = Some (eid, ev) →
  (∀ j, (0 <= SheetImport.rnd env j)%Q ∧ (SheetImport.rnd env j < 1)%Q) →
  let out := SheetImport.handleSheetImport env ui st in
  import_ext (MailInvitations.selectedEventId ui)
    (or_default (Event.qr_prefix ev) "QRP") (MailInvitations.sheetId ui)
    st out.1.2
  ∧ (∀ n, out.2 = Some (SheetImport.Imported n) →
          size (Firestore.passes out.1.2) ≤ size (Firestore.passes st) + n)
  ∧ ((∀ n, out.2 ≠ Some (SheetImport.Imported n)) → out.1 = (ui, st)).
Proof.
  intros Hfind Hrnd out. subst out. unfold SheetImport.handleSheetImport.
  destruct (negb (JsString.truthy (JsString.trim _))); simpl;
    [split; [apply import_ext_refl|done]|].
  rewrite Hfind.
  destruct (GoogleAuth.stored_token _) as [tok|e]; simpl;
    [|split; [apply import_ext_refl|done]].
  destruct (negb (truthy_opt tok)); simpl;
    [split; [apply import_ext_refl|done]|].
  destruct (Sheets.readGoogleSheet _ _) as [[|first rest]|e]; simpl;
    [split; [apply import_ext_refl|done]| |split; [apply import_ext_refl|done]].
  pose proof (import_rows_ext (MailInvitations.selectedEventId ui)
                (or_default (Event.qr_prefix ev) "QRP")
                (MailInvitations.sheetId ui) env
                (drop (if SheetImport.is_header first then 1 else 0)
                      (first :: rest)) Hrnd 0 0 st 0) as Hrows.
  simpl in Hrows.
  destruct (SheetImport.import_rows _ _ _ _ _ _ _ _ _) as [st' n].
  simpl in *. destruct Hrows as (Hext & Hn & Hsize).
  split; [done|]. split.
  - intros n' [= <-]. lia.
  - intros Hno. by destruct (Hno n).
Qed.

Lemma sheet_import_writes_only_sheet_passes_witness :
  let out :=
    SheetImport.handleSheetImport (sheet_of sheet_env sheet_rows) sheet_ui
      event_store in
  import_ext "ev1" "EVTX" "sheet-1" event_store out.1.2
  ∧ (∀ n, out.2 = Some (SheetImport.Imported n) →
          size (Firestore.passes out.1.2)
          ≤ size (Firestore.passes event_store) + n)
  ∧ ((∀ n, out.2 ≠ Some (SheetImport.Imported n)) → out.1 = (sheet_ui, event_store)).
Proof.
  apply (sheet_import_writes_only_sheet_passes (sheet_of sheet_env sheet_rows)
           sheet_ui event_store "ev1" sample_event); [reflexivity|].
  intros j. split; [discriminate | reflexivity].
Defined.

(** X22. The first row of the sheet is taken for a header, and dropped,
    whenever its first cell contains [name] or its second cell contains
    [email], in any case: also when it is a guest's row, such as one with
    an address at [email.com]. The import then does what it does for the
    sheet without that row. *)
Theorem first_row_taken_for_header env ui st first second rest :
  SheetImport.is_header first = true →
  SheetImport.is_header second = false →
  SheetImport.handleSheetImport (sheet_of env (first :: second :: rest)) ui st
  = SheetImport.handleSheetImport (sheet_of env (second :: rest)) ui st.
Proof.
  intros Hfirst Hsecond. unfold SheetImport.handleSheetImport.
  destruct (negb (JsString.truthy (JsString.trim _))); [done|].
  destruct (find _ _) as [[eid ev]|]; [|done]. simpl.
  destruct (GoogleAuth.stored_token _) as [tok|e]; [|done].
  destruct (negb (truthy_opt tok)); [done|].
  unfold Sheets.readGoogleSheet. cbn -[SheetImport.is_header drop].
  destruct (GoogleAuth.getAccessToken _); [|done].
  by rewrite Hfirst, Hsecond, !import_rows_sheet_of.
Qed.

Lemma first_row_taken_for_header_witness :
  SheetImport.handleSheetImport (sheet_of sheet_env sheet_rows) sheet_ui
    event_store
  = SheetImport.handleSheetImport (sheet_of sheet_env (tail sheet_rows))
      sheet_ui event_store.
Proof.
  by apply (first_row_taken_for_header sheet_env sheet_ui event_store
              ["Ana"; "ana@email.com"] ["Bob"; " bob@x.com "]).
Defined.

(** The sample sheet: the first guest is dropped as a header, the write
    for the second is rejected, and two passes are imported. *)
Example sheet_import_sample :
  let out :=
    SheetImport.handleSheetImport (sheet_of sheet_env sheet_rows) sheet_ui
      event_store in
  out.2 = Some (SheetImport.Imported 2)
  ∧ (Pass.guest_email <$> Firestore.passes out.1.2)
    = {[ "p1" := "ana@x.com"; "s0" := "bob@x.com"; "s2" := "di@x.com" ]}.
Proof. by vm_compute. Qed.

(** X23. When the Sheets API answers the read with an error status, the import
    writes nothing and the alert carries
    [Failed to read sheet (STATUS): MESSAGE], the message being the one of
    the API's error body when it has one and the status text otherwise.
    This holds for the statuses 401 and 403 too: the hints to sign in
    again or to share the sheet are thrown inside the helper's inner
    [try] and swallowed by its [catch]. *)
Theorem sheet_api_error_alert env ui st eid ev tok response :
  JsString.trim (MailInvitations.sheetId ui) ≠ "" →
  find (λ e, String.eqb e.1 (MailInvitations.selectedEventId ui))
       (MailInvitations.events ui) = Some (eid, ev) →
  GoogleAuth.signedIn (SheetImport.session env) = true →
  GoogleAuth.stored_token (SheetImport.session env) = Ok (Some tok) →
  tok ≠ "" →
  SheetImport.answer env = Sheets.Resolved response →
  Sheets.ok response = false →
  let errorMessage :=
    match Sheets.body response with
    | Ok error =>
        or_default (Sheets.error_message error) (Sheets.statusText response)
    | Throw _ => Sheets.statusText response
    end in
  SheetImport.handleSheetImport env ui st
  = (ui, st,
     Some (SheetImport.Failed (JsError.mk (Some
       ("Failed to read sheet (" +:+ pretty.pretty (Sheets.status response) +:+ "): "
        +:+ errorMessage))))).
Proof.
  intros Hsheet Hfind Hin Htok Hne Hans Hok errorMessage. subst errorMessage.
  unfold SheetImport.handleSheetImport.
  apply truthy_iff in Hsheet. rewrite Hsheet, Hfind, Htok. simpl.
  apply truthy_iff in Hne. rewrite Hne. simpl.
  unfold Sheets.readGoogleSheet, GoogleAuth.getAccessToken.
  rewrite Hin, Htok, Hne, Hans, Hok. simpl.
  unfold Sheets.read_error.
  destruct (Sheets.body response) as [error|e]; [|done].
  destruct (Sheets.status response =? 401)%nat; [done|].
  by destruct (Sheets.status response =? 403)%nat.
Qed.

Lemma sheet_api_error_alert_witness :
  SheetImport.handleSheetImport
    (SheetImport.mkEnv (GoogleAuth.mkSession true (Ok (Some "ya29.token")))
       (Sheets.Resolved
          (Sheets.mkResponse false 401 "Unauthorized"
             (Ok (Sheets.mkBody (Some "Invalid Credentials") None))))
       (λ _, 1 # 2) 60%Z (λ _, Ok "s0") None)
    sheet_ui event_store
  = (sheet_ui, event_store,
     Some (SheetImport.Failed (JsError.mk (Some
       ("Failed to read sheet (" +:+ pretty.pretty 401 +:+ "): "
        +:+ "Invalid Credentials"))))).
Proof.
  by apply (sheet_api_error_alert
              (SheetImport.mkEnv
                 (GoogleAuth.mkSession true (Ok (Some "ya29.token")))
                 (Sheets.Resolved
                    (Sheets.mkResponse false 401 "Unauthorized"
                       (Ok (Sheets.mkBody (Some "Invalid Credentials") None))))
                 (λ _, 1 # 2) 60%Z (λ _, Ok "s0") None)
              sheet_ui event_store "ev1" sample_event "ya29.token"
              (Sheets.mkResponse false 401 "Unauthorized"
                 (Ok (Sheets.mkBody (Some "Invalid Credentials") None)))).
Defined.

(** The status is rendered in decimal. *)
Example sheet_api_error_rendering :
  "Failed to read sheet (" +:+ pretty.pretty 401 +:+ "): " +:+ "Invalid Credentials"
  = "Failed to read sheet (401): Invalid Credentials".
Proof. by vm_compute. Qed.

(** ** Admin profiles and the pages they open *)

Section admins.
Import Admins.

Lemma no_legacy_head userId admins :
  no_legacy_profile userId admins →
  head (filter (λ x : string * Doc, id x.2 = Some userId)
               (map_to_list admins)) = None.
Proof.
  intros Hno. destruct (filter _ _) as [|[k d] l] eqn:Hf; [done|].
  assert ((k, d) ∈ filter (λ x : string * Doc, id x.2 = Some userId)
            (map_to_list admins)) as Hin by (rewrite Hf; by left).
  apply list_elem_of_filter in Hin as [Hid Hk%elem_of_map_to_list].
  by destruct (Hno k d Hk).
Qed.

Lemma scanner_admin_pages currentPage :
  App.renderPage (Some "scanner_admin") currentPage = App.Scanner
  ∨ App.renderPage (Some "scanner_admin") currentPage = App.History.
Proof.
  unfold App.renderPage. simpl.
  destruct (String.eqb currentPage "scanner"); [by left|].
  destruct (String.eqb currentPage "history"); [by right | by left].
Qed.

End admins.

(** X24. A user who signs in for the first time, with no profile under their
    uid or under the older [id] field, gets a profile with the role
    [scanner_admin] stored under their uid, and no other profile is
    touched; with it, whatever the hash of the location, the page shown
    is the scanner or the history, and the navigation bar has these two
    links only. *)
Theorem first_sign_in_is_scanner_admin userId admins :
  admins !! userId = None →
  no_legacy_profile userId admins →
  let out := Admins.fetchAdminProfile no_faults userId admins in
  ∃ admin,
    out.1 = Ok admin
    ∧ Admins.role admin = Some "scanner_admin"
    ∧ out.2 = <[userId := admin]> admins
    ∧ (∀ hash,
         let page :=
           App.renderPage (App.role_of admin)
             (App.handleHashChange (App.role_of admin) hash) in
         page = App.Scanner ∨ page = App.History)
    ∧ App.navigation (App.role_of admin)
      = [("Scanner", "#scanner"); ("History", "#history")].
Proof.
  intros Hnone Hno out. subst out. unfold Admins.fetchAdminProfile. simpl.
  rewrite Hnone, (no_legacy_head _ _ Hno). simpl.
  eexists. split; [reflexivity|]. split; [done|]. split; [done|].
  split; [|done]. intros hash. apply scanner_admin_pages.
Qed.

Lemma first_sign_in_is_scanner_admin_witness :
  let out := Admins.fetchAdminProfile no_faults "u7" sample_admins in
  ∃ admin,
    out.1 = Ok admin
    ∧ Admins.role admin = Some "scanner_admin"
    ∧ out.2 = <[ "u7" := admin ]> sample_admins
    ∧ (∀ hash,
         let page :=
           App.renderPage (App.role_of admin)
             (App.handleHashChange (App.role_of admin) hash) in
         page = App.Scanner ∨ page = App.History)
    ∧ App.navigation (App.role_of admin)
      = [("Scanner", "#scanner"); ("History", "#history")].
Proof.
  apply (first_sign_in_is_scanner_admin "u7" sample_admins); [done|].
  intros k d Hk. unfold sample_admins in Hk.
  apply lookup_singleton_Some in Hk as [_ <-]. done.
Defined.

(** X25. Fetching a profile twice is fetching it once: the second call returns
    the profile the first one returned and leaves the collection as the
    first one left it, be the profile found under the uid, found under
    the older [id] field, or created by the first call. *)
Theorem fetch_admin_profile_twice userId admins :
  let first := Admins.fetchAdminProfile no_faults userId admins in
  Admins.fetchAdminProfile no_faults userId first.2 = first.
Proof.
  intros first. subst first. unfold Admins.fetchAdminProfile. simpl.
  destruct (admins !! userId) as [d|] eqn:Hd; simpl.
  - by rewrite Hd.
  - destruct (head _) as [[k d]|] eqn:Hhead; simpl.
    + by rewrite Hd, Hhead.
    + by rewrite lookup_insert_eq.
Qed.



(** ** The figures of the analytics page and the dashboard *)

Section figures.

Lemma scanned_insert (m : gmap string Pass.t) i p p' :
  m !! i = Some p →
  length (filter (λ d : string * Pass.t, Pass.consumed d.2 = true)
            (map_to_list (<[i := p']> m)))
  + (if Pass.consumed p then 1 else 0)
  = length (filter (λ d : string * Pass.t, Pass.consumed d.2 = true)
              (map_to_list m))
    + (if Pass.consumed p' then 1 else 0).
Proof.
  intros Hi.
  rewrite <- (insert_delete_id m i p Hi) at 2.
  rewrite <- (insert_delete_eq m i p').
  rewrite !map_to_list_insert by apply lookup_delete_eq.
  rewrite !filter_cons. simpl.
  destruct (Pass.consumed p), (Pass.consumed p');
    repeat (case_decide; try done); simpl; lia.
Qed.

Lemma scanned_pointwise (m : gmap string Pass.t) :
  ∀ m' : gmap string Pass.t,
    (∀ i, match m !! i with
          | Some p => ∃ p', m' !! i = Some p'
                            ∧ Pass.consumed p' = Pass.consumed p
          | None => m' !! i = None
          end) →
    length (filter (λ d : string * Pass.t, Pass.consumed d.2 = true)
              (map_to_list m'))
    = length (filter (λ d : string * Pass.t, Pass.consumed d.2 = true)
                (map_to_list m))
    ∧ size m' = size m.
Proof.
  induction m as [|i p m Hi IH] using map_ind; intros m' Hrel.
  - assert (m' = ∅) as ->; [|done].
    apply map_eq. intros i. specialize (Hrel i).
    by rewrite lookup_empty in Hrel |- *.
  - pose proof (Hrel i) as Hi'. rewrite lookup_insert_eq in Hi'.
    destruct Hi' as (p' & Hp' & Hc).
    destruct (IH (delete i m')) as [Hcount Hsize].
    { intros j. destruct (decide (j = i)) as [->|Hne].
      - by rewrite Hi, lookup_delete_eq.
      - specialize (Hrel j).
        rewrite lookup_insert_ne in Hrel by done.
        by rewrite lookup_delete_ne. }
    rewrite <- (insert_delete_id m' i p' Hp').
    rewrite !map_to_list_insert, !filter_cons, !map_size_insert_None
      by (done || apply lookup_delete_eq).
    simpl. rewrite Hc, Hsize.
    split; [|done]. case_decide; simpl; by rewrite Hcount.
Qed.

End figures.

(** X27. What one scan does to the figures of the analytics page. The number
    of passes and the two mail figures stay; the number of scanned passes
    stays or rises by one; the two scan figures stay, or the result shown
    is counted once: under invalid scans when it is [invalid], under
    duplicate scans when it is [already_used], and under neither when it
    is [valid]. *)
Theorem scan_moves_figures env c ui st :
  let out := Scanner.handleScan env c ui st in
  ∃ a a',
    Analytics.fetchAnalytics None st = Some a
    ∧ Analytics.fetchAnalytics None out.2 = Some a'
    ∧ Analytics.totalGenerated a' = Analytics.totalGenerated a
    ∧ Analytics.totalSent a' = Analytics.totalSent a
    ∧ Analytics.totalFailed a' = Analytics.totalFailed a
    ∧ (Analytics.totalScanned a' = Analytics.totalScanned a
       ∨ Analytics.totalScanned a' = S (Analytics.totalScanned a))
    ∧ ((Analytics.invalidScans a' = Analytics.invalidScans a
        ∧ Analytics.duplicateScans a' = Analytics.duplicateScans a)
       ∨ ∃ r, Scanner.result out.1 = Some r
              ∧ Analytics.invalidScans a'
                = Analytics.invalidScans a
                  + (if decide (Scanner.status r = invalid) then 1 else 0)
              ∧ Analytics.duplicateScans a'
                = Analytics.duplicateScans a
                  + (if decide (Scanner.status r = already_used)
                     then 1 else 0)).
Proof.
  intros out. subst out. eexists _, _.
  split; [reflexivity|]. split; [reflexivity|]. simpl.
  unfold Analytics.sent_count, Analytics.failed_count, Analytics.count_scan,
    Analytics.usedPasses.
  destruct (handleScan_effect env c ui st)
    as (ps & logs & Hst & Hlogs & Hps).
  rewrite Hst. simpl.
  assert ((length (filter (λ e, ScanLog.status e = invalid) logs)
           = length (filter (λ e, ScanLog.status e = invalid)
                       (Firestore.scan_logs st))
           ∧ length (filter (λ e, ScanLog.status e = already_used) logs)
             = length (filter (λ e, ScanLog.status e = already_used)
                         (Firestore.scan_logs st)))
          ∨ ∃ r, Scanner.result (Scanner.handleScan env c ui st).1 = Some r
                 ∧ length (filter (λ e, ScanLog.status e = invalid) logs)
                   = length (filter (λ e, ScanLog.status e = invalid)
                               (Firestore.scan_logs st))
                     + (if decide (Scanner.status r = invalid) then 1 else 0)
                 ∧ length (filter (λ e, ScanLog.status e = already_used) logs)
                   = length (filter (λ e, ScanLog.status e = already_used)
                               (Firestore.scan_logs st))
                     + (if decide (Scanner.status r = already_used)
                        then 1 else 0)) as Hscan.
  { destruct Hlogs as [->|(r & entry & Hr & Hs & _ & ->)]; [by left|].
    right. exists r. split; [done|].
    rewrite !filter_app, !length_app, !filter_cons, !filter_nil, Hs.
    split; case_decide; simpl; lia. }
  destruct Hps as [->|(id & p & now & uid & Hid & _ & Hc & ->)].
  - by repeat split; [left|].
  - split; [by rewrite map_size_insert_Some|].
    split; [done|]. split; [done|]. split; [|done].
    right. pose proof (scanned_insert (Firestore.passes st) id p
                         (Pass.mark_scanned now uid p) Hid) as Hcount.
    rewrite Hc in Hcount. simpl in Hcount. lia.
Qed.

Section mail_figures.

Lemma failed_count_entries (l : list EmailLog.t) :
  length (filter (λ e, EmailLog.status e = email_failed
                       ∨ EmailLog.status e = email_invalid) l)
  = failure_entries l.
Proof.
  unfold failure_entries. induction l as [|e l IH]; [done|].
  rewrite !filter_cons.
  destruct (EmailLog.status e) eqn:Hs;
    repeat (case_decide; simpl; try done; try (by rewrite IH));
    exfalso; intuition congruence.
Qed.

Lemma send_step_consumed p p' :
  send_step_of p p' → Pass.consumed p' = Pass.consumed p.
Proof. by intros [->|[t ->]]. Qed.

End mail_figures.

(** X28. The analytics page and the dashboard agree with the progress card of
    the dispatcher: after a run that reaches its end, the sent figure of
    both pages has risen by the run's [sent] counter and the failed figure
    by its [failed] counter; the number of passes, the number of scanned
    passes, the scan rate and the scan figures are as before. *)
Theorem completed_run_moves_figures env ui st w :
  (MailInvitations.handleSendEmails env ui st).2 = MailInvitations.Completed w →
  ∃ a a' d d',
    Analytics.fetchAnalytics None st = Some a
    ∧ Analytics.fetchAnalytics None (MailInvitations.store w) = Some a'
    ∧ Dashboard.fetchDashboardData None st = Some d
    ∧ Dashboard.fetchDashboardData None (MailInvitations.store w) = Some d'
    ∧ Analytics.totalSent a'
      = Analytics.totalSent a + MailInvitations.sent w
    ∧ Analytics.totalFailed a'
      = Analytics.totalFailed a + MailInvitations.failed w
    ∧ Dashboard.emailsSent d'
      = Dashboard.emailsSent d + MailInvitations.sent w
    ∧ Analytics.totalGenerated a' = Analytics.totalGenerated a
    ∧ Analytics.totalScanned a' = Analytics.totalScanned a
    ∧ Analytics.scanRate a' = Analytics.scanRate a
    ∧ Analytics.invalidScans a' = Analytics.invalidScans a
    ∧ Analytics.duplicateScans a' = Analytics.duplicateScans a.
Proof.
  intros Hrun. eexists _, _, _, _.
  do 4 (split; [reflexivity|]). simpl.
  destruct (handleSendEmails_completed env ui st w Hrun) as [ev Hloop].
  apply send_from_completed in Hloop as (entries & Hlog & _ & Hs & Hf).
  simpl in Hlog, Hs, Hf.
  pose proof (handleSendEmails_ext env ui st) as (_ & Hscan & _ & Hps).
  rewrite Hrun in Hscan, Hps. simpl in Hscan, Hps.
  destruct (scanned_pointwise (Firestore.passes st)
              (Firestore.passes (MailInvitations.store w)))
    as [Hcount Hsize].
  { intros i. specialize (Hps i).
    destruct (Firestore.passes st !! i) as [p|]; [|done].
    destruct Hps as (p' & Hp' & Hstep). exists p'.
    split; [done | by apply send_step_consumed]. }
  unfold Analytics.sent_count, Analytics.failed_count, Analytics.count_scan,
    Analytics.usedPasses.
  rewrite Hlog, Hscan, Hcount, Hsize, !filter_app, !length_app.
  rewrite !failed_count_entries, Hs, Hf. by repeat split.
Qed.

Lemma completed_run_moves_figures_witness :
  ∃ w,
    (MailInvitations.handleSendEmails first_bounces party_ui party_store).2
    = MailInvitations.Completed w
    ∧ ∃ a a' d d',
        Analytics.fetchAnalytics None party_store = Some a
        ∧ Analytics.fetchAnalytics None (MailInvitations.store w) = Some a'
        ∧ Dashboard.fetchDashboardData None party_store = Some d
        ∧ Dashboard.fetchDashboardData None (MailInvitations.store w) = Some d'
        ∧ Analytics.totalSent a'
          = Analytics.totalSent a + MailInvitations.sent w
        ∧ Analytics.totalFailed a'
          = Analytics.totalFailed a + MailInvitations.failed w
        ∧ Dashboard.emailsSent d'
          = Dashboard.emailsSent d + MailInvitations.sent w
        ∧ Analytics.totalGenerated a' = Analytics.totalGenerated a
        ∧ Analytics.totalScanned a' = Analytics.totalScanned a
        ∧ Analytics.scanRate a' = Analytics.scanRate a
        ∧ Analytics.invalidScans a' = Analytics.invalidScans a
        ∧ Analytics.duplicateScans a' = Analytics.duplicateScans a.
Proof.
  eexists. split; [reflexivity|].
  apply (completed_run_moves_figures first_bounces party_ui party_store).
  reflexivity.
Defined.

(** X29. The figures hang together: the scanned passes are among the passes,
    so the scan rate lies between 0 and 100; every entry of the mail log
    is counted as sent or as failed; and the dashboard shows the same
    numbers of passes, scanned passes and sent mails as the analytics
    page. *)
Theorem figures_are_consistent st :
  ∃ a d,
    Analytics.fetchAnalytics None st = Some a
    ∧ Dashboard.fetchDashboardData None st = Some d
    ∧ Analytics.totalScanned a ≤ Analytics.totalGenerated a
    ∧ (0 <= Analytics.scanRate a)%Q
    ∧ (Analytics.scanRate a <= 100)%Q
    ∧ Analytics.totalSent a + Analytics.totalFailed a
      = length (Firestore.email_logs st)
    ∧ Analytics.invalidScans a + Analytics.duplicateScans a
      ≤ length (Firestore.scan_logs st)
    ∧ Dashboard.totalPasses d = Analytics.totalGenerated a
    ∧ Dashboard.scannedPasses d = Analytics.totalScanned a
    ∧ Dashboard.emailsSent d = Analytics.totalSent a.
Proof.
  eexists _, _. split; [reflexivity|]. split; [reflexivity|]. simpl.
  assert (length (Analytics.usedPasses st) ≤ size (Firestore.passes st))
    as Hle.
  { unfold Analytics.usedPasses. rewrite <- length_map_to_list.
    apply length_filter. }
  split; [done|].
  assert ((0 <= (if (0 <? size (Firestore.passes st))%nat
                 then inject_Z (Z.of_nat (length (Analytics.usedPasses st)))
                      / inject_Z (Z.of_nat (size (Firestore.passes st))) * 100
                 else 0) <= 100)%Q) as [H0 H100].
  { destruct (Nat.ltb_spec 0 (size (Firestore.passes st))) as [Hpos|_];
      [|split; discriminate].
    set (s := length (Analytics.usedPasses st)) in *.
    set (g := size (Firestore.passes st)) in *.
    assert (0 < inject_Z (Z.of_nat g))%Q as Hg
      by (change 0%Q with (inject_Z 0); rewrite <- Zlt_Qlt; lia).
    split.
    - apply Qmult_le_0_compat; [|discriminate].
      apply Qle_shift_div_l; [done|]. rewrite Qmult_0_l.
      change 0%Q with (inject_Z 0). rewrite <- Zle_Qle. lia.
    - apply Qle_trans with (1 * 100)%Q; [|discriminate].
      apply Qmult_le_compat_r; [|discriminate].
      apply Qle_shift_div_r; [done|]. rewrite Qmult_1_l.
      rewrite <- Zle_Qle. lia. }
  split; [done|]. split; [done|].
  split.
  { unfold Analytics.sent_count, Analytics.failed_count.
    rewrite failed_count_entries. apply entries_partition. }
  split; [|done].
  unfold Analytics.count_scan.
  induction (Firestore.scan_logs st) as [|e l IH]; [done|].
  rewrite !filter_cons. simpl.
  destruct (ScanLog.status e); repeat case_decide; simpl; try done; lia.
Qed.

(** ** Rejected writes, on sample data *)

Lemma scan_pending_pass_update_rejected_witness :
  let out :=
    Scanner.handleScan
      (Scanner.mkEnv None (Some (JsError.mk (Some "permission-denied"))) 500
         None 501)
      "EVTX-AB12#9" operator_ui gate_store in
  Scanner.status <$> Scanner.result out.1 = Some valid
  ∧ Firestore.passes out.2 = Firestore.passes gate_store.
Proof.
  apply (scan_pending_pass_update_rejected
           (Scanner.mkEnv None (Some (JsError.mk (Some "permission-denied")))
              500 None 501)
           operator_ui gate_store "op7" "p1" pending_pass
           (JsError.mk (Some "permission-denied"))); try done.
  apply gate_store_codes_unique.
Defined.

Lemma rejected_failure_log_leaves_loop_witness :
  ∃ w',
    MailInvitations.send_from mail_ui sample_event
      (λ _, MailInvitations.mkSendEnv
              (Ok "data:image/png;base64,iVBORw0KGgo=")
              (Some address_not_found) None 700%Z None
              (Some (JsError.mk (Some "unavailable"))) 701%Z)
      0 [("p1", pending_pass); ("p3", other_pending_pass)]
      (MailInvitations.mkRun party_store [] 0 0)
    = MailInvitations.Aborted w' (JsError.mk (Some "unavailable"))
    ∧ MailInvitations.store w' = party_store.
Proof.
  apply (rejected_failure_log_leaves_loop mail_ui sample_event
           (λ _, MailInvitations.mkSendEnv
                   (Ok "data:image/png;base64,iVBORw0KGgo=")
                   (Some address_not_found) None 700%Z None
                   (Some (JsError.mk (Some "unavailable"))) 701%Z)
           0 ("p1", pending_pass) [("p3", other_pending_pass)]
           (MailInvitations.mkRun party_store [] 0 0) address_not_found
           (JsError.mk (Some "unavailable"))); [|done].
  right. split; [by eexists | done].
Defined.

(** ** The exported guest list *)

Section csv.
Import JsString.

Lemma split_without sep s :
  Forall (λ c, c ≠ sep) (String.list_ascii_of_string s) →
  split sep s = [s].
Proof.
  induction s as [|c s IH]; [done|].
  intros [Hc Hs]%Forall_cons. cbn [split]. rewrite (IH Hs).
  by apply Ascii.eqb_neq in Hc as ->.
Qed.

Lemma split_app_sep sep s t :
  Forall (λ c, c ≠ sep) (String.list_ascii_of_string s) →
  split sep (s +:+ String sep t) = s :: split sep t.
Proof.
  induction s as [|c s IH].
  - intros _. rewrite str_app_nil_l. cbn [split].
    by rewrite Ascii.eqb_refl.
  - intros [Hc Hs]%Forall_cons. rewrite str_app_cons. cbn [split].
    rewrite (IH Hs). by apply Ascii.eqb_neq in Hc as ->.
Qed.

Lemma concat_cons sep f g fields :
  String.concat sep (f :: g :: fields)
  = f +:+ sep +:+ String.concat sep (g :: fields).
Proof. reflexivity. Qed.

Lemma split_concat sep f fields :
  Forall (λ s, Forall (λ c, c ≠ sep) (String.list_ascii_of_string s))
         (f :: fields) →
  split sep (String.concat (String sep "") (f :: fields)) = f :: fields.
Proof.
  revert f. induction fields as [|g fields IH]; intros f Hall.
  - apply Forall_cons in Hall as [Hf _]. by apply split_without.
  - apply Forall_cons in Hall as [Hf Hrest].
    rewrite concat_cons, str_app_cons, str_app_nil_l.
    rewrite split_app_sep by done. by rewrite IH.
Qed.

Lemma chars_app s t :
  String.list_ascii_of_string (s +:+ t)
  = String.list_ascii_of_string s ++ String.list_ascii_of_string t.
Proof.
  induction s as [|c s IH]; [done|].
  rewrite str_app_cons. simpl. by rewrite IH.
Qed.

Lemma concat_without sep c fields :
  c ≠ sep →
  Forall (λ s, Forall (λ x, x ≠ c) (String.list_ascii_of_string s)) fields →
  Forall (λ x, x ≠ c)
    (String.list_ascii_of_string (String.concat (String sep "") fields)).
Proof.
  intros Hne. induction fields as [|f [|g fields] IH]; intros Hall.
  - constructor.
  - by apply Forall_cons in Hall as [Hf _].
  - apply Forall_cons in Hall as [Hf Hrest].
    rewrite concat_cons, !chars_app. apply Forall_app. split; [done|].
    apply Forall_app. split; [|by apply IH].
    constructor; [by intros ->|constructor].
Qed.

Lemma plain_cell_check s :
  forallb (λ c, negb (Ascii.eqb c ",")
                && negb (Ascii.eqb c (ascii_of_nat 10)))
          (String.list_ascii_of_string s) = true →
  plain_cell s.
Proof.
  unfold plain_cell. induction (String.list_ascii_of_string s) as [|c l IH];
    [constructor|].
  simpl. intros [[H1 H2]%andb_true_iff Hl]%andb_true_iff.
  constructor; [|by apply IH].
  apply negb_true_iff in H1, H2. by split; apply Ascii.eqb_neq.
Qed.

End csv.

(** X30. The export can be read back when no cell needs quoting: if the names,
    addresses, codes and rendered dates hold neither a comma nor a line
    feed, splitting the text into lines and the lines at the commas gives
    the header row followed by one row of six cells per pass, in the order
    of the list. *)
Theorem exported_guest_list_splits_back render passes :
  Forall (λ d, plain_cell (Pass.guest_name d.2)
               ∧ plain_cell (Pass.guest_email d.2)
               ∧ plain_cell (Pass.code d.2)
               ∧ ∀ t, Pass.scanned_at d.2 = Some t → plain_cell (render t))
         passes →
  JsString.split ","
    <$> JsString.split (ascii_of_nat 10)
          (GuestsExport.csvContent render passes)
  = GuestsExport.headers :: (GuestsExport.row render ∘ snd <$> passes).
Proof.
  intros Hall.
  set (rest := GuestsExport.row render ∘ snd <$> passes).
  assert (Forall (λ r, r ≠ [] ∧ Forall plain_cell r)
            (GuestsExport.headers :: rest)) as Hrows.
  { constructor.
    - split; [done|].
      repeat (constructor; [by apply plain_cell_check|]). constructor.
    - apply Forall_fmap. eapply Forall_impl; [exact Hall|].
      intros [id p] (Hn & He & Hc & Ht). simpl in *. split; [done|].
      repeat (constructor; [done|]).
      constructor;
        [destruct (Pass.sent_at p); apply plain_cell_check; reflexivity|].
      constructor;
        [destruct (Pass.used p) as [[]|]; apply plain_cell_check;
         reflexivity|].
      constructor; [|constructor].
      destruct (Pass.scanned_at p) as [t|];
        [by apply Ht | apply plain_cell_check; reflexivity]. }
  unfold GuestsExport.csvContent. fold rest.
  rewrite fmap_cons, split_concat.
  - rewrite <- fmap_cons, <- list_fmap_compose.
    induction Hrows as [|r rows [Hne Hr] _ IH]; [done|].
    rewrite fmap_cons, IH. f_equal. simpl.
    destruct r as [|c cells]; [done|]. apply split_concat.
    eapply Forall_impl; [exact Hr|]. intros s' Hs.
    eapply Forall_impl; [exact Hs|]. by intros x [? _].
  - rewrite <- fmap_cons. apply Forall_fmap.
    eapply Forall_impl; [exact Hrows|]. intros cells [_ Hcells]. simpl.
    apply concat_without; [done|].
    eapply Forall_impl; [exact Hcells|]. intros s' Hs.
    eapply Forall_impl; [exact Hs|]. by intros x [_ ?].
Qed.

Lemma exported_guest_list_splits_back_witness :
  JsString.split ","
    <$> JsString.split (ascii_of_nat 10)
          (GuestsExport.csvContent (λ _, "Invalid Date")
             [("p1", pending_pass); ("p2", used_pass)])
  = GuestsExport.headers
    :: (GuestsExport.row (λ _, "Invalid Date") ∘ snd
          <$> [("p1", pending_pass); ("p2", used_pass)]).
Proof.
  apply (exported_guest_list_splits_back (λ _, "Invalid Date")
           [("p1", pending_pass); ("p2", used_pass)]).
  repeat (constructor;
          [repeat split; try intros t _; apply plain_cell_check; reflexivity|]).
  constructor.
Defined.

(** The cells are not quoted: a comma in a guest's name shifts the
    columns of its row. *)
Example exported_name_with_comma :
  JsString.split ","
    <$> JsString.split (ascii_of_nat 10)
          (GuestsExport.csvContent (λ _, "Invalid Date")
             [("p9", Pass.mk "ev1" "EVTX-AB12#9" "Doe, Jane" "jane@x.com"
                       None None (Some false) None None None)])
  = [ GuestsExport.headers;
      ["Doe"; " Jane"; "jane@x.com"; "EVTX-AB12#9"; "No"; "No"; "N/A"] ].
Proof. by vm_compute. Qed.
